(** * Celestia [celmodel/mesh.cpp]: the model

    The development follows [src/celmodel/mesh.cpp].  Unsigned 32-bit
    quantities ([unsigned int], [index32]) are integers of [Z] with the
    wrap-around written out ([wrap32]); [std::size_t] is 64 bits wide
    ([wrap64]); [int] conversions are [to_int].  Vertex buffers are byte
    lists, a [float] is the four bytes it occupies in a buffer, and the
    floating-point arithmetic itself is a parameter of the sections that
    need it. *)

From Stdlib Require Import ZArith Lia.
From Stdlib.Strings Require Import Byte String.
From stdpp Require Import base list sorting.

Local Open Scope Z_scope.

(** ** Machine integers *)

Definition wrap32 (x : Z) : Z := x mod 2 ^ 32.
Definition wrap64 (x : Z) : Z := x mod 2 ^ 64.

(** Conversion of an integer value to [int] (two's complement). *)
Definition to_int (x : Z) : Z := (x + 2 ^ 31) mod 2 ^ 32 - 2 ^ 31.

(** ** Enumerations of [mesh.h] *)

(** Modelled from the spec: [mesh.h] is not part of the sources; the
    enumeration of attribute roles is the one of the data model
    (Position, Normal, Color, TexCoord, PointSize, NextPosition,
    ScaleFactor), with the invalid value a default-constructed attribute
    carries. *)
Inductive VertexAttributeSemantic : Set :=
  | Position | Normal | Color | TexCoord | PointSize
  | NextPosition | ScaleFactor | InvalidSemantic.

(** Modelled from the spec: the numeric formats of [mesh.h] (Float1/2/3/4,
    UByte4), with the invalid value of a default-constructed attribute. *)
Inductive VertexAttributeFormat : Set :=
  | Float1 | Float2 | Float3 | Float4 | UByte4 | InvalidFormat.

(** Modelled from the spec: the topologies of [mesh.h]; the last value
    stands for whatever reaches the [default] branch of a [switch]. *)
Inductive PrimitiveGroupType : Set :=
  | TriList | TriStrip | TriFan | LineList | LineStrip
  | PointList | SpriteList | InvalidPrimitiveGroupType.

#[global] Instance VertexAttributeSemantic_eq_dec : EqDecision VertexAttributeSemantic.
Proof. solve_decision. Defined.
#[global] Instance VertexAttributeFormat_eq_dec : EqDecision VertexAttributeFormat.
Proof. solve_decision. Defined.
#[global] Instance PrimitiveGroupType_eq_dec : EqDecision PrimitiveGroupType.
Proof. solve_decision. Defined.

(** Modelled from the spec: [VertexAttribute::getFormatSize] of [mesh.h],
    the fixed byte size of each format (a float is [sizeof(float)] = 4
    bytes, UByte4 is four bytes, no size for the invalid format). *)
Definition getFormatSize (f : VertexAttributeFormat) : Z :=
  match f with
  | Float1 => 4
  | Float2 => 8
  | Float3 => 12
  | Float4 => 16
  | UByte4 => 4
  | InvalidFormat => 0
  end.

(** ** Vertex attributes and vertex descriptions *)

Record VertexAttribute : Set := mkVertexAttribute {
  semantic : VertexAttributeSemantic;
  format : VertexAttributeFormat;
  offset : Z
}.

(** Modelled from the spec: the default constructor [VertexAttribute()] of
    [mesh.h], the "absent" sentinel of the semantic lookup. *)
Definition VertexAttribute_default : VertexAttribute :=
  mkVertexAttribute InvalidSemantic InvalidFormat 0.

#[global] Instance VertexAttribute_inhabited : Inhabited VertexAttribute :=
  populate VertexAttribute_default.

(** Number of slots of [semanticMap] (the enumeration's [SemanticMax]). *)
Definition SemanticMax : nat := 7.

(** [static_cast<std::size_t>(semantic)].  The invalid semantic (-1)
    converts to the largest [size_t], far outside the array; any slot
    beyond [SemanticMax] stands for it. *)
Definition semantic_slot (s : VertexAttributeSemantic) : nat :=
  match s with
  | Position => 0
  | Normal => 1
  | Color => 2
  | TexCoord => 3
  | PointSize => 4
  | NextPosition => 5
  | ScaleFactor => 6
  | InvalidSemantic => SemanticMax
  end%nat.

Record VertexDescription : Set := mkVertexDescriptionRaw {
  stride : Z;
  attributes : list VertexAttribute;
  semanticMap : list VertexAttribute
}.

(** A freshly constructed [semanticMap]: every slot default-constructed. *)
Definition semanticMap_empty : list VertexAttribute :=
  replicate SemanticMax VertexAttribute_default.

(** [VertexDescription::buildSemanticMap]: later attributes overwrite
    earlier ones of the same semantic.  A store at the slot of the invalid
    semantic is outside the array in the source; here it stores nothing. *)
Definition buildSemanticMap (attrs : list VertexAttribute)
    (map : list VertexAttribute) : list VertexAttribute :=
  fold_left (fun m attr => <[semantic_slot (semantic attr) := attr]> m) attrs map.

(** [VertexDescription::clearSemanticMap]. *)
Definition clearSemanticMap (map : list VertexAttribute) : list VertexAttribute :=
  (fun _ => VertexAttribute_default) <$> map.

(** The constructor [VertexDescription(stride, attributes)]. *)
Definition mkVertexDescription (_stride : Z) (_attributes : list VertexAttribute)
    : VertexDescription :=
  mkVertexDescriptionRaw _stride _attributes
    (match _attributes with
     | [] => semanticMap_empty
     | _ => buildSemanticMap _attributes semanticMap_empty
     end).

(** Modelled from the spec: the default constructor of [VertexDescription]
    in [mesh.h] (stride 0, no attributes, every lookup absent). *)
Definition VertexDescription_default : VertexDescription :=
  mkVertexDescriptionRaw 0 [] semanticMap_empty.

(** Modelled from the spec: [VertexDescription::getAttribute] of [mesh.h],
    the O(1) lookup in [semanticMap]. *)
Definition getAttribute (desc : VertexDescription) (s : VertexAttributeSemantic)
    : VertexAttribute :=
  semanticMap desc !!! semantic_slot s.

(** [VertexDescription::validate]: the sum is an [unsigned int] sum. *)
Definition attribute_ok (_stride : Z) (attr : VertexAttribute) : bool :=
  negb ((negb (offset attr mod 4 =? 0))
        || (wrap32 (offset attr + getFormatSize (format attr)) >? _stride)).

Definition validate (desc : VertexDescription) : bool :=
  forallb (attribute_ok (stride desc)) (attributes desc).

(** [appendingAttributes]: the new stride is accumulated in an
    [unsigned int], one format size at a time. *)
Definition appendingAttributes (desc : VertexDescription)
    (new : list VertexAttribute) : VertexDescription :=
  let allAttributes := attributes desc ++ new in
  let newStride :=
    fold_left (fun s it => wrap32 (s + getFormatSize (format it))) new (stride desc) in
  mkVertexDescription newStride allAttributes.

(** ** Primitive groups *)

(** A vertex buffer: raw bytes. *)
Abbreviation buffer := (list byte).

Record PrimitiveGroup : Set := mkPrimitiveGroup {
  prim : PrimitiveGroupType;
  materialIndex : Z;
  indices : list Z;
  primOverride : PrimitiveGroupType;
  vertexOverride : option buffer;
  vertexCountOverride : Z;
  indicesOverride : list Z;
  vertexDescriptionOverride : VertexDescription
}.

(** Modelled from the spec: the default member initialisers of
    [PrimitiveGroup] in [mesh.h]: a plain batch has no override buffer
    (a null [vertexOverride]), no indices and a default description. *)
Definition PrimitiveGroup_default : PrimitiveGroup :=
  mkPrimitiveGroup InvalidPrimitiveGroupType 0 []
    InvalidPrimitiveGroupType None 0 [] VertexDescription_default.

(** [indices.size()], a [std::size_t]. *)
Definition size_of {A} (l : list A) : Z := Z.of_nat (length l).

(** [PrimitiveGroup::getPrimitiveCount]: computed in [std::size_t],
    returned as [unsigned int]. *)
Definition getPrimitiveCount (g : PrimitiveGroup) : Z :=
  match prim g with
  | TriList => wrap32 (size_of (indices g) / 3)
  | TriStrip | TriFan => wrap32 (wrap64 (size_of (indices g) - 2))
  | LineList => wrap32 (size_of (indices g) / 2)
  | LineStrip => wrap32 (wrap64 (size_of (indices g) - 2))
  | PointList | SpriteList => wrap32 (size_of (indices g))
  | InvalidPrimitiveGroupType => 0
  end.

(** ** Meshes *)

(** The groups of a mesh are owned by it (the destructor deletes each
    pointer once), so the vector of group pointers is a list of group
    values. *)
Record Mesh : Set := mkMesh {
  vertexDesc : VertexDescription;
  nVertices : Z;
  vertices : buffer;
  groups : list PrimitiveGroup;
  name : string
}.

Definition set_groups (m : Mesh) (gs : list PrimitiveGroup) : Mesh :=
  mkMesh (vertexDesc m) (nVertices m) (vertices m) gs (name m).

(** [Mesh::setVertexDescription]: the result and the mesh afterwards. *)
Definition setVertexDescription (m : Mesh) (desc : VertexDescription) : bool * Mesh :=
  if negb (validate desc) then (false, m)
  else (true, mkMesh desc (nVertices m) (vertices m) (groups m) (name m)).

Definition getVertexDescription (m : Mesh) : VertexDescription := vertexDesc m.

(** [Mesh::getGroup]: [None] is the null pointer. *)
Definition getGroup (m : Mesh) (index : Z) : option PrimitiveGroup :=
  if index >=? size_of (groups m) then None
  else groups m !! Z.to_nat index.

(** [Mesh::addGroup], the overload taking a group pointer: the new group
    count and the mesh. *)
Definition addGroup (m : Mesh) (group : PrimitiveGroup) : Z * Mesh :=
  let gs := groups m ++ [group] in
  (wrap32 (size_of gs), set_groups m gs).

Definition getGroupCount (m : Mesh) : Z := wrap32 (size_of (groups m)).

Definition clearGroups (m : Mesh) : Mesh := set_groups m [].

(** [indexMap[index]] on a [std::vector]: no result outside the vector. *)
Definition vector_at {A} (v : list A) (i : Z) : option A :=
  if (0 <=? i) && (i <? size_of v) then v !! Z.to_nat i else None.

Definition set_indices (g : PrimitiveGroup) (inds : list Z) : PrimitiveGroup :=
  mkPrimitiveGroup (prim g) (materialIndex g) inds (primOverride g)
    (vertexOverride g) (vertexCountOverride g) (indicesOverride g)
    (vertexDescriptionOverride g).

Definition set_materialIndex (g : PrimitiveGroup) (mat : Z) : PrimitiveGroup :=
  mkPrimitiveGroup (prim g) mat (indices g) (primOverride g)
    (vertexOverride g) (vertexCountOverride g) (indicesOverride g)
    (vertexDescriptionOverride g).

(** [Mesh::remapIndices]; [None] when some index lies outside [indexMap]. *)
Definition remapIndices_group (indexMap : list Z) (g : PrimitiveGroup)
    : option PrimitiveGroup :=
  inds ← mapM (vector_at indexMap) (indices g);
  Some (set_indices g inds).

Definition remapIndices (m : Mesh) (indexMap : list Z) : option Mesh :=
  gs ← mapM (remapIndices_group indexMap) (groups m);
  Some (set_groups m gs).

(** [Mesh::remapMaterials]. *)
Definition remapMaterials (m : Mesh) (materialMap : list Z) : option Mesh :=
  gs ← mapM (fun g => mat ← vector_at materialMap (materialIndex g);
                       Some (set_materialIndex g mat)) (groups m);
  Some (set_groups m gs).

(** [std::sort(first, last, comp)] is a library routine; the language
    standard fixes its result only up to the order of equivalent elements:
    the range afterwards is a permutation of the range before and is
    sorted with respect to [comp], that is, [comp b a] is false whenever
    [a] comes before [b]. *)
Definition sorted_wrt {A} (comp : A -> A -> bool) (l : list A) : Prop :=
  forall (i j : nat) (a b : A),
    (i < j)%nat -> l !! i = Some a -> l !! j = Some b -> comp b a = false.

Definition std_sort {A} (comp : A -> A -> bool) (l l' : list A) : Prop :=
  l' ≡ₚ l /\ sorted_wrt comp l'.

(** The comparison passed by [Mesh::aggregateByMaterial]. *)
Definition material_less (g0 g1 : PrimitiveGroup) : bool :=
  materialIndex g0 <? materialIndex g1.

(** [Mesh::aggregateByMaterial], as a relation between the mesh before and
    the mesh after the call. *)
Definition aggregateByMaterial (m m' : Mesh) : Prop :=
  std_sort material_less (groups m) (groups m')
  /\ m' = set_groups m (groups m').

(** [Mesh::getPrimitiveCount]: an [unsigned int] sum. *)
Definition Mesh_getPrimitiveCount (m : Mesh) : Z :=
  fold_left (fun count g => wrap32 (count + getPrimitiveCount g)) (groups m) 0.

(** ** Raw vertex memory *)

(** [n] bytes at byte offset [off] of a buffer; no result when the span
    is not inside the buffer (the source would read foreign memory). *)
Definition read_bytes (buf : buffer) (off n : Z) : option (list byte) :=
  if (0 <=? off) && (0 <=? n) && (off + n <=? Z.of_nat (length buf))
  then Some (take (Z.to_nat n) (drop (Z.to_nat off) buf))
  else None.

(** Overwriting the bytes at offset [off] with [bs], under the same
    proviso. *)
Definition write_bytes (buf : buffer) (off : Z) (bs : list byte) : option buffer :=
  if (0 <=? off) && (off + Z.of_nat (length bs) <=? Z.of_nat (length buf))
  then Some (take (Z.to_nat off) buf ++ bs
             ++ drop (Z.to_nat off + length bs) buf)
  else None.

(** A [float] in memory: its four bytes, in storage order. *)
Record float32 : Set := mkFloat32 { fb0 : byte; fb1 : byte; fb2 : byte; fb3 : byte }.

Definition float_bytes (f : float32) : list byte := [fb0 f; fb1 f; fb2 f; fb3 f].

Definition float_of_bytes (bs : list byte) : option float32 :=
  match bs with
  | [a; b; c; d] => Some (mkFloat32 a b c d)
  | _ => None
  end.

Definition read_float (buf : buffer) (off : Z) : option float32 :=
  bs ← read_bytes buf off 4;
  float_of_bytes bs.

Definition write_float (buf : buffer) (off : Z) (f : float32) : option buffer :=
  write_bytes buf off (float_bytes f).

(** [Eigen::Vector3f], and [Eigen::Map<Eigen::Vector3f>] over three
    consecutive floats. *)
Definition Vector3f : Set := float32 * float32 * float32.

Definition read_vec3 (buf : buffer) (off : Z) : option Vector3f :=
  x ← read_float buf off;
  y ← read_float buf (off + 4);
  z ← read_float buf (off + 8);
  Some (x, y, z).

Definition vec3_bytes (v : Vector3f) : list byte :=
  let '(x, y, z) := v in float_bytes x ++ float_bytes y ++ float_bytes z.

Definition write_vec3 (buf : buffer) (off : Z) (v : Vector3f) : option buffer :=
  write_bytes buf off (vec3_bytes v).

(** ** Floating-point arithmetic

    The arithmetic of [float] and [double] is that of the machine; the
    model takes it as an interface and never looks inside. *)
Class FloatArith : Type := {
  fadd : float32 -> float32 -> float32;
  fsub : float32 -> float32 -> float32;
  fmul : float32 -> float32 -> float32;
  fmin : float32 -> float32 -> float32;
  fmax : float32 -> float32 -> float32;
  float_highest : float32;
  float_lowest : float32;
  float_neg_half : float32;   (* the literal -0.5f *)
  float_half : float32;       (* the literal 0.5f *)
  double : Type;
  dadd : double -> double -> double;
  dsub : double -> double -> double;
  dmul : double -> double -> double;
  ddiv : double -> double -> double;
  dlt : double -> double -> bool;
  dle : double -> double -> bool;
  deq : double -> double -> bool;
  double_of_float : float32 -> double;
  double_zero : double;
  double_one : double;
  double_1e30 : double
}.

(** ** Results of code that may leave its buffers

    [Fault]: the source indexes a vector or a buffer outside its bounds.
    [Timeout]: the model ran out of loop iterations. *)
Inductive outcome (A : Type) : Type :=
  | Done (a : A)
  | Fault
  | Timeout.
Arguments Done {A} a.
Arguments Fault {A}.
Arguments Timeout {A}.

#[global] Instance outcome_ret : MRet outcome := fun A a => Done a.
#[global] Instance outcome_bind : MBind outcome := fun A B f m =>
  match m with
  | Done a => f a
  | Fault => Fault
  | Timeout => Timeout
  end.

Definition of_option {A} (o : option A) : outcome A :=
  match o with
  | Some a => Done a
  | None => Fault
  end.

(** ** The triangle walk of [Mesh::pick]

    The loop of [pick] is split into its iteration protocol ([walk]) and
    the test applied to each triangle (the [visit] argument), so that the
    protocol can be observed on its own. *)

(** "Get the indices for the next triangle": the new [index], [i0], [i1]
    and [i2].  All arithmetic is [index32] arithmetic. *)
Definition next_triangle (primType : PrimitiveGroupType) (inds : list Z)
    (nIndices index i0 i1 i2 : Z) : outcome (Z * Z * Z * Z) :=
  match primType with
  | TriList =>
      let index := wrap32 (index + 3) in
      if index <? nIndices then
        a ← of_option (vector_at inds (wrap32 (index + 0)));
        b ← of_option (vector_at inds (wrap32 (index + 1)));
        c ← of_option (vector_at inds (wrap32 (index + 2)));
        Done (index, a, b, c)
      else Done (index, i0, i1, i2)
  | TriStrip =>
      let index := wrap32 (index + 1) in
      if index <? nIndices then
        c ← of_option (vector_at inds index);
        Done (index, i1, i2, c)
      else Done (index, i0, i1, i2)
  | _ =>
      let index := wrap32 (index + 1) in
      if index <? nIndices then
        let index := wrap32 (index + 1) in
        c ← of_option (vector_at inds index);
        Done (index, i0, i2, c)
      else Done (index, i0, i1, i2)
  end.

(** The [do ... while (index < nIndices)] loop; [visit acc primitiveIndex
    (i0, i1, i2)] is the body up to "Get the indices for the next
    triangle". *)
Fixpoint walk_loop {A} (fuel : nat)
    (visit : A -> Z -> Z * Z * Z -> outcome A)
    (primType : PrimitiveGroupType) (inds : list Z)
    (nIndices index i0 i1 i2 primitiveIndex : Z) (acc : A) : outcome A :=
  match fuel with
  | O => Timeout
  | S fuel =>
      acc ← visit acc primitiveIndex (i0, i1, i2);
      '(index, i0, i1, i2) ← next_triangle primType inds nIndices index i0 i1 i2;
      let primitiveIndex := wrap32 (primitiveIndex + 1) in
      if index <? nIndices
      then walk_loop fuel visit primType inds nIndices index i0 i1 i2 primitiveIndex acc
      else Done acc
  end.

(** The guard of the walk: "only attempt to compute the intersection of
    the ray with triangle groups". *)
Definition walked (primType : PrimitiveGroupType) (nIndices : Z) : bool :=
  (bool_decide (primType = TriList) || bool_decide (primType = TriStrip)
   || bool_decide (primType = TriFan))
  && (nIndices >=? 3)
  && negb (bool_decide (primType = TriList) && negb (nIndices mod 3 =? 0)).

(** One group of the [for] loop of [pick]. *)
Definition walk {A} (fuel : nat) (visit : A -> Z -> Z * Z * Z -> outcome A)
    (g : PrimitiveGroup) (acc : A) : outcome A :=
  let primType := prim g in
  let nIndices := wrap32 (size_of (indices g)) in
  if walked primType nIndices then
    i0 ← of_option (vector_at (indices g) 0);
    i1 ← of_option (vector_at (indices g) 1);
    i2 ← of_option (vector_at (indices g) 2);
    walk_loop fuel visit primType (indices g) nIndices 0 i0 i1 i2 0 acc
  else Done acc.

(** Iterations allowed to the walk of a group: more than it can use. *)
Definition walk_fuel (g : PrimitiveGroup) : nat := S (length (indices g)).

(** The visitor that records every examined triangle. *)
Definition record_triangle (acc : list (Z * (Z * Z * Z))) (k : Z) (tri : Z * Z * Z)
    : outcome (list (Z * (Z * Z * Z))) :=
  Done (acc ++ [(k, tri)]).

(** The triangles the walk of a group examines, in order, each with its
    [primitiveIndex]. *)
Definition walk_trace (g : PrimitiveGroup) : outcome (list (Z * (Z * Z * Z))) :=
  walk (walk_fuel g) record_triangle g [].

Section Geometry.
Context `{FloatArith}.

(** *** [Eigen::Vector3d] arithmetic (componentwise, as Eigen defines it) *)

Definition Vector3d : Type := double * double * double.

Definition v3_cast (v : Vector3f) : Vector3d :=
  let '(x, y, z) := v in (double_of_float x, double_of_float y, double_of_float z).

Definition v3_add (a b : Vector3d) : Vector3d :=
  let '(ax, ay, az) := a in let '(bx, by_, bz) := b in
  (dadd ax bx, dadd ay by_, dadd az bz).

Definition v3_sub (a b : Vector3d) : Vector3d :=
  let '(ax, ay, az) := a in let '(bx, by_, bz) := b in
  (dsub ax bx, dsub ay by_, dsub az bz).

Definition v3_scale (a : Vector3d) (s : double) : Vector3d :=
  let '(ax, ay, az) := a in (dmul ax s, dmul ay s, dmul az s).

Definition v3_dot (a b : Vector3d) : double :=
  let '(ax, ay, az) := a in let '(bx, by_, bz) := b in
  dadd (dadd (dmul ax bx) (dmul ay by_)) (dmul az bz).

Definition v3_cross (a b : Vector3d) : Vector3d :=
  let '(ax, ay, az) := a in let '(bx, by_, bz) := b in
  (dsub (dmul ay bz) (dmul az by_),
   dsub (dmul az bx) (dmul ax bz),
   dsub (dmul ax by_) (dmul ay bx)).

(** *** [Mesh::pick] *)

Record PickResult : Type := mkPickResult {
  group : option PrimitiveGroup;
  primitiveIndex : Z;
  distance : double
}.

(** The position of vertex [i]: three floats at
    [vdata + i * vertexDesc.stride + posOffset]; the product is an
    [unsigned int] product, the sums are pointer arithmetic. *)
Definition pick_vertex (m : Mesh) (posOffset i : Z) : outcome Vector3d :=
  v ← of_option
        (read_vec3 (vertices m)
           (wrap32 (i * stride (vertexDesc m)) + posOffset));
  Done (v3_cast v).

(** The body of the loop for one triangle: the ray/triangle test.  The
    accumulator is [closest] and the object behind the [result] pointer
    ([None] for a null pointer). *)
Definition pick_triangle (m : Mesh) (posOffset : Z)
    (rayOrigin rayDirection : Vector3d) (g : PrimitiveGroup)
    (acc : double * option PickResult) (primitiveIndex_ : Z)
    (tri : Z * Z * Z) : outcome (double * option PickResult) :=
  let '(closest, result) := acc in
  let '(i0, i1, i2) := tri in
  v0 ← pick_vertex m posOffset i0;
  v1 ← pick_vertex m posOffset i1;
  v2 ← pick_vertex m posOffset i2;
  let e0 := v3_sub v1 v0 in
  let e1 := v3_sub v2 v0 in
  let n := v3_cross e0 e1 in
  let c := v3_dot n rayDirection in
  if negb (deq c double_zero) then
    let t := ddiv (v3_dot n (v3_sub v0 rayOrigin)) c in
    if dlt t closest && dlt double_zero t then
      let m00 := v3_dot e0 e0 in
      let m01 := v3_dot e0 e1 in
      let m10 := v3_dot e1 e0 in
      let m11 := v3_dot e1 e1 in
      let det := dsub (dmul m00 m11) (dmul m01 m10) in
      if negb (deq det double_zero) then
        let p := v3_add rayOrigin (v3_scale rayDirection t) in
        let q := v3_sub p v0 in
        let q0 := v3_dot e0 q in
        let q1 := v3_dot e1 q in
        let d := ddiv double_one det in
        let s0 := dmul (dsub (dmul m11 q0) (dmul m01 q1)) d in
        let s1 := dmul (dsub (dmul m00 q1) (dmul m10 q0)) d in
        if dle double_zero s0 && dle double_zero s1 && dle (dadd s0 s1) double_one
        then Done (t, (fun _ => mkPickResult (Some g) primitiveIndex_ t) <$> result)
        else Done acc
      else Done acc
    else Done acc
  else Done acc.

(** The [for] loop over the groups. *)
Fixpoint pick_groups (m : Mesh) (posOffset : Z) (rayOrigin rayDirection : Vector3d)
    (gs : list PrimitiveGroup) (acc : double * option PickResult)
    : outcome (double * option PickResult) :=
  match gs with
  | [] => Done acc
  | g :: gs =>
      acc ← walk (walk_fuel g) (pick_triangle m posOffset rayOrigin rayDirection g) g acc;
      pick_groups m posOffset rayOrigin rayDirection gs acc
  end.

(** [Mesh::pick(rayOrigin, rayDirection, result)]: the returned flag and
    the object behind [result] afterwards. *)
Definition pick (m : Mesh) (rayOrigin rayDirection : Vector3d)
    (result : option PickResult) : outcome (bool * option PickResult) :=
  let maxDistance := double_1e30 in
  let closest := maxDistance in
  if negb (bool_decide (semantic (getAttribute (vertexDesc m) Position) = Position))
     || negb (bool_decide (format (getAttribute (vertexDesc m) Position) = Float3))
  then Done (false, result)
  else
    let posOffset := offset (getAttribute (vertexDesc m) Position) in
    '(closest, result) ← pick_groups m posOffset rayOrigin rayDirection
                            (groups m) (closest, result);
    Done (negb (deq closest maxDistance), result).

(** [Mesh::pick(rayOrigin, rayDirection, distance)]: the flag and the
    value of [distance] afterwards. *)
Definition pick_distance (m : Mesh) (rayOrigin rayDirection : Vector3d)
    (distance_ : double) : outcome (bool * double) :=
  '(hit, result) ← pick m rayOrigin rayDirection
                      (Some (mkPickResult None 0 double_zero));
  Done (hit, if (hit : bool) then from_option distance distance_ result else distance_).

(** *** [Mesh::getBoundingBox] *)

(** [Eigen::AlignedBox<float, 3>]: its two corners.  A default-constructed
    box is empty: the lower corner at the highest float, the upper corner
    at the lowest. *)
Record AlignedBox : Set := mkAlignedBox { box_min : Vector3f; box_max : Vector3f }.

Definition AlignedBox_empty : AlignedBox :=
  mkAlignedBox (float_highest, float_highest, float_highest)
               (float_lowest, float_lowest, float_lowest).

Definition vf_map2 (f : float32 -> float32 -> float32) (a b : Vector3f) : Vector3f :=
  let '(ax, ay, az) := a in let '(bx, by_, bz) := b in (f ax bx, f ay by_, f az bz).

Definition box_extend (b c : AlignedBox) : AlignedBox :=
  mkAlignedBox (vf_map2 fmin (box_min b) (box_min c))
               (vf_map2 fmax (box_max b) (box_max c)).

Definition box_extend_point (b : AlignedBox) (p : Vector3f) : AlignedBox :=
  mkAlignedBox (vf_map2 fmin (box_min b) p) (vf_map2 fmax (box_max b) p).

(** The two loops over the vertices; [vdata] is the offset of the pointer
    of the same name from the start of the buffer. *)
Fixpoint bbox_sprites (n : nat) (buf : buffer) (vdata stride_ pointSizeOffset : Z)
    (bbox : AlignedBox) : option AlignedBox :=
  match n with
  | O => Some bbox
  | S n =>
      center ← read_vec3 buf vdata;
      pointSize ← read_float buf (vdata + pointSizeOffset);
      let offsetVec := (pointSize, pointSize, pointSize) in
      let pointbox := mkAlignedBox (vf_map2 fsub center offsetVec)
                                   (vf_map2 fadd center offsetVec) in
      bbox_sprites n buf (vdata + stride_) stride_ pointSizeOffset
        (box_extend bbox pointbox)
  end.

Fixpoint bbox_points (n : nat) (buf : buffer) (vdata stride_ : Z)
    (bbox : AlignedBox) : option AlignedBox :=
  match n with
  | O => Some bbox
  | S n =>
      p ← read_vec3 buf vdata;
      bbox_points n buf (vdata + stride_) stride_ (box_extend_point bbox p)
  end.

Definition getBoundingBox (m : Mesh) : option AlignedBox :=
  let bbox := AlignedBox_empty in
  let desc := vertexDesc m in
  if negb (bool_decide (format (getAttribute desc Position) = Float3))
  then Some bbox
  else
    let vdata := offset (getAttribute desc Position) in
    if bool_decide (format (getAttribute desc PointSize) = Float1) then
      let pointSizeOffset :=
        to_int (to_int (offset (getAttribute desc PointSize))
                - to_int (offset (getAttribute desc Position))) in
      bbox_sprites (Z.to_nat (nVertices m)) (vertices m) vdata (stride desc)
        pointSizeOffset bbox
    else
      bbox_points (Z.to_nat (nVertices m)) (vertices m) vdata (stride desc) bbox.

(** *** [Mesh::transform] *)

Definition vf_scale (a : Vector3f) (s : float32) : Vector3f :=
  let '(ax, ay, az) := a in (fmul ax s, fmul ay s, fmul az s).

(** [(v + translation) * scale]. *)
Definition transform_point (translation : Vector3f) (scale : float32)
    (v : Vector3f) : Vector3f :=
  vf_scale (vf_map2 fadd v translation) scale.

(** "Scale and translate the vertex positions": [n] iterations left,
    [vdata] the offset of the pointer from the start of the buffer. *)
Fixpoint transform_positions (n : nat) (buf : buffer) (vdata stride_ : Z)
    (translation : Vector3f) (scale : float32) : option buffer :=
  match n with
  | O => Some buf
  | S n =>
      v ← read_vec3 buf vdata;
      buf ← write_vec3 buf vdata (transform_point translation scale v);
      transform_positions n buf (vdata + stride_) stride_ translation scale
  end.

(** The inner loop over the vertices of one override buffer. *)
Fixpoint transform_override (n : nat) (buf : buffer)
    (vdata stride_ positionOffset nextPositionOffset : Z)
    (translation : Vector3f) (scale : float32) : option buffer :=
  match n with
  | O => Some buf
  | S n =>
      v ← read_vec3 buf (vdata + positionOffset);
      buf ← write_vec3 buf (vdata + positionOffset)
              (transform_point translation scale v);
      v ← read_vec3 buf (vdata + nextPositionOffset);
      buf ← write_vec3 buf (vdata + nextPositionOffset)
              (transform_point translation scale v);
      transform_override n buf (vdata + stride_) stride_
        positionOffset nextPositionOffset translation scale
  end.

Definition set_vertexOverride (g : PrimitiveGroup) (buf : option buffer)
    : PrimitiveGroup :=
  mkPrimitiveGroup (prim g) (materialIndex g) (indices g) (primOverride g)
    buf (vertexCountOverride g) (indicesOverride g)
    (vertexDescriptionOverride g).

(** "Scale and translate the overriden vertex values", for one group. *)
Definition transform_group (translation : Vector3f) (scale : float32)
    (g : PrimitiveGroup) : option PrimitiveGroup :=
  match vertexOverride g with
  | None => Some g
  | Some vdata =>
      let desc := vertexDescriptionOverride g in
      let positionOffset := to_int (offset (getAttribute desc Position)) in
      let nextPositionOffset := to_int (offset (getAttribute desc NextPosition)) in
      buf ← transform_override (Z.to_nat (vertexCountOverride g)) vdata 0
              (stride desc) positionOffset nextPositionOffset translation scale;
      Some (set_vertexOverride g (Some buf))
  end.

(** "Point sizes need to be scaled as well". *)
Fixpoint transform_pointsizes (n : nat) (buf : buffer) (vdata stride_ : Z)
    (scale : float32) : option buffer :=
  match n with
  | O => Some buf
  | S n =>
      s ← read_float buf vdata;
      buf ← write_float buf vdata (fmul s scale);
      transform_pointsizes n buf (vdata + stride_) stride_ scale
  end.

(** [Mesh::transform]; [None] when a read or write leaves its buffer.
    The loop over the groups runs over [getGroup(0)] ..
    [getGroup(getGroupCount() - 1)], that is, over every group. *)
Definition transform (m : Mesh) (translation : Vector3f) (scale : float32)
    : option Mesh :=
  let desc := vertexDesc m in
  if negb (bool_decide (format (getAttribute desc Position) = Float3))
  then Some m
  else
    vs ← transform_positions (Z.to_nat (nVertices m)) (vertices m)
           (offset (getAttribute desc Position)) (stride desc) translation scale;
    gs ← mapM (transform_group translation scale) (groups m);
    vs ← (if bool_decide (format (getAttribute desc PointSize) = Float1)
          then transform_pointsizes (Z.to_nat (nVertices m)) vs
                 (offset (getAttribute desc PointSize)) (stride desc) scale
          else Some vs);
    Some (mkMesh desc (nVertices m) vs gs (name m)).

(** *** [Mesh::createLinePrimitiveGroup] *)

(** One of the four vertices of a segment: the record at [origLoc], the
    position found in the record at [otherLoc], and the scale factor,
    stored at [ptr] in [data]. *)
Definition emit_line_vertex (vs : buffer)
    (originalStride positionOffset positionSize : Z)
    (origLoc otherLoc : Z) (scale : float32) (ptr : Z) (data : buffer)
    : option buffer :=
  rec ← read_bytes vs origLoc originalStride;
  data ← write_bytes data ptr rec;
  pos ← read_bytes vs (otherLoc + positionOffset) positionSize;
  data ← write_bytes data (ptr + originalStride) pos;
  write_float data (ptr + to_int (originalStride + positionSize)) scale.

(** The body of the loop over the segments, for segment [i]: four
    vertices stored from [ptr] on and six indices pushed.  The result is
    the write pointer, the array and the index vector afterwards. *)
Definition line_segment (vs : buffer) (lineStrip : bool) (inds : list Z)
    (originalStride positionOffset positionSize stride_ : Z)
    (i ptr : Z) (data : buffer) (newIndices : list Z)
    : option (Z * buffer * list Z) :=
  thisIndex ← to_int <$> vector_at inds (if lineStrip then i else to_int (i * 2));
  nextIndex ← to_int <$> vector_at inds
                 (if lineStrip then to_int (i + 1) else to_int (to_int (i * 2) + 1));
  let origThisVertLoc := to_int (thisIndex * originalStride) in
  let origNextVertLoc := to_int (nextIndex * originalStride) in
  data ← emit_line_vertex vs originalStride positionOffset positionSize
           origThisVertLoc origNextVertLoc float_neg_half ptr data;
  let ptr := ptr + stride_ in
  data ← emit_line_vertex vs originalStride positionOffset positionSize
           origThisVertLoc origNextVertLoc float_half ptr data;
  let ptr := ptr + stride_ in
  data ← emit_line_vertex vs originalStride positionOffset positionSize
           origNextVertLoc origThisVertLoc float_neg_half ptr data;
  let ptr := ptr + stride_ in
  data ← emit_line_vertex vs originalStride positionOffset positionSize
           origNextVertLoc origThisVertLoc float_half ptr data;
  let ptr := ptr + stride_ in
  let newIndex := wrap32 (to_int (4 * i)) in
  let newIndices :=
    newIndices ++ [newIndex; wrap32 (newIndex + 1); wrap32 (newIndex + 2);
                   wrap32 (newIndex + 2); wrap32 (newIndex + 3); newIndex] in
  Some (ptr, data, newIndices).

(** The loop over the segments: [n] iterations left, [i] the loop
    counter, [ptr] the offset of the write pointer into [data]. *)
Fixpoint line_loop (n : nat) (vs : buffer) (lineStrip : bool) (inds : list Z)
    (originalStride positionOffset positionSize stride_ : Z)
    (i ptr : Z) (data : buffer) (newIndices : list Z)
    : option (buffer * list Z) :=
  match n with
  | O => Some (data, newIndices)
  | S n =>
      '(ptr, data, newIndices) ←
        line_segment vs lineStrip inds originalStride positionOffset positionSize
          stride_ i ptr data newIndices;
      line_loop n vs lineStrip inds originalStride positionOffset positionSize
        stride_ (to_int (i + 1)) ptr data newIndices
  end.

(** The array [newAttributes] of [createLinePrimitiveGroup]: the two
    fields put behind the original record.  The offsets are [int] values
    stored into [unsigned int] members. *)
Definition newAttributes (desc : VertexDescription) : list VertexAttribute :=
  let positionAttributes := getAttribute desc Position in
  let positionSize := to_int (getFormatSize (format positionAttributes)) in
  let originalStride := to_int (stride desc) in
  [ mkVertexAttribute NextPosition (format positionAttributes)
      (wrap32 originalStride);
    mkVertexAttribute ScaleFactor Float1
      (wrap32 (to_int (originalStride + positionSize))) ].

(** [Mesh::createLinePrimitiveGroup].  [int] arithmetic that overflows is
    undefined in the source; the model wraps it.  The array [new] of a
    negative size throws, and a read outside the vertices or the indices
    has no result: [None] in both cases.  The fresh array is taken to be
    zero-filled.  The locals the routine never reads
    ([transformedVertCount], [lineIndex]) and the [reserve] of the index
    vector are left out. *)
Definition createLinePrimitiveGroup (m : Mesh) (lineStrip : bool) (inds : list Z)
    : option PrimitiveGroup :=
  let positionAttributes := getAttribute (vertexDesc m) Position in
  let positionSize := to_int (getFormatSize (format positionAttributes)) in
  let positionOffset := to_int (offset positionAttributes) in
  let originalStride := to_int (stride (vertexDesc m)) in
  let stride_ := to_int (to_int (originalStride + positionSize) + 4) in
  let lineCount :=
    to_int (if lineStrip then wrap64 (size_of inds - 1) else size_of inds / 2) in
  let lineVertexCount := to_int (4 * lineCount) in
  let dataSize := to_int (stride_ * lineVertexCount) in
  if dataSize <? 0 then None
  else
    let data := replicate (Z.to_nat dataSize) "000"%byte in
    '(data, newIndices) ←
      line_loop (Z.to_nat lineCount) (vertices m) lineStrip inds
        originalStride positionOffset positionSize stride_ 0 0 data [];
    Some (mkPrimitiveGroup
            (prim PrimitiveGroup_default)
            (materialIndex PrimitiveGroup_default)
            (indices PrimitiveGroup_default)
            TriList
            (Some data)
            (wrap32 lineVertexCount)
            newIndices
            (appendingAttributes (vertexDesc m) (newAttributes (vertexDesc m)))).

(** [Mesh::addGroup(prim, materialIndex, indices)]: the new group count
    and the mesh. *)
Definition addGroup_indices (m : Mesh) (prim_ : PrimitiveGroupType)
    (materialIndex_ : Z) (inds : list Z) : option (Z * Mesh) :=
  g ← (if bool_decide (prim_ = LineStrip) || bool_decide (prim_ = LineList)
       then createLinePrimitiveGroup m (bool_decide (prim_ = LineStrip)) inds
       else Some (mkPrimitiveGroup
                    (prim PrimitiveGroup_default)
                    (materialIndex PrimitiveGroup_default)
                    (indices PrimitiveGroup_default)
                    prim_
                    (vertexOverride PrimitiveGroup_default)
                    (vertexCountOverride PrimitiveGroup_default)
                    (indicesOverride PrimitiveGroup_default)
                    (vertexDescriptionOverride PrimitiveGroup_default)));
  Some (addGroup m
          (mkPrimitiveGroup prim_ materialIndex_ inds (primOverride g)
             (vertexOverride g) (vertexCountOverride g) (indicesOverride g)
             (vertexDescriptionOverride g))).

End Geometry.

(** * Vocabulary of the properties *)

(** What [validate] refuses: a field off the 4-byte grid, or one whose
    end, as the [unsigned int] sum of its offset and its format size,
    lies beyond the stride. *)
Definition attribute_refused (_stride : Z) (attr : VertexAttribute) : Prop :=
  offset attr mod 4 <> 0
  \/ wrap32 (offset attr + getFormatSize (format attr)) > _stride.

Definition layout_refused (desc : VertexDescription) : Prop :=
  Exists (attribute_refused (stride desc)) (attributes desc).

(** A field that fails validation as the specification words it: its
    offset is not a multiple of 4, or its offset plus the size of its
    format exceeds the stride (the sum of the two numbers, not the
    32-bit sum of the code). *)
Definition attribute_invalid (_stride : Z) (attr : VertexAttribute) : Prop :=
  offset attr mod 4 <> 0
  \/ offset attr + getFormatSize (format attr) > _stride.

Definition layout_invalid (desc : VertexDescription) : Prop :=
  Exists (attribute_invalid (stride desc)) (attributes desc).

(** What [remapIndices] does to one group and what it leaves alone. *)
Definition remapped_group (indexMap : list Z) (g g' : PrimitiveGroup) : Prop :=
  Forall2 (fun i i' => indexMap !! Z.to_nat i = Some i') (indices g) (indices g')
  /\ prim g' = prim g
  /\ materialIndex g' = materialIndex g
  /\ primOverride g' = primOverride g
  /\ vertexOverride g' = vertexOverride g
  /\ vertexCountOverride g' = vertexCountOverride g
  /\ indicesOverride g' = indicesOverride g
  /\ vertexDescriptionOverride g' = vertexDescriptionOverride g.

(** Every index in use is a position of the map. *)
Definition covers (indexMap : list Z) (g : PrimitiveGroup) : Prop :=
  Forall (fun i => 0 <= i < Z.of_nat (length indexMap)) (indices g).

(** Batches of equal material keep their relative order: for every
    material, the batches of that material are the same sequence before
    and after. *)
Definition keeps_ties (l l' : list PrimitiveGroup) : Prop :=
  forall k : Z,
    filter (fun g => materialIndex g = k) l' = filter (fun g => materialIndex g = k) l.

(** Ascending material order. *)
Definition ascending (l : list PrimitiveGroup) : Prop :=
  forall (i j : nat) (gi gj : PrimitiveGroup),
    (i < j)%nat -> l !! i = Some gi -> l !! j = Some gj ->
    materialIndex gi <= materialIndex gj.

(** The order on groups that [material_less] refines. *)
Definition material_le (g0 g1 : PrimitiveGroup) : Prop :=
  materialIndex g0 <= materialIndex g1.

#[global] Instance material_le_dec (g0 g1 : PrimitiveGroup) : Decision (material_le g0 g1).
Proof. unfold material_le. apply _. Defined.

(** The lookup table of a layout is the one its constructor built from
    its attributes. *)
Definition map_built (desc : VertexDescription) : Prop :=
  semanticMap desc = buildSemanticMap (attributes desc) semanticMap_empty.

(** The layout has a current Position field of 3-float format. *)
Definition has_float3_position (desc : VertexDescription) : Prop :=
  semantic (getAttribute desc Position) = Position
  /\ format (getAttribute desc Position) = Float3.

(** The field a lookup of [s] answers with, read off the attribute list:
    the last attribute of that semantic. *)
Definition current_field (attrs : list VertexAttribute) (s : VertexAttributeSemantic)
    : option VertexAttribute :=
  last (filter (fun a => semantic a = s) attrs).

(** Fields laid out one behind the other from byte [base] on. *)
Fixpoint packed_from (base : Z) (l : list VertexAttribute) : Prop :=
  match l with
  | [] => True
  | a :: l => offset a = base /\ packed_from (base + getFormatSize (format a)) l
  end.

(** The sum of the byte sizes of the formats of some fields. *)
Definition format_sizes (l : list VertexAttribute) : Z :=
  foldr (fun a acc => getFormatSize (format a) + acc) 0 l.

(** *** Fields as bytes *)

(** Twelve bytes as three floats. *)
Definition vec3_of_bytes (bs : list byte) : option Vector3f :=
  if bool_decide (length bs = 12%nat) then
    x ← float_of_bytes (take 4 bs);
    y ← float_of_bytes (take 4 (drop 4 bs));
    z ← float_of_bytes (take 4 (drop 8 bs));
    Some (x, y, z)
  else None.

(** A function on floats, or on vectors, as a function on their bytes. *)
Definition on_float (g : float32 -> float32) (bs : list byte) : list byte :=
  match float_of_bytes bs with
  | Some x => float_bytes (g x)
  | None => bs
  end.

Definition on_vec3 (g : Vector3f -> Vector3f) (bs : list byte) : list byte :=
  match vec3_of_bytes bs with
  | Some v => vec3_bytes (g v)
  | None => bs
  end.

(** The common shape of the loops of [transform] over one field: at
    every record, [len] bytes at [vdata] are replaced by their image
    under [f]. *)
Fixpoint field_loop (n : nat) (buf : buffer) (vdata stride_ len : Z)
    (f : list byte -> list byte) : option buffer :=
  match n with
  | O => Some buf
  | S n =>
      bs ← read_bytes buf vdata len;
      buf ← write_bytes buf vdata (f bs);
      field_loop n buf (vdata + stride_) stride_ len f
  end.

Section TransformVocabulary.
Context `{FloatArith}.

(** The buffer of the mesh holds [nVertices] records of the stride of
    its layout; the three floats of Position lie inside the record, and
    so does a one-float PointSize, clear of Position. *)
Definition vertices_wf (m : Mesh) : Prop :=
  let desc := vertexDesc m in
  let pos := offset (getAttribute desc Position) in
  let ps := offset (getAttribute desc PointSize) in
  0 <= nVertices m
  /\ Z.of_nat (length (vertices m)) = nVertices m * stride desc
  /\ 0 <= pos /\ pos + 12 <= stride desc
  /\ (format (getAttribute desc PointSize) = Float1 ->
      0 <= ps /\ ps + 4 <= stride desc /\ (ps + 4 <= pos \/ pos + 12 <= ps)).

(** The same for the override buffer of a group, with its two 3-float
    fields Position and NextPosition. *)
Definition override_wf (g : PrimitiveGroup) : Prop :=
  match vertexOverride g with
  | None => True
  | Some buf =>
      let desc := vertexDescriptionOverride g in
      let po := offset (getAttribute desc Position) in
      let npo := offset (getAttribute desc NextPosition) in
      0 <= vertexCountOverride g
      /\ Z.of_nat (length buf) = vertexCountOverride g * stride desc
      /\ stride desc < 2 ^ 31
      /\ 0 <= po /\ po + 12 <= stride desc
      /\ 0 <= npo /\ npo + 12 <= stride desc
      /\ (po + 12 <= npo \/ npo + 12 <= po)
  end.

(** What [transform] does to a group: nothing but the positions and next
    positions in its override buffer change, and these are transformed. *)
Definition transformed_group (translation : Vector3f) (scale : float32)
    (g g' : PrimitiveGroup) : Prop :=
  prim g' = prim g
  /\ materialIndex g' = materialIndex g
  /\ indices g' = indices g
  /\ primOverride g' = primOverride g
  /\ vertexCountOverride g' = vertexCountOverride g
  /\ indicesOverride g' = indicesOverride g
  /\ vertexDescriptionOverride g' = vertexDescriptionOverride g
  /\ match vertexOverride g with
     | None => vertexOverride g' = None
     | Some buf =>
         let desc := vertexDescriptionOverride g in
         let po := offset (getAttribute desc Position) in
         let npo := offset (getAttribute desc NextPosition) in
         exists buf',
           vertexOverride g' = Some buf'
           /\ length buf' = length buf
           /\ forall j, 0 <= j < vertexCountOverride g ->
                exists v w,
                  read_vec3 buf (j * stride desc + po) = Some v
                  /\ read_vec3 buf (j * stride desc + npo) = Some w
                  /\ read_vec3 buf' (j * stride desc + po)
                     = Some (transform_point translation scale v)
                  /\ read_vec3 buf' (j * stride desc + npo)
                     = Some (transform_point translation scale w)
     end.

End TransformVocabulary.

Section LineVocabulary.
Context `{FloatArith}.

(** The two ends of segment [i]: consecutive indices of a strip, the
    [i]-th pair of a list. *)
Definition segment_ends (lineStrip : bool) (inds : list Z) (i : Z) : option (Z * Z) :=
  a ← vector_at inds (if lineStrip then i else 2 * i);
  b ← vector_at inds (if lineStrip then i + 1 else 2 * i + 1);
  Some (a, b).

(** An output vertex as line expansion is to produce it: the whole
    record of vertex [this], then the position of vertex [other], then
    the scale factor. *)
Definition line_vertex (m : Mesh) (this other : Z) (scale : float32)
    : option (list byte) :=
  let desc := vertexDesc m in
  let pa := getAttribute desc Position in
  rec ← read_bytes (vertices m) (this * stride desc) (stride desc);
  pos ← read_bytes (vertices m) (other * stride desc + offset pa)
          (getFormatSize (format pa));
  Some (rec ++ pos ++ float_bytes scale).

(** The six indices of the quad of segment [j]: the triangles (0, 1, 2)
    and (2, 3, 0) over the four vertices from [4 * j] on. *)
Definition quad_indices (j : Z) : list Z :=
  [4 * j; 4 * j + 1; 4 * j + 2; 4 * j + 2; 4 * j + 3; 4 * j].

(** What line expansion may be asked: a mesh whose buffer holds its
    [nVertices] records with the position inside the record, indices that
    name vertices of the mesh, at least one index in a strip, and sizes
    that fit the [int] variables of the routine. *)
Definition line_input_wf (m : Mesh) (lineStrip : bool) (inds : list Z) : Prop :=
  let desc := vertexDesc m in
  let pa := getAttribute desc Position in
  let n := Z.of_nat (length inds) in
  let lineCount := if lineStrip then n - 1 else n / 2 in
  0 <= stride desc
  /\ 0 <= offset pa /\ offset pa + getFormatSize (format pa) <= stride desc
  /\ 0 <= nVertices m < 2 ^ 31
  /\ Z.of_nat (length (vertices m)) = nVertices m * stride desc
  /\ nVertices m * stride desc < 2 ^ 31
  /\ Forall (fun idx => 0 <= idx < nVertices m) inds
  /\ (lineStrip = true -> 1 <= n)
  /\ stride desc + getFormatSize (format pa) + 4 < 2 ^ 31
  /\ 4 * lineCount * (stride desc + getFormatSize (format pa) + 4) < 2 ^ 31.

End LineVocabulary.

(** ** An integer stand-in for the arithmetic interface

    For running the model on concrete data: a float is read as the
    little-endian number its four bytes spell, and arithmetic is integer
    arithmetic (modulo 2^32 on floats). *)
Definition float_to_Z (f : float32) : Z :=
  Z.of_N (Byte.to_N (fb0 f)) + 256 * (Z.of_N (Byte.to_N (fb1 f))
  + 256 * (Z.of_N (Byte.to_N (fb2 f)) + 256 * Z.of_N (Byte.to_N (fb3 f)))).

Definition byte_of_Z (z : Z) : byte :=
  default "000"%byte (Byte.of_N (Z.to_N (z mod 256))).

Definition float_of_Z (z : Z) : float32 :=
  mkFloat32 (byte_of_Z z) (byte_of_Z (z / 256))
            (byte_of_Z (z / 65536)) (byte_of_Z (z / 16777216)).

Definition int_arith : FloatArith := {|
  fadd a b := float_of_Z (float_to_Z a + float_to_Z b);
  fsub a b := float_of_Z (float_to_Z a - float_to_Z b);
  fmul a b := float_of_Z (float_to_Z a * float_to_Z b);
  fmin a b := float_of_Z (Z.min (float_to_Z a) (float_to_Z b));
  fmax a b := float_of_Z (Z.max (float_to_Z a) (float_to_Z b));
  float_highest := float_of_Z (2 ^ 32 - 1);
  float_lowest := float_of_Z 0;
  float_neg_half := float_of_Z 3204448256;
  float_half := float_of_Z 1056964608;
  double := Z;
  dadd := Z.add;
  dsub := Z.sub;
  dmul := Z.mul;
  ddiv := Z.div;
  dlt := Z.ltb;
  dle := Z.leb;
  deq := Z.eqb;
  double_of_float := float_to_Z;
  double_zero := 0;
  double_one := 1;
  double_1e30 := 10 ^ 30
|}.

(** A group of topology [p] over the index sequence [inds], for running
    the model. *)
Definition plain_group (p : PrimitiveGroupType) (inds : list Z) : PrimitiveGroup :=
  mkPrimitiveGroup p 0 inds p None 0 [] VertexDescription_default.

(** * Further vocabulary *)

(** What [remapMaterials] does to one group and what it leaves alone. *)
Definition rematerialed_group (materialMap : list Z) (g g' : PrimitiveGroup) : Prop :=
  materialMap !! Z.to_nat (materialIndex g) = Some (materialIndex g')
  /\ prim g' = prim g
  /\ indices g' = indices g
  /\ primOverride g' = primOverride g
  /\ vertexOverride g' = vertexOverride g
  /\ vertexCountOverride g' = vertexCountOverride g
  /\ indicesOverride g' = indicesOverride g
  /\ vertexDescriptionOverride g' = vertexDescriptionOverride g.

(** The material of the group is a position of the map. *)
Definition material_covered (materialMap : list Z) (g : PrimitiveGroup) : Prop :=
  0 <= materialIndex g < Z.of_nat (length materialMap).

(** The plain sum of the primitive counts of some groups. *)
Definition count_sum (gs : list PrimitiveGroup) : Z :=
  foldr (fun g acc => getPrimitiveCount g + acc) 0 gs.

(** ** The comparison operators

    The operators compare [std::tie]s, that is, tuples of references,
    component by component; enumerators compare by their values.  The
    values are fixed in [mesh.h]; the model takes them as the two
    functions [sv] (semantics) and [fv] (formats). *)
Section Comparison.
Variable sv : VertexAttributeSemantic -> Z.
Variable fv : VertexAttributeFormat -> Z.

(** [operator==(const VertexAttribute&, const VertexAttribute&)]. *)
Definition VertexAttribute_eqb (a b : VertexAttribute) : bool :=
  (sv (semantic a) =? sv (semantic b))
  && (fv (format a) =? fv (format b))
  && (offset a =? offset b).

(** [operator<(const VertexAttribute&, const VertexAttribute&)]: the
    lexicographic comparison of the three components. *)
Definition VertexAttribute_ltb (a b : VertexAttribute) : bool :=
  if sv (semantic a) <? sv (semantic b) then true
  else if sv (semantic b) <? sv (semantic a) then false
  else if fv (format a) <? fv (format b) then true
  else if fv (format b) <? fv (format a) then false
  else offset a <? offset b.

(** [operator==] of [std::vector]: equal sizes and equal elements. *)
Fixpoint vector_eqb {A} (eqb : A -> A -> bool) (l1 l2 : list A) : bool :=
  match l1, l2 with
  | [], [] => true
  | x :: l1, y :: l2 => eqb x y && vector_eqb eqb l1 l2
  | _, _ => false
  end.

(** [operator<] of [std::vector]: [std::lexicographical_compare]. *)
Fixpoint lexicographical_compare {A} (ltb : A -> A -> bool) (l1 l2 : list A) : bool :=
  match l1, l2 with
  | _, [] => false
  | [], _ :: _ => true
  | x :: l1, y :: l2 =>
      if ltb x y then true
      else if ltb y x then false
      else lexicographical_compare ltb l1 l2
  end.

(** [operator==(const VertexDescription&, const VertexDescription&)]. *)
Definition VertexDescription_eqb (a b : VertexDescription) : bool :=
  (stride a =? stride b)
  && vector_eqb VertexAttribute_eqb (attributes a) (attributes b).

(** [operator<(const VertexDescription&, const VertexDescription&)]. *)
Definition VertexDescription_ltb (a b : VertexDescription) : bool :=
  if stride a <? stride b then true
  else if stride b <? stride a then false
  else lexicographical_compare VertexAttribute_ltb (attributes a) (attributes b).

End Comparison.

(** Values for the enumerators, for running the comparisons. *)
Definition sv_example (s : VertexAttributeSemantic) : Z :=
  match s with
  | InvalidSemantic => -1
  | _ => Z.of_nat (semantic_slot s)
  end.

Definition fv_example (f : VertexAttributeFormat) : Z :=
  match f with
  | Float1 => 0 | Float2 => 1 | Float3 => 2 | Float4 => 3 | UByte4 => 4
  | InvalidFormat => -1
  end.

(** The triangles of a triangle list, numbered from [k]: consecutive
    triples of indices. *)
Fixpoint triples (k : Z) (l : list Z) : list (Z * (Z * Z * Z)) :=
  match l with
  | a :: b :: c :: l => (k, (a, b, c)) :: triples (k + 1) l
  | _ => []
  end.

(** A group [pick] may walk without leaving the index vector or the
    vertex buffer: its indices name vertices of the mesh, their number
    fits [unsigned int], and a fan has an odd number of them. *)
Definition pick_group_wf (m : Mesh) (g : PrimitiveGroup) : Prop :=
  Z.of_nat (length (indices g)) < 2 ^ 32
  /\ Forall (fun i => 0 <= i < nVertices m) (indices g)
  /\ (prim g = TriFan -> Z.of_nat (length (indices g)) mod 2 = 1).

(** A mesh of one triangle in the plane [z = 0], for running the model:
    three records of twelve bytes, the position alone. *)
Definition triangle_mesh : Mesh :=
  mkMesh (mkVertexDescription 12 [mkVertexAttribute Position Float3 0]) 3
    (vec3_bytes (float_of_Z 0, float_of_Z 0, float_of_Z 0)
     ++ vec3_bytes (float_of_Z 1, float_of_Z 0, float_of_Z 0)
     ++ vec3_bytes (float_of_Z 0, float_of_Z 1, float_of_Z 0))
    [plain_group TriList [0; 1; 2]] "".

Section PickVocabulary.
Context `{FloatArith}.

(** What the accumulator of [pick] can hold: the initial pair, or the
    distance and the record of a triangle of a walked group. *)
Definition pick_state (gs : list PrimitiveGroup) (c0 : double) (r0 : option PickResult)
    (acc : double * option PickResult) : Prop :=
  acc = (c0, r0)
  \/ exists g k t,
       g ∈ gs /\ walked (prim g) (wrap32 (size_of (indices g))) = true
       /\ dlt double_zero t = true
       /\ acc = (t, (fun _ => mkPickResult (Some g) k t) <$> r0).

End PickVocabulary.

(** ** Boxes and their contents *)

(** The box of a single point. *)
Definition point_box (p : Vector3f) : AlignedBox := mkAlignedBox p p.

Section BoxVocabulary.
Context `{FloatArith}.

(** The box of a point sprite: the centre minus and plus its size on
    every axis. *)
Definition sprite_box (center : Vector3f) (pointSize : float32) : AlignedBox :=
  let offsetVec := (pointSize, pointSize, pointSize) in
  mkAlignedBox (vf_map2 fsub center offsetVec) (vf_map2 fadd center offsetVec).

(** The floats that are numbers (every bit pattern but the NaNs), and
    the order of the numbers. *)
Variable number : float32 -> Prop.
Variable fle : float32 -> float32 -> Prop.

(** What containment needs of the machine's [min] and [max], asked of
    numbers only: the order is transitive on numbers, the minimum and
    the maximum of two numbers are numbers and bound both arguments
    from below, respectively from above, and the two corners of the
    empty box are numbers.  Nothing is asked of a NaN. *)
Definition min_max_order : Prop :=
  (forall a b c, number a -> number b -> number c ->
     fle a b -> fle b c -> fle a c)
  /\ (forall a b, number a -> number b ->
        number (fmin a b) /\ fle (fmin a b) a /\ fle (fmin a b) b)
  /\ (forall a b, number a -> number b ->
        number (fmax a b) /\ fle a (fmax a b) /\ fle b (fmax a b))
  /\ number float_highest /\ number float_lowest.

Definition vf_number (v : Vector3f) : Prop :=
  let '(x, y, z) := v in number x /\ number y /\ number z.

Definition box_number (b : AlignedBox) : Prop :=
  vf_number (box_min b) /\ vf_number (box_max b).

Definition vf_le (a b : Vector3f) : Prop :=
  let '(ax, ay, az) := a in let '(bx, by_, bz) := b in
  fle ax bx /\ fle ay by_ /\ fle az bz.

(** Box [c] lies inside box [b]. *)
Definition box_in (c b : AlignedBox) : Prop :=
  vf_le (box_min b) (box_min c) /\ vf_le (box_max c) (box_max b).

(** No NaN among what [getBoundingBox] extends its box with: the
    coordinates of every vertex position and, with a Float1 point size,
    the corners of every sprite box. *)
Definition vertex_numbers (m : Mesh) : Prop :=
  let desc := vertexDesc m in
  let pos := offset (getAttribute desc Position) in
  let ps := offset (getAttribute desc PointSize) in
  forall i p,
    0 <= i < nVertices m ->
    read_vec3 (vertices m) (i * stride desc + pos) = Some p ->
    vf_number p
    /\ (format (getAttribute desc PointSize) = Float1 ->
        forall x, read_float (vertices m) (i * stride desc + ps) = Some x ->
                  box_number (sprite_box p x)).

End BoxVocabulary.

(** ** The order of floats on their bit patterns

    For running the model on the machine's order: the 32 bits of a
    float are read as sign, exponent and fraction.  A NaN has all
    exponent bits set and a fraction that is not zero; the numbers are
    ordered by sign and magnitude, the two zeros being equal.  The
    minimum and the maximum are [std::min] and [std::max] over the
    comparison [<], which is false as soon as a NaN is involved. *)
Definition float_is_nan (f : float32) : bool :=
  2139095040 <? float_to_Z f mod 2 ^ 31.

Definition float_key (f : float32) : Z :=
  if float_to_Z f <? 2 ^ 31 then float_to_Z f else 2 ^ 31 - float_to_Z f.

Definition float_number (f : float32) : Prop := float_is_nan f = false.

Definition float_le (a b : float32) : Prop := float_key a <= float_key b.

Definition float_ltb (a b : float32) : bool :=
  negb (float_is_nan a) && negb (float_is_nan b) && (float_key a <? float_key b).

Definition float_min (a b : float32) : float32 := if float_ltb b a then b else a.

Definition float_max (a b : float32) : float32 := if float_ltb a b then b else a.

(** The stand-in with the machine's minimum, maximum and extreme finite
    floats; sums and products stay those of the integer stand-in. *)
Definition ieee_order_arith : FloatArith := {|
  fadd a b := float_of_Z (float_to_Z a + float_to_Z b);
  fsub a b := float_of_Z (float_to_Z a - float_to_Z b);
  fmul a b := float_of_Z (float_to_Z a * float_to_Z b);
  fmin := float_min;
  fmax := float_max;
  float_highest := float_of_Z 2139095039;
  float_lowest := float_of_Z 4286578687;
  float_neg_half := float_of_Z 3204448256;
  float_half := float_of_Z 1056964608;
  double := Z;
  dadd := Z.add;
  dsub := Z.sub;
  dmul := Z.mul;
  ddiv := Z.div;
  dlt := Z.ltb;
  dle := Z.leb;
  deq := Z.eqb;
  double_of_float := float_to_Z;
  double_zero := 0;
  double_one := 1;
  double_1e30 := 10 ^ 30
|}.

(** Meshes with the buffer and the triangle of [triangle_mesh] but
    without a Float3 position: one whose position has two floats, one
    with normals only. *)
Definition float2_mesh : Mesh :=
  mkMesh (mkVertexDescription 12 [mkVertexAttribute Position Float2 0])
    (nVertices triangle_mesh) (vertices triangle_mesh) (groups triangle_mesh) "".

Definition normals_mesh : Mesh :=
  mkMesh (mkVertexDescription 12 [mkVertexAttribute Normal Float3 0])
    (nVertices triangle_mesh) (vertices triangle_mesh) (groups triangle_mesh) "".

(** A mesh of two vertices with a position and a colour each, for
    running the model: records of sixteen bytes. *)
Definition colour_mesh : Mesh :=
  mkMesh (mkVertexDescription 16 [mkVertexAttribute Position Float3 0;
                                  mkVertexAttribute Color UByte4 12]) 2
    (vec3_bytes (float_of_Z 0, float_of_Z 0, float_of_Z 0)
     ++ float_bytes (float_of_Z 7)
     ++ vec3_bytes (float_of_Z 1, float_of_Z 0, float_of_Z 0)
     ++ float_bytes (float_of_Z 9))
    [plain_group LineList [0; 1]] "".

(** What [addGroup] may be asked for a line topology: a built layout
    with a Float3 position, and an input line expansion accepts. *)
Definition line_group_ready (m : Mesh) (prim_ : PrimitiveGroupType)
    (inds : list Z) : Prop :=
  prim_ = LineStrip \/ prim_ = LineList ->
  map_built (vertexDesc m)
  /\ format (getAttribute (vertexDesc m) Position) = Float3
  /\ line_input_wf m (bool_decide (prim_ = LineStrip)) inds.

(** * Properties *)

(** ** Machine integers *)

Lemma wrap32_small x : 0 <= x < 2 ^ 32 -> wrap32 x = x.
Proof. intros H. unfold wrap32. apply Z.mod_small. exact H. Qed.

Lemma wrap64_small x : 0 <= x < 2 ^ 64 -> wrap64 x = x.
Proof. intros H. unfold wrap64. apply Z.mod_small. exact H. Qed.

Lemma wrap32_range x : 0 <= wrap32 x < 2 ^ 32.
Proof. unfold wrap32. apply Z.mod_pos_bound. lia. Qed.

Lemma wrap32_wrap64 x : wrap32 (wrap64 x) = wrap32 x.
Proof.
  unfold wrap32, wrap64. apply Z.mod_mod_divide.
  exists (2 ^ 32). reflexivity.
Qed.

Lemma to_int_small x : - 2 ^ 31 <= x < 2 ^ 31 -> to_int x = x.
Proof. intros H. unfold to_int. rewrite Z.mod_small; lia. Qed.

Lemma getFormatSize_range f : 0 <= getFormatSize f <= 16.
Proof. destruct f; simpl; lia. Qed.

(** ** Primitive counts *)

(** At or above the minimum of its topology (and for index counts an
    [unsigned int] holds) the count follows the table. *)
Lemma getPrimitiveCount_table (g : PrimitiveGroup) :
  let n := Z.of_nat (length (indices g)) in
  n < 2 ^ 32 ->
  match prim g with
  | TriList => getPrimitiveCount g = n / 3
  | TriStrip | TriFan | LineStrip => 2 <= n -> getPrimitiveCount g = n - 2
  | LineList => getPrimitiveCount g = n / 2
  | PointList | SpriteList => getPrimitiveCount g = n
  | InvalidPrimitiveGroupType => getPrimitiveCount g = 0
  end.
Proof.
  intros n Hn. unfold getPrimitiveCount, size_of. fold n.
  assert (0 <= n) by (unfold n; lia).
  destruct (prim g); try done; intros;
    rewrite ?wrap32_wrap64; apply wrap32_small; try lia.
  - split; [apply Z.div_pos; lia|]. apply Z.le_lt_trans with n; [|lia].
    apply Z.div_le_upper_bound; lia.
  - split; [apply Z.div_pos; lia|]. apply Z.le_lt_trans with n; [|lia].
    apply Z.div_le_upper_bound; lia.
Qed.

(** C1.  Below the minimum of a strip or fan the count is not 0: the
    subtraction [indices.size() - 2] wraps around.  An empty triangle
    strip reports 4294967294 primitives, a fan or line strip of one index
    4294967295. *)
Theorem getPrimitiveCount_below_minimum :
  getPrimitiveCount (plain_group TriStrip []) = 4294967294
  /\ getPrimitiveCount (plain_group TriStrip [7]) = 4294967295
  /\ getPrimitiveCount (plain_group TriFan []) = 4294967294
  /\ getPrimitiveCount (plain_group TriFan [7]) = 4294967295
  /\ getPrimitiveCount (plain_group LineStrip []) = 4294967294
  /\ getPrimitiveCount (plain_group LineStrip [7]) = 4294967295.
Proof. repeat split; vm_compute; reflexivity. Qed.

(** ** Group access *)

Lemma addGroup_groups (m : Mesh) (g : PrimitiveGroup) :
  groups (addGroup m g).2 = groups m ++ [g].
Proof. reflexivity. Qed.

(** C9.  [getGroup] answers every index: no group at or beyond the group
    count, the group at that position of the list below it; and
    [addGroup] puts each new group behind the ones already there, so that
    positions are insertion positions. *)
Theorem getGroup_total (m : Mesh) (index : Z) :
  0 <= index ->
  (Z.of_nat (length (groups m)) <= index -> getGroup m index = None)
  /\ (index < Z.of_nat (length (groups m)) ->
      exists g, groups m !! Z.to_nat index = Some g /\ getGroup m index = Some g)
  /\ (forall g, getGroup (addGroup m g).2 (Z.of_nat (length (groups m))) = Some g)
  /\ (forall g, index < Z.of_nat (length (groups m)) ->
      getGroup (addGroup m g).2 index = getGroup m index).
Proof.
  intros Hpos. unfold getGroup, size_of. repeat split.
  - intros Hge. destruct (Z.geb_spec index (Z.of_nat (length (groups m)))); [done | lia].
  - intros Hlt. destruct (Z.geb_spec index (Z.of_nat (length (groups m)))); [lia |].
    destruct (lookup_lt_is_Some_2 (groups m) (Z.to_nat index)) as [g Hg]; [lia |].
    exists g. by rewrite Hg.
  - intros g. rewrite addGroup_groups, length_app. simpl.
    destruct (Z.geb_spec (Z.of_nat (length (groups m)))
                (Z.of_nat (length (groups m) + 1))); [lia |].
    rewrite Nat2Z.id. rewrite lookup_app_r by lia.
    by rewrite Nat.sub_diag.
  - intros g Hlt. rewrite addGroup_groups, length_app. simpl.
    destruct (Z.geb_spec index (Z.of_nat (length (groups m) + 1))); [lia |].
    destruct (Z.geb_spec index (Z.of_nat (length (groups m)))); [lia |].
    apply lookup_app_l. lia.
Qed.

Lemma getGroup_total_witness :
  exists g, getGroup (addGroup (mkMesh VertexDescription_default 0 [] [] "")
                        (plain_group TriList [0; 1; 2])).2 0 = Some g.
Proof.
  destruct (getGroup_total
              (addGroup (mkMesh VertexDescription_default 0 [] [] "")
                 (plain_group TriList [0; 1; 2])).2 0) as (_ & H & _); [lia |].
  destruct H as (g & _ & Hg); [simpl; lia |]. exists g. exact Hg.
Defined.

(** ** Adopting a vertex description *)

Lemma attribute_ok_spec (_stride : Z) (attr : VertexAttribute) :
  attribute_ok _stride attr = false <-> attribute_refused _stride attr.
Proof.
  unfold attribute_ok, attribute_refused.
  destruct (Z.eqb_spec (offset attr mod 4) 0) as [He | He];
    destruct (Z.gtb_spec (wrap32 (offset attr + getFormatSize (format attr))) _stride);
    simpl; split; intros Hx; try done; try (right; lia); try (left; lia).
  destruct Hx; lia.
Qed.

Lemma validate_false (desc : VertexDescription) :
  validate desc = false <-> layout_refused desc.
Proof.
  unfold validate, layout_refused.
  induction (attributes desc) as [| a l IH]; simpl.
  - split; [done | intros H; inversion H].
  - rewrite andb_false_iff, Exists_cons, IH, attribute_ok_spec. done.
Qed.

(** When the sum does not overflow, it is the plain sum: what the code
    refuses is what the specification calls invalid. *)
Lemma attribute_refused_plain (_stride : Z) (attr : VertexAttribute) :
  0 <= offset attr -> offset attr + getFormatSize (format attr) < 2 ^ 32 ->
  attribute_refused _stride attr <-> attribute_invalid _stride attr.
Proof.
  intros H0 H1. unfold attribute_refused, attribute_invalid.
  rewrite wrap32_small; [done |].
  pose proof (getFormatSize_range (format attr)). lia.
Qed.

Lemma layout_refused_plain (desc : VertexDescription) :
  Forall (fun a => 0 <= offset a /\ offset a + getFormatSize (format a) < 2 ^ 32)
         (attributes desc) ->
  layout_refused desc <-> layout_invalid desc.
Proof.
  unfold layout_refused, layout_invalid.
  induction 1 as [| a l [Ha0 Ha1] _ IH]; [by rewrite !Exists_nil |].
  by rewrite !Exists_cons, IH, (attribute_refused_plain _ a Ha0 Ha1).
Qed.

(** [setVertexDescription] either refuses the layout and leaves the mesh
    exactly as it was, or adopts the layout whole and leaves the rest of
    the mesh as it was: it refuses exactly the layouts with a field
    [validate] refuses. *)
Lemma setVertexDescription_all_or_nothing (m : Mesh) (desc : VertexDescription) :
  (layout_refused desc -> setVertexDescription m desc = (false, m))
  /\ (~ layout_refused desc ->
      setVertexDescription m desc
      = (true, mkMesh desc (nVertices m) (vertices m) (groups m) (name m))).
Proof.
  unfold setVertexDescription. split; intros Hl.
  - apply validate_false in Hl. by rewrite Hl.
  - destruct (validate desc) eqn:Hv; [done |].
    apply validate_false in Hv. contradiction.
Qed.

(** On layouts whose field ends fit 32 bits the specification's wording
    holds: an invalid layout is refused and the mesh is left as it was,
    any other layout is adopted whole. *)
Lemma setVertexDescription_plain (m : Mesh) (desc : VertexDescription) :
  Forall (fun a => 0 <= offset a /\ offset a + getFormatSize (format a) < 2 ^ 32)
         (attributes desc) ->
  (layout_invalid desc -> setVertexDescription m desc = (false, m))
  /\ (~ layout_invalid desc ->
      setVertexDescription m desc
      = (true, mkMesh desc (nVertices m) (vertices m) (groups m) (name m))).
Proof.
  intros Hfit. rewrite <- (layout_refused_plain desc Hfit).
  apply setVertexDescription_all_or_nothing.
Qed.

(** C5.  A layout with a field whose offset plus format size reaches
    2^32 fails validation as the specification words it (the field ends
    beyond the stride), yet whenever the offset is a multiple of 4 and
    the 32-bit sum is at most the stride, [setVertexDescription] returns
    true and adopts it: the sum in [validate] wraps around. *)
Theorem setVertexDescription_adopts_overflowing (m : Mesh) (st : Z)
    (a : VertexAttribute) :
  0 <= st < 2 ^ 32 ->
  0 <= offset a < 2 ^ 32 ->
  offset a mod 4 = 0 ->
  2 ^ 32 <= offset a + getFormatSize (format a) ->
  offset a + getFormatSize (format a) - 2 ^ 32 <= st ->
  let desc := mkVertexDescription st [a] in
  layout_invalid desc
  /\ validate desc = true
  /\ setVertexDescription m desc
     = (true, mkMesh desc (nVertices m) (vertices m) (groups m) (name m)).
Proof.
  intros Hst Ho Hal Hov Hfit desc.
  pose proof (getFormatSize_range (format a)) as Hsz.
  assert (Hv : validate desc = true).
  { unfold validate, desc. simpl. rewrite andb_true_r.
    unfold attribute_ok. rewrite Hal. simpl.
    replace (wrap32 (offset a + getFormatSize (format a)))
      with (offset a + getFormatSize (format a) - 2 ^ 32).
    - destruct (Z.gtb_spec (offset a + getFormatSize (format a) - 2 ^ 32) st);
        [lia | done].
    - unfold wrap32. symmetry.
      replace (offset a + getFormatSize (format a))
        with (offset a + getFormatSize (format a) - 2 ^ 32 + 1 * 2 ^ 32) at 1 by lia.
      rewrite Z.mod_add by lia. apply Z.mod_small. lia. }
  split; [| split; [exact Hv |]].
  - unfold layout_invalid, desc. simpl. apply Exists_cons. left.
    right. lia.
  - unfold setVertexDescription. by rewrite Hv.
Qed.

Lemma setVertexDescription_adopts_overflowing_witness :
  let desc := mkVertexDescription 16 [mkVertexAttribute Position Float3 4294967292] in
  let m := mkMesh VertexDescription_default 0 [] [] "" in
  layout_invalid desc
  /\ validate desc = true
  /\ setVertexDescription m desc = (true, mkMesh desc 0 [] [] "").
Proof.
  intros desc m.
  apply (setVertexDescription_adopts_overflowing m 16
           (mkVertexAttribute Position Float3 4294967292));
    simpl; (lia || reflexivity).
Defined.

(** ** Remapping indices *)

Lemma vector_at_Some {A} (v : list A) (i : Z) :
  0 <= i < Z.of_nat (length v) -> exists x, vector_at v i = Some x /\ v !! Z.to_nat i = Some x.
Proof.
  intros Hi. unfold vector_at, size_of.
  destruct (Z.leb_spec 0 i); [| lia]. destruct (Z.ltb_spec i (Z.of_nat (length v))); [| lia].
  simpl. destruct (lookup_lt_is_Some_2 v (Z.to_nat i)) as [x Hx]; [lia |]. eauto.
Qed.

Lemma remapIndices_group_ok (indexMap : list Z) (g : PrimitiveGroup) :
  covers indexMap g ->
  exists g', remapIndices_group indexMap g = Some g' /\ remapped_group indexMap g g'.
Proof.
  intros Hc. unfold remapIndices_group.
  assert (exists inds, mapM (vector_at indexMap) (indices g) = Some inds
            /\ Forall2 (fun i i' => indexMap !! Z.to_nat i = Some i') (indices g) inds)
    as (inds & -> & Hinds).
  { unfold covers in Hc. induction Hc as [| i l Hi _ IH].
    - exists []. split; [done | constructor].
    - destruct IH as (inds & Hm & Hf).
      destruct (vector_at_Some indexMap i Hi) as (x & Hx & Hl).
      exists (x :: inds). simpl. rewrite Hx. simpl. rewrite Hm. simpl.
      split; [done | by constructor]. }
  simpl. eexists. split; [done |]. by repeat split.
Qed.

(** C10.  When the map covers every index in use, [remapIndices] succeeds;
    it sends each base index [i] to [indexMap[i]] and leaves everything
    else of every group (the override indices, buffer and layout, both
    topologies, the material) and of the mesh as it was. *)
Theorem remapIndices_only_base_indices (m : Mesh) (indexMap : list Z) :
  Forall (covers indexMap) (groups m) ->
  exists m', remapIndices m indexMap = Some m'
    /\ Forall2 (remapped_group indexMap) (groups m) (groups m')
    /\ vertexDesc m' = vertexDesc m
    /\ nVertices m' = nVertices m
    /\ vertices m' = vertices m
    /\ name m' = name m.
Proof.
  intros Hc. unfold remapIndices.
  assert (exists gs, mapM (remapIndices_group indexMap) (groups m) = Some gs
            /\ Forall2 (remapped_group indexMap) (groups m) gs) as (gs & -> & Hgs).
  { induction Hc as [| g l Hg _ IH].
    - exists []. split; [done | constructor].
    - destruct IH as (gs & Hm & Hf).
      destruct (remapIndices_group_ok indexMap g Hg) as (g' & Hg' & Hr).
      exists (g' :: gs). simpl. rewrite Hg'. simpl. rewrite Hm. simpl.
      split; [done | by constructor]. }
  simpl. eexists. split; [done |]. by repeat split.
Qed.

Lemma remapIndices_only_base_indices_witness :
  exists m', remapIndices
      (mkMesh VertexDescription_default 0 []
         [mkPrimitiveGroup LineList 3 [0; 1] TriList (Some []) 4
            [0; 1; 2; 2; 3; 0] VertexDescription_default] "")
      [5; 6] = Some m'
    /\ (indices <$> groups m') = [[5; 6]]
    /\ (indicesOverride <$> groups m') = [[0; 1; 2; 2; 3; 0]].
Proof.
  destruct (remapIndices_only_base_indices
      (mkMesh VertexDescription_default 0 []
         [mkPrimitiveGroup LineList 3 [0; 1] TriList (Some []) 4
            [0; 1; 2; 2; 3; 0] VertexDescription_default] "")
      [5; 6]) as (m' & Hm & _).
  - repeat constructor; simpl; lia.
  - exists m'. split; [exact Hm |].
    vm_compute in Hm. injection Hm as <-. split; reflexivity.
Defined.

(** ** Sorting by material *)

#[local] Instance material_le_trans : Transitive material_le.
Proof. unfold material_le. intros x y z. lia. Qed.

#[local] Instance material_le_total : Total material_le.
Proof. unfold material_le. intros x y. lia. Qed.

Lemma StronglySorted_lookup {A} (R : relation A) (l : list A) :
  StronglySorted R l <->
  (forall (i j : nat) (a b : A), (i < j)%nat -> l !! i = Some a -> l !! j = Some b -> R a b).
Proof.
  split.
  - induction 1 as [| x l Hs IH Hx]; intros i j a b Hij Hi Hj.
    + by rewrite lookup_nil in Hi.
    + destruct j as [| j]; [lia |]. simpl in Hj.
      destruct i as [| i]; simpl in Hi.
      * injection Hi as <-. rewrite Forall_forall in Hx. apply Hx.
        by apply list_elem_of_lookup_2 in Hj.
      * apply (IH i j); [lia | done | done].
  - induction l as [| x l IH]; intros Hl; constructor.
    + apply IH. intros i j a b Hij Hi Hj. apply (Hl (S i) (S j)); [lia | done | done].
    + apply Forall_forall. intros y Hy.
      apply list_elem_of_lookup_1 in Hy as [j Hj].
      apply (Hl O (S j)); [lia | done | done].
Qed.

Lemma sorted_wrt_ascending (l : list PrimitiveGroup) :
  sorted_wrt material_less l <-> ascending l.
Proof.
  unfold sorted_wrt, ascending, material_less.
  split; intros Hl i j a b Hij Hi Hj; specialize (Hl i j a b Hij Hi Hj).
  - apply Z.ltb_ge in Hl. exact Hl.
  - apply Z.ltb_ge. exact Hl.
Qed.

Lemma ascending_keys (l : list PrimitiveGroup) :
  ascending l -> StronglySorted Z.le (materialIndex <$> l).
Proof.
  intros Hl. apply StronglySorted_lookup. intros i j a b Hij Hi Hj.
  rewrite list_lookup_fmap in Hi, Hj.
  destruct (l !! i) as [gi |] eqn:Ei; [| done].
  destruct (l !! j) as [gj |] eqn:Ej; [| done].
  simpl in Hi, Hj. injection Hi as <-. injection Hj as <-.
  by apply (Hl i j).
Qed.

(** C2.  Stability is not guaranteed: under the contract of [std::sort]
    two batches of one material may come back exchanged. *)
Lemma aggregateByMaterial_not_stable :
  ~ (forall m m' : Mesh, aggregateByMaterial m m' -> keeps_ties (groups m) (groups m')).
Proof.
  intros Hst.
  pose (a := plain_group TriList [0; 1; 2]).
  pose (b := plain_group TriStrip [3; 4; 5]).
  pose (m := mkMesh VertexDescription_default 0 [] [a; b] "").
  pose (m' := mkMesh VertexDescription_default 0 [] [b; a] "").
  assert (Hagg : aggregateByMaterial m m').
  { split; [split |]; [apply Permutation_swap | | reflexivity].
    intros i j x y _ Hi Hj.
    assert (Hall : Forall (fun g => materialIndex g = 0) [b; a])
      by (repeat constructor).
    rewrite Forall_forall in Hall.
    apply list_elem_of_lookup_2, Hall in Hi, Hj.
    unfold material_less. rewrite Hi, Hj. reflexivity. }
  specialize (Hst m m' Hagg 0). vm_compute in Hst. discriminate Hst.
Qed.

(** C2 (amended).  [aggregateByMaterial] always has a result; every
    result is a rearrangement of the batches in ascending material order,
    its sequence of material indices is the sorted sequence of the
    original material indices, and the rest of the mesh is untouched.
    The order among batches of equal material is not determined. *)
Theorem aggregateByMaterial_sorts (m : Mesh) :
  (exists m', aggregateByMaterial m m')
  /\ (forall m', aggregateByMaterial m m' ->
        groups m' ≡ₚ groups m
        /\ ascending (groups m')
        /\ materialIndex <$> groups m' = merge_sort Z.le (materialIndex <$> groups m)
        /\ vertexDesc m' = vertexDesc m
        /\ nVertices m' = nVertices m
        /\ vertices m' = vertices m
        /\ name m' = name m).
Proof.
  split.
  - exists (set_groups m (merge_sort material_le (groups m))).
    split; [split |]; simpl.
    + apply merge_sort_Permutation.
    + apply sorted_wrt_ascending. unfold ascending.
      apply (StronglySorted_lookup material_le).
      apply StronglySorted_merge_sort; apply _.
    + reflexivity.
  - intros m' [[Hperm Hsorted] ->]. simpl.
    apply sorted_wrt_ascending in Hsorted.
    repeat split; try done.
    apply (StronglySorted_unique Z.le).
    + by apply ascending_keys.
    + apply StronglySorted_merge_sort; apply _.
    + rewrite merge_sort_Permutation. by apply fmap_Permutation.
Qed.

(** ** The triangle walk of [pick] *)

(** Groups that fail the guard are not walked: no triangle is examined
    and the accumulator comes back as it went in. *)
Lemma walk_skipped {A} (fuel : nat) (visit : A -> Z -> Z * Z * Z -> outcome A)
    (g : PrimitiveGroup) (acc : A) :
  walked (prim g) (wrap32 (size_of (indices g))) = false ->
  walk fuel visit g acc = Done acc.
Proof. intros Hw. unfold walk. by rewrite Hw. Qed.

Lemma walked_spec (p : PrimitiveGroupType) (n : Z) :
  walked p n = true <->
  (p = TriList /\ 3 <= n /\ n mod 3 = 0) \/ ((p = TriStrip \/ p = TriFan) /\ 3 <= n).
Proof.
  unfold walked.
  destruct (Z.geb_spec n 3); destruct (Z.eqb_spec (n mod 3) 0);
    destruct p; simpl; split; intros Hx; try done;
    try (left; repeat split; (done || lia));
    try (right; split; [by (left + right) | lia]);
    destruct Hx as [(? & ? & ?) | ([? | ?] & ?)]; (done || lia).
Qed.

(** From position [index] of a strip of [n] indices the loop examines
    [n - index] more triangles: [n] in all from position 0. *)
Lemma walk_loop_strip (inds : list Z) (fuel : nat)
    (index i0 i1 i2 k : Z) (acc : list (Z * (Z * Z * Z))) :
  let n := Z.of_nat (length inds) in
  n < 2 ^ 32 -> 0 <= index < n -> n - index <= Z.of_nat fuel ->
  exists tr,
    walk_loop fuel record_triangle TriStrip inds n index i0 i1 i2 k acc = Done (acc ++ tr)
    /\ Z.of_nat (length tr) = n - index.
Proof.
  intros n Hn. revert index i0 i1 i2 k acc.
  induction fuel as [| fuel IH]; intros index i0 i1 i2 k acc Hi Hf; [lia |].
  simpl. unfold next_triangle. rewrite (wrap32_small (index + 1)) by lia.
  destruct (Z.ltb_spec (index + 1) n) as [Hlt | Hge].
  - destruct (vector_at_Some inds (index + 1)) as (c & -> & _); [lia |].
    simpl. destruct (Z.ltb_spec (index + 1) n); [| lia].
    destruct (IH (index + 1) i1 i2 c (wrap32 (k + 1)) (acc ++ [(k, (i0, i1, i2))]))
      as (tr & -> & Hlen); [lia | lia |].
    exists ((k, (i0, i1, i2)) :: tr). split.
    + by rewrite <- app_assoc.
    + simpl. lia.
  - simpl. destruct (Z.ltb_spec (index + 1) n); [lia |].
    exists [(k, (i0, i1, i2))]. split; [done | simpl; lia].
Qed.

(** A triangle strip of [n >= 3] indices has [n] triangles examined, not
    [n - 2]. *)
Lemma walk_trace_strip_length (g : PrimitiveGroup) :
  let n := Z.of_nat (length (indices g)) in
  prim g = TriStrip -> 3 <= n < 2 ^ 32 ->
  exists tr, walk_trace g = Done tr /\ Z.of_nat (length tr) = n.
Proof.
  intros n Hp Hn. unfold walk_trace, walk. rewrite Hp.
  unfold size_of. fold n. rewrite (wrap32_small n) by lia.
  replace (walked TriStrip n) with true
    by (symmetry; apply walked_spec; right; split; [by left | lia]).
  destruct (vector_at_Some (indices g) 0) as (a & -> & _); [lia |].
  destruct (vector_at_Some (indices g) 1) as (b & -> & _); [lia |].
  destruct (vector_at_Some (indices g) 2) as (c & -> & _); [lia |].
  destruct (walk_loop_strip (indices g) (walk_fuel g) 0 a b c 0 [])
    as (tr & Hw & Hlen); [lia | lia | unfold walk_fuel; lia |].
  exists tr. split; [exact Hw | lia].
Qed.

(** From an even distance to the end of a fan the loop runs into the
    position just behind the last index. *)
Lemma walk_loop_fan_fault (inds : list Z) (fuel : nat)
    (index i0 i1 i2 k : Z) (acc : list (Z * (Z * Z * Z))) :
  let n := Z.of_nat (length inds) in
  n < 2 ^ 32 -> 0 <= index < n -> (n - index) mod 2 = 0 ->
  n - index <= 2 * Z.of_nat fuel ->
  walk_loop fuel record_triangle TriFan inds n index i0 i1 i2 k acc = Fault.
Proof.
  intros n Hn. revert index i0 i1 i2 k acc.
  induction fuel as [| fuel IH]; intros index i0 i1 i2 k acc Hi Hev Hf; [lia |].
  assert (index + 2 <= n).
  { destruct (Z.eq_dec (index + 1) n) as [He | He]; [| lia].
    replace (n - index) with 1 in Hev by lia. done. }
  simpl. unfold next_triangle. rewrite (wrap32_small (index + 1)) by lia.
  destruct (Z.ltb_spec (index + 1) n); [| lia].
  rewrite (wrap32_small (index + 1 + 1)) by lia.
  destruct (Z.eq_dec (index + 2) n) as [He | He].
  - replace (vector_at inds (index + 1 + 1)) with (@None Z); [done |].
    unfold vector_at, size_of. fold n.
    destruct (Z.ltb_spec (index + 1 + 1) n); [lia |]. by rewrite andb_false_r.
  - destruct (vector_at_Some inds (index + 1 + 1)) as (c & -> & _); [lia |].
    simpl. destruct (Z.ltb_spec (index + 1 + 1) n); [| lia].
    apply IH; [lia | | lia].
    replace (n - (index + 1 + 1)) with (n - index + (-1) * 2) by lia.
    by rewrite Z.mod_add.
Qed.

(** A triangle fan with an even number [n >= 4] of indices makes the walk
    read [indices[n]]. *)
Lemma walk_trace_fan_even_fault (g : PrimitiveGroup) :
  let n := Z.of_nat (length (indices g)) in
  prim g = TriFan -> 4 <= n < 2 ^ 32 -> n mod 2 = 0 ->
  walk_trace g = Fault.
Proof.
  intros n Hp Hn Hev. unfold walk_trace, walk. rewrite Hp.
  unfold size_of. fold n. rewrite (wrap32_small n) by lia.
  replace (walked TriFan n) with true
    by (symmetry; apply walked_spec; right; split; [by right | lia]).
  destruct (vector_at_Some (indices g) 0) as (a & -> & _); [lia |].
  destruct (vector_at_Some (indices g) 1) as (b & -> & _); [lia |].
  destruct (vector_at_Some (indices g) 2) as (c & -> & _); [lia |].
  apply (walk_loop_fan_fault (indices g) (walk_fuel g) 0 a b c 0 []);
    [lia | lia | | unfold walk_fuel; lia].
  by rewrite Z.sub_0_r.
Qed.

(** C3.  The walk does not follow strip and fan adjacency.  On the strip
    10, 11, 12 it examines three triangles, two of them degenerate,
    instead of one; on the strip 10 .. 14 five instead of three, the
    triangle (11, 12, 13) as primitive 3 instead of 1; on the fan 10 .. 14
    the triangles (10, 12, 12) and (10, 12, 14) instead of (10, 12, 13) and
    (10, 13, 14); on the fan 10 .. 13 it reads [indices[4]], behind the
    end of the index sequence. *)
Theorem pick_walk_strip_fan_adjacency :
  walk_trace (plain_group TriStrip [10; 11; 12])
  = Done [(0, (10, 11, 12)); (1, (11, 12, 11)); (2, (12, 11, 12))]
  /\ walk_trace (plain_group TriStrip [10; 11; 12; 13; 14])
     = Done [(0, (10, 11, 12)); (1, (11, 12, 11)); (2, (12, 11, 12));
             (3, (11, 12, 13)); (4, (12, 13, 14))]
  /\ walk_trace (plain_group TriFan [10; 11; 12; 13; 14])
     = Done [(0, (10, 11, 12)); (1, (10, 12, 12)); (2, (10, 12, 14))]
  /\ walk_trace (plain_group TriFan [10; 11; 12; 13]) = Fault.
Proof. repeat split; vm_compute; reflexivity. Qed.

(** ** The walk always ends

    The iterations allowed to the walk of a group are never used up: the
    walk ends with a result or with an access outside a vector or buffer. *)

Lemma of_option_no_timeout {A} (o : option A) : of_option o <> Timeout.
Proof. by destruct o. Qed.

Lemma walk_loop_no_timeout {A} (visit : A -> Z -> Z * Z * Z -> outcome A)
    (primType : PrimitiveGroupType) (inds : list Z) (n : Z) :
  (forall acc k tri, visit acc k tri <> Timeout) ->
  n < 2 ^ 32 -> (primType = TriList -> n mod 3 = 0) ->
  forall (fuel : nat) (index i0 i1 i2 k : Z) (acc : A),
    0 <= index < n -> (primType = TriList -> index mod 3 = 0) ->
    n - index <= Z.of_nat fuel ->
    walk_loop fuel visit primType inds n index i0 i1 i2 k acc <> Timeout.
Proof.
  intros Hvisit Hn Hn3.
  induction fuel as [| fuel IH]; intros index i0 i1 i2 k acc Hi Hi3 Hf; [lia |].
  simpl. destruct (visit acc k (i0, i1, i2)) as [acc' | |] eqn:Hv;
    [| done | by apply Hvisit in Hv].
  simpl. unfold next_triangle.
  destruct (decide (primType = TriList)) as [-> | Hlist].
  - specialize (Hn3 eq_refl). specialize (Hi3 eq_refl).
    assert (index + 3 <= n) by (apply Z.mod_divide in Hn3, Hi3; [| lia ..];
      destruct Hn3 as [a ->], Hi3 as [b ->]; lia).
    rewrite (wrap32_small (index + 3)) by lia.
    destruct (Z.ltb_spec (index + 3) n) as [Hlt | Hge].
    + destruct (of_option (vector_at inds (wrap32 (index + 3 + 0)))) eqn:E0;
        [| done | by apply of_option_no_timeout in E0].
      destruct (of_option (vector_at inds (wrap32 (index + 3 + 1)))) eqn:E1;
        [| done | by apply of_option_no_timeout in E1].
      destruct (of_option (vector_at inds (wrap32 (index + 3 + 2)))) eqn:E2;
        [| done | by apply of_option_no_timeout in E2].
      simpl. destruct (Z.ltb_spec (index + 3) n); [| done].
      apply IH; [lia | | lia]. intros _.
      rewrite <- (Z.mod_add index 1 3) in Hi3 by lia. by rewrite Z.mul_1_l in Hi3.
    + simpl. destruct (Z.ltb_spec (index + 3) n); [lia | done].
  - assert (Hstep : forall index' j0 j1 j2,
              index < index' ->
              (if index' <? n
               then walk_loop fuel visit primType inds n index' j0 j1 j2
                      (wrap32 (k + 1)) acc'
               else Done acc') <> Timeout).
    { intros index' j0 j1 j2 Hlt. destruct (Z.ltb_spec index' n); [| done].
      apply IH; [lia | done | lia]. }
    rewrite (wrap32_small (index + 1)) by lia.
    destruct primType; try done;
      (destruct (Z.ltb_spec (index + 1) n) as [Hlt | Hge];
       [| simpl; apply Hstep; lia]);
      try rewrite (wrap32_small (index + 1 + 1)) by lia;
      match goal with
      | |- context [of_option ?o] =>
          destruct (of_option o) eqn:E; [| done | by apply of_option_no_timeout in E]
      end; simpl; apply Hstep; lia.
Qed.

Lemma walk_no_timeout {A} (visit : A -> Z -> Z * Z * Z -> outcome A)
    (g : PrimitiveGroup) (acc : A) :
  (forall acc k tri, visit acc k tri <> Timeout) ->
  walk (walk_fuel g) visit g acc <> Timeout.
Proof.
  intros Hvisit. unfold walk.
  destruct (walked _ _) eqn:Hw; [| done].
  apply walked_spec in Hw.
  destruct (of_option (vector_at (indices g) 0)) eqn:E0;
    [| done | by apply of_option_no_timeout in E0].
  destruct (of_option (vector_at (indices g) 1)) eqn:E1;
    [| done | by apply of_option_no_timeout in E1].
  destruct (of_option (vector_at (indices g) 2)) eqn:E2;
    [| done | by apply of_option_no_timeout in E2].
  pose proof (wrap32_range (size_of (indices g))) as Hr.
  assert (wrap32 (size_of (indices g)) <= Z.of_nat (length (indices g))).
  { unfold wrap32, size_of. apply Z.mod_le; lia. }
  refine (walk_loop_no_timeout visit (prim g) (indices g)
            (wrap32 (size_of (indices g))) Hvisit _ _
            (walk_fuel g) 0 a a0 a1 0 acc _ _ _);
    [lia | | lia | done | unfold walk_fuel; lia].
  intros Hp. destruct Hw as [(_ & _ & Hm) | ([Hq | Hq] & _)]; [done | |];
    rewrite Hp in Hq; discriminate Hq.
Qed.

Section PickTotal.
Context `{FloatArith}.

Lemma pick_triangle_no_timeout (m : Mesh) (posOffset : Z)
    (rayOrigin rayDirection : Vector3d) (g : PrimitiveGroup)
    (acc : double * option PickResult) (k : Z) (tri : Z * Z * Z) :
  pick_triangle m posOffset rayOrigin rayDirection g acc k tri <> Timeout.
Proof.
  unfold pick_triangle, pick_vertex. destruct acc as [closest result].
  destruct tri as [[i0 i1] i2].
  repeat match goal with
         | |- context [of_option ?o] => destruct o; simpl; [| done]
         end.
  repeat match goal with
         | |- context [if ?b then _ else _] => destruct b; try done
         end.
Qed.

(** [pick] ends on every mesh, for every ray. *)
Lemma pick_no_timeout (m : Mesh) (rayOrigin rayDirection : Vector3d)
    (result : option PickResult) :
  pick m rayOrigin rayDirection result <> Timeout.
Proof.
  unfold pick. destruct (_ || _); [done |].
  generalize (double_1e30, result).
  induction (groups m) as [| g gs IH]; intros acc.
  - simpl. by destruct acc.
  - simpl.
    destruct (walk (walk_fuel g) _ g acc) as [acc' | |] eqn:Hw; simpl; [| done |].
    + apply IH.
    + by apply walk_no_timeout in Hw; [| apply pick_triangle_no_timeout].
Qed.

End PickTotal.

(** ** The semantic lookup *)

Lemma buildSemanticMap_snoc (attrs : list VertexAttribute) (a : VertexAttribute)
    (map : list VertexAttribute) :
  buildSemanticMap (attrs ++ [a]) map
  = <[semantic_slot (semantic a) := a]> (buildSemanticMap attrs map).
Proof. unfold buildSemanticMap. by rewrite fold_left_app. Qed.

Lemma buildSemanticMap_length (attrs map : list VertexAttribute) :
  length (buildSemanticMap attrs map) = length map.
Proof.
  induction attrs as [| a attrs IH] using rev_ind; [done |].
  by rewrite buildSemanticMap_snoc, length_insert.
Qed.

Lemma semantic_slot_inj (s t : VertexAttributeSemantic) :
  semantic_slot s = semantic_slot t -> s = t.
Proof. destruct s, t; simpl; intros Hx; try done; discriminate Hx. Qed.

Lemma semantic_slot_valid (s : VertexAttributeSemantic) :
  s <> InvalidSemantic -> (semantic_slot s < SemanticMax)%nat.
Proof. destruct s; unfold SemanticMax; simpl; intros Hs; try lia. done. Qed.

Lemma mkVertexDescription_map_built (st : Z) (attrs : list VertexAttribute) :
  map_built (mkVertexDescription st attrs).
Proof. unfold map_built. by destruct attrs. Qed.

Lemma VertexDescription_default_map_built : map_built VertexDescription_default.
Proof. reflexivity. Qed.

(** A lookup answers with the last attribute of the semantic asked for,
    and with the default attribute when there is none. *)
Lemma getAttribute_current (desc : VertexDescription) (s : VertexAttributeSemantic) :
  map_built desc -> s <> InvalidSemantic ->
  getAttribute desc s
  = default VertexAttribute_default (current_field (attributes desc) s).
Proof.
  intros Hb Hs. unfold getAttribute, current_field. rewrite Hb.
  induction (attributes desc) as [| a attrs IH] using rev_ind.
  - simpl. apply semantic_slot_valid in Hs. unfold SemanticMax in Hs.
    destruct s; try done; lia.
  - rewrite buildSemanticMap_snoc, filter_app. simpl.
    destruct (decide (semantic a = s)) as [Heq | Hne].
    + rewrite filter_cons_True by done. rewrite filter_nil, last_snoc. simpl.
      rewrite Heq. apply list_lookup_total_insert_eq.
      rewrite buildSemanticMap_length. simpl. by apply semantic_slot_valid.
    + rewrite filter_cons_False by done. rewrite filter_nil, app_nil_r.
      rewrite list_lookup_total_insert_ne; [exact IH |].
      intros Heq. by apply semantic_slot_inj in Heq.
Qed.

Lemma current_field_semantic (attrs : list VertexAttribute)
    (s : VertexAttributeSemantic) (a : VertexAttribute) :
  current_field attrs s = Some a -> a ∈ attrs /\ semantic a = s.
Proof.
  unfold current_field. intros Hl.
  assert (Ha : a ∈ filter (fun a => semantic a = s) attrs).
  { destruct (filter _ attrs) as [| x l] using rev_ind; [done |].
    rewrite last_snoc in Hl. injection Hl as ->.
    apply elem_of_app. right. by apply list_elem_of_singleton. }
  by apply list_elem_of_filter in Ha as [? ?].
Qed.

(** A lookup never answers with a field of another semantic. *)
Lemma getAttribute_semantic (desc : VertexDescription) (s : VertexAttributeSemantic) :
  map_built desc -> s <> InvalidSemantic ->
  getAttribute desc s = VertexAttribute_default
  \/ (getAttribute desc s ∈ attributes desc /\ semantic (getAttribute desc s) = s).
Proof.
  intros Hb Hs. rewrite (getAttribute_current desc s Hb Hs).
  destruct (current_field (attributes desc) s) as [a |] eqn:Hc; simpl.
  - right. by apply current_field_semantic.
  - by left.
Qed.

(** A layout without any Position attribute has no current Position
    field. *)
Lemma absent_position (desc : VertexDescription) :
  map_built desc ->
  Forall (fun a => semantic a <> Position) (attributes desc) ->
  ~ has_float3_position desc.
Proof.
  intros Hb Hall [Hs _].
  destruct (getAttribute_semantic desc Position Hb) as [Hd | [Hin _]]; [done | |].
  - by rewrite Hd in Hs.
  - rewrite Forall_forall in Hall. by apply Hall in Hin.
Qed.

(** ** Queries on a mesh without positions *)

Section NoPosition.
Context `{FloatArith}.

Lemma no_float3_position_format (desc : VertexDescription) :
  map_built desc -> ~ has_float3_position desc ->
  format (getAttribute desc Position) <> Float3.
Proof.
  intros Hb Hn Hf. apply Hn. split; [| exact Hf].
  destruct (getAttribute_semantic desc Position Hb) as [Hd | [_ Hs]]; [done | | done].
  by rewrite Hd in Hf.
Qed.

(** C6.  On a mesh whose layout has no current Position field of 3-float
    format, [pick] answers "no hit" and leaves the result object alone,
    [getBoundingBox] answers with the empty box, and [transform] gives
    back the mesh as it was; none of them fails. *)
Theorem no_position_no_result (m : Mesh) :
  map_built (vertexDesc m) ->
  ~ has_float3_position (vertexDesc m) ->
  (forall rayOrigin rayDirection result,
      pick m rayOrigin rayDirection result = Done (false, result))
  /\ (forall rayOrigin rayDirection d,
      pick_distance m rayOrigin rayDirection d = Done (false, d))
  /\ getBoundingBox m = Some AlignedBox_empty
  /\ (forall translation scale, transform m translation scale = Some m).
Proof.
  intros Hb Hn.
  pose proof (no_float3_position_format _ Hb Hn) as Hf.
  assert (Hpick : forall o d r, pick m o d r = Done (false, r)).
  { intros o d r. unfold pick.
    rewrite (bool_decide_eq_false_2 _ Hf). by rewrite orb_true_r. }
  split; [exact Hpick |]. split; [| split].
  - intros o d x. unfold pick_distance. by rewrite Hpick.
  - unfold getBoundingBox. by rewrite (bool_decide_eq_false_2 _ Hf).
  - intros t s. unfold transform. by rewrite (bool_decide_eq_false_2 _ Hf).
Qed.

End NoPosition.

Lemma no_position_no_result_witness :
  let r0 := Some (@mkPickResult int_arith None 0 0) in
  let t := (float_of_Z 1, float_of_Z 0, float_of_Z 0) in
  (@pick int_arith float2_mesh (0, 0, -5) (0, 0, 1) r0 = Done (false, r0)
   /\ @pick_distance int_arith float2_mesh (0, 0, -5) (0, 0, 1) 77 = Done (false, 77)
   /\ @getBoundingBox int_arith float2_mesh = Some (@AlignedBox_empty int_arith)
   /\ @transform int_arith float2_mesh t (float_of_Z 2) = Some float2_mesh)
  /\ (@pick int_arith normals_mesh (0, 0, -5) (0, 0, 1) r0 = Done (false, r0)
      /\ @pick_distance int_arith normals_mesh (0, 0, -5) (0, 0, 1) 77 = Done (false, 77)
      /\ @getBoundingBox int_arith normals_mesh = Some (@AlignedBox_empty int_arith)
      /\ @transform int_arith normals_mesh t (float_of_Z 2) = Some normals_mesh).
Proof.
  intros r0 t. split.
  - destruct (@no_position_no_result int_arith float2_mesh) as (Hp & Hd & Hb & Ht).
    + apply mkVertexDescription_map_built.
    + intros [_ Hf]. vm_compute in Hf. discriminate Hf.
    + split; [apply Hp |]. split; [apply Hd |]. split; [exact Hb | apply Ht].
  - destruct (@no_position_no_result int_arith normals_mesh) as (Hp & Hd & Hb & Ht).
    + apply mkVertexDescription_map_built.
    + intros [Hs _]. vm_compute in Hs. discriminate Hs.
    + split; [apply Hp |]. split; [apply Hd |]. split; [exact Hb | apply Ht].
Defined.

(** ** Appending fields to a layout *)

Lemma appended_stride (new : list VertexAttribute) (s : Z) :
  0 <= s -> s + format_sizes new < 2 ^ 32 ->
  fold_left (fun s it => wrap32 (s + getFormatSize (format it))) new s
  = s + format_sizes new.
Proof.
  revert s. induction new as [| a new IH]; intros s Hs Hsum; simpl in *; [lia |].
  pose proof (getFormatSize_range (format a)).
  assert (0 <= format_sizes new).
  { clear. induction new as [| b new IH]; simpl; [lia |].
    pose proof (getFormatSize_range (format b)). lia. }
  rewrite wrap32_small by lia. rewrite IH; lia.
Qed.

Lemma format_sizes_nonneg (l : list VertexAttribute) : 0 <= format_sizes l.
Proof.
  induction l as [| b l IH]; simpl; [lia |].
  pose proof (getFormatSize_range (format b)). lia.
Qed.

Lemma packed_from_bounds (l : list VertexAttribute) (base : Z) (a : VertexAttribute) :
  packed_from base l -> a ∈ l ->
  base <= offset a /\ offset a + getFormatSize (format a) <= base + format_sizes l.
Proof.
  revert base. induction l as [| b l IH]; intros base Hp Ha; [by apply elem_of_nil in Ha |].
  simpl in Hp. destruct Hp as [Hb Hp]. simpl.
  pose proof (getFormatSize_range (format b)).
  pose proof (format_sizes_nonneg l).
  apply elem_of_cons in Ha as [-> | Ha]; [lia |].
  destruct (IH _ Hp Ha). lia.
Qed.

Lemma filter_semantic_absent (l : list VertexAttribute) (s : VertexAttributeSemantic) :
  s ∉ semantic <$> l -> filter (fun b => semantic b = s) l = [].
Proof.
  intros Hs. destruct (filter _ l) as [| c l'] eqn:Hf; [done |].
  assert (Hc : c ∈ filter (fun b => semantic b = s) l)
    by (rewrite Hf; apply elem_of_cons; by left).
  apply list_elem_of_filter in Hc as [Heq Hc].
  exfalso. apply Hs. rewrite <- Heq. by apply list_elem_of_fmap_2.
Qed.

Lemma filter_semantic_NoDup (l : list VertexAttribute) (a : VertexAttribute) :
  NoDup (semantic <$> l) -> a ∈ l ->
  filter (fun b => semantic b = semantic a) l = [a].
Proof.
  induction l as [| b l IH]; intros Hnd Ha; [by apply elem_of_nil in Ha |].
  rewrite fmap_cons in Hnd. apply NoDup_cons in Hnd as [Hb Hnd].
  apply elem_of_cons in Ha as [-> | Ha].
  - rewrite filter_cons_True by done. f_equal.
    by apply filter_semantic_absent.
  - rewrite filter_cons_False; [by apply IH |].
    intros Heq. apply Hb. rewrite Heq. by apply list_elem_of_fmap_2.
Qed.

(** The two fields line expansion appends are laid out from the original
    stride on: NextPosition at the stride, ScaleFactor behind it. *)
Lemma newAttributes_packed (desc : VertexDescription) :
  0 <= stride desc < 2 ^ 31 - 16 ->
  packed_from (stride desc) (newAttributes desc)
  /\ (semantic <$> newAttributes desc) = [NextPosition; ScaleFactor]
  /\ format_sizes (newAttributes desc)
     = getFormatSize (format (getAttribute desc Position)) + 4.
Proof.
  intros Hs. unfold newAttributes.
  pose proof (getFormatSize_range (format (getAttribute desc Position))).
  rewrite (to_int_small (stride desc)) by lia.
  rewrite (to_int_small (getFormatSize _)) by lia.
  rewrite to_int_small by lia.
  rewrite !wrap32_small by lia.
  simpl. repeat split; lia.
Qed.

(** C8.  Appending fields to a layout gives the original fields followed
    by the new ones and a stride grown by the sizes of the new formats;
    every new field is the answer of the lookup for its semantic and every
    other lookup is answered as before; new fields laid out from the
    original stride on lie wholly behind the original record and inside
    the grown one; and the fields line expansion appends are laid out in
    this way. *)
Theorem appendingAttributes_layout (desc : VertexDescription)
    (new : list VertexAttribute) :
  map_built desc ->
  0 <= stride desc -> stride desc + format_sizes new < 2 ^ 32 ->
  NoDup (semantic <$> new) ->
  Forall (fun a => semantic a <> InvalidSemantic) new ->
  let desc' := appendingAttributes desc new in
  attributes desc' = attributes desc ++ new
  /\ stride desc' = stride desc + format_sizes new
  /\ (forall a, a ∈ new -> getAttribute desc' (semantic a) = a)
  /\ (forall s, s <> InvalidSemantic -> s ∉ semantic <$> new ->
        getAttribute desc' s = getAttribute desc s)
  /\ (packed_from (stride desc) new ->
      forall a, a ∈ new ->
        stride desc <= offset a
        /\ offset a + getFormatSize (format a) <= stride desc')
  /\ (new = newAttributes desc -> stride desc < 2 ^ 31 - 16 ->
      packed_from (stride desc) new).
Proof.
  intros Hb Hs Hsum Hnd Hval desc'.
  assert (Hstride : stride desc' = stride desc + format_sizes new).
  { subst desc'. unfold appendingAttributes. simpl. by apply appended_stride. }
  assert (Hb' : map_built desc')
    by apply mkVertexDescription_map_built.
  split; [done |]. split; [done |]. split; [| split; [| split]].
  - intros a Ha. rewrite Forall_forall in Hval.
    rewrite (getAttribute_current desc' (semantic a) Hb' (Hval a Ha)).
    subst desc'. unfold appendingAttributes, current_field. simpl.
    by rewrite filter_app, (filter_semantic_NoDup new a Hnd Ha), last_snoc.
  - intros s Hvs Hns.
    rewrite (getAttribute_current desc' s Hb' Hvs), (getAttribute_current desc s Hb Hvs).
    subst desc'. unfold appendingAttributes, current_field. simpl.
    by rewrite filter_app, (filter_semantic_absent new s Hns), app_nil_r.
  - intros Hp a Ha.
    destruct (packed_from_bounds new (stride desc) a Hp Ha) as [Hlo Hhi]. lia.
  - intros -> Hlt. apply newAttributes_packed. lia.
Qed.

Lemma appendingAttributes_layout_witness :
  let desc := mkVertexDescription 12 [mkVertexAttribute Position Float3 0] in
  let desc' := appendingAttributes desc (newAttributes desc) in
  stride desc' = 28
  /\ getAttribute desc' NextPosition = mkVertexAttribute NextPosition Float3 12
  /\ getAttribute desc' ScaleFactor = mkVertexAttribute ScaleFactor Float1 24
  /\ getAttribute desc' Position = mkVertexAttribute Position Float3 0
  /\ packed_from 12 (newAttributes desc).
Proof.
  intros desc desc'.
  destruct (appendingAttributes_layout desc (newAttributes desc))
    as (_ & Hst & Hnew & Hold & _ & Hpacked).
  - reflexivity.
  - simpl. lia.
  - vm_compute. reflexivity.
  - vm_compute. repeat constructor; intros Hx;
      repeat (apply elem_of_cons in Hx as [Hx | Hx]; [discriminate Hx |]);
      by apply elem_of_nil in Hx.
  - repeat constructor; discriminate.
  - split; [exact Hst |]. split; [| split; [| split]].
    + apply (Hnew (mkVertexAttribute NextPosition Float3 12)). vm_compute. by left.
    + apply (Hnew (mkVertexAttribute ScaleFactor Float1 24)). vm_compute. right. by left.
    + unfold desc'. rewrite (Hold Position); [reflexivity | discriminate |].
      vm_compute. intros Hx.
      repeat (apply elem_of_cons in Hx as [Hx | Hx]; [discriminate Hx |]);
      by apply elem_of_nil in Hx.
    + apply Hpacked; [reflexivity | simpl; lia].
Defined.

(** ** Raw vertex memory: reads and writes *)

Lemma read_bytes_inv (buf : buffer) (off n : Z) (bs : list byte) :
  read_bytes buf off n = Some bs ->
  0 <= off /\ 0 <= n /\ off + n <= Z.of_nat (length buf)
  /\ Z.of_nat (length bs) = n
  /\ (forall i : nat, (i < length bs)%nat -> bs !! i = buf !! (Z.to_nat off + i)%nat).
Proof.
  unfold read_bytes.
  destruct (Z.leb_spec 0 off); [| done]. destruct (Z.leb_spec 0 n); [| done].
  destruct (Z.leb_spec (off + n) (Z.of_nat (length buf))); [| done].
  simpl. intros [= <-]. repeat split; try lia.
  - rewrite length_take, length_drop. lia.
  - intros i Hi. rewrite length_take in Hi.
    rewrite lookup_take_lt by lia. by rewrite lookup_drop.
Qed.

Lemma read_bytes_ok (buf : buffer) (off n : Z) :
  0 <= off -> 0 <= n -> off + n <= Z.of_nat (length buf) ->
  exists bs, read_bytes buf off n = Some bs.
Proof.
  intros. unfold read_bytes.
  destruct (Z.leb_spec 0 off); [| lia]. destruct (Z.leb_spec 0 n); [| lia].
  destruct (Z.leb_spec (off + n) (Z.of_nat (length buf))); [| lia].
  simpl. eauto.
Qed.

(** Two buffers of one length that agree on a span read the same there. *)
Lemma read_bytes_ext (buf buf' : buffer) (off n : Z) :
  length buf' = length buf ->
  (forall p : nat, Z.to_nat off <= p < Z.to_nat off + Z.to_nat n -> buf' !! p = buf !! p)%nat ->
  read_bytes buf' off n = read_bytes buf off n.
Proof.
  intros Hlen Hag. unfold read_bytes. rewrite Hlen.
  destruct (Z.leb_spec 0 off); [| done]. destruct (Z.leb_spec 0 n); [| done].
  destruct (Z.leb_spec (off + n) (Z.of_nat (length buf))); [| done].
  simpl. f_equal. apply list_eq. intros i.
  destruct (decide (i < Z.to_nat n)%nat) as [Hi | Hi].
  - rewrite !lookup_take_lt by lia. rewrite !lookup_drop. apply Hag. lia.
  - rewrite !lookup_take_ge by lia. done.
Qed.

Lemma write_bytes_inv (buf : buffer) (off : Z) (bs : list byte) (buf' : buffer) :
  write_bytes buf off bs = Some buf' ->
  0 <= off /\ off + Z.of_nat (length bs) <= Z.of_nat (length buf)
  /\ length buf' = length buf
  /\ (forall i : nat, (i < length bs)%nat -> buf' !! (Z.to_nat off + i)%nat = bs !! i)
  /\ (forall p : nat, (p < Z.to_nat off \/ Z.to_nat off + length bs <= p)%nat ->
        buf' !! p = buf !! p).
Proof.
  unfold write_bytes.
  destruct (Z.leb_spec 0 off); [| done].
  destruct (Z.leb_spec (off + Z.of_nat (length bs)) (Z.of_nat (length buf))); [| done].
  simpl. intros [= <-]. repeat split; try lia.
  - rewrite !length_app, length_take, length_drop. lia.
  - intros i Hi. rewrite lookup_app_r; rewrite length_take; [| lia].
    rewrite lookup_app_l by lia. f_equal. lia.
  - intros p [Hp | Hp].
    + rewrite lookup_app_l by (rewrite length_take; lia).
      by rewrite lookup_take_lt.
    + rewrite lookup_app_r; rewrite length_take; [| lia].
      rewrite lookup_app_r by lia. rewrite lookup_drop. f_equal. lia.
Qed.

Lemma write_bytes_ok (buf : buffer) (off : Z) (bs : list byte) :
  0 <= off -> off + Z.of_nat (length bs) <= Z.of_nat (length buf) ->
  exists buf', write_bytes buf off bs = Some buf'.
Proof.
  intros. unfold write_bytes.
  destruct (Z.leb_spec 0 off); [| lia].
  destruct (Z.leb_spec (off + Z.of_nat (length bs)) (Z.of_nat (length buf))); [| lia].
  simpl. eauto.
Qed.

Lemma read_bytes_eq (buf : buffer) (off n : Z) (bs : list byte) :
  0 <= off -> Z.of_nat (length bs) = n -> off + n <= Z.of_nat (length buf) ->
  (forall i : nat, (i < length bs)%nat -> buf !! (Z.to_nat off + i)%nat = bs !! i) ->
  read_bytes buf off n = Some bs.
Proof.
  intros Hoff Hn Hlen Hbs.
  destruct (read_bytes_ok buf off n) as [bs' Hr]; [lia | lia | lia |].
  rewrite Hr. f_equal.
  destruct (read_bytes_inv _ _ _ _ Hr) as (_ & _ & _ & Hl & Hi).
  apply list_eq. intros i. destruct (decide (i < length bs)%nat) as [Hlt | Hge].
  - rewrite Hi by lia. by apply Hbs.
  - rewrite !lookup_ge_None_2; [done | lia | lia].
Qed.

(** Reading back what was written. *)
Lemma read_write_same (buf : buffer) (off : Z) (bs : list byte) (buf' : buffer) :
  write_bytes buf off bs = Some buf' ->
  read_bytes buf' off (Z.of_nat (length bs)) = Some bs.
Proof.
  intros Hw. destruct (write_bytes_inv _ _ _ _ Hw) as (H0 & H1 & Hl & Hin & _).
  apply read_bytes_eq; [lia | lia | lia | exact Hin].
Qed.

(** A write does not show in a span it does not touch. *)
Lemma read_write_other (buf : buffer) (off : Z) (bs : list byte) (buf' : buffer)
    (o n : Z) :
  write_bytes buf off bs = Some buf' ->
  o + n <= off \/ off + Z.of_nat (length bs) <= o ->
  read_bytes buf' o n = read_bytes buf o n.
Proof.
  intros Hw Hd. destruct (write_bytes_inv _ _ _ _ Hw) as (H0 & H1 & Hl & _ & Hout).
  destruct (Z.leb_spec 0 o) as [Ho | Ho];
    [| unfold read_bytes; destruct (Z.leb_spec 0 o); [lia | done]].
  destruct (Z.leb_spec 0 n) as [Hn | Hn];
    [| unfold read_bytes; destruct (Z.leb_spec 0 n); [lia | by rewrite andb_false_r]].
  apply read_bytes_ext; [done |]. intros p Hp. apply Hout. lia.
Qed.

(** Two adjacent spans read as one. *)
Lemma read_bytes_app (buf : buffer) (off n1 n2 : Z) (b1 b2 : list byte) :
  read_bytes buf off n1 = Some b1 -> read_bytes buf (off + n1) n2 = Some b2 ->
  read_bytes buf off (n1 + n2) = Some (b1 ++ b2).
Proof.
  intros H1 H2.
  destruct (read_bytes_inv _ _ _ _ H1) as (? & ? & ? & Hl1 & Hi1).
  destruct (read_bytes_inv _ _ _ _ H2) as (? & ? & ? & Hl2 & Hi2).
  apply read_bytes_eq; [lia | rewrite length_app; lia | lia |].
  intros i Hi. rewrite length_app in Hi.
  destruct (decide (i < length b1)%nat) as [Hlt | Hge].
  - rewrite lookup_app_l by lia. symmetry. by apply Hi1.
  - rewrite lookup_app_r by lia. rewrite Hi2 by lia. f_equal. lia.
Qed.

(** A span of a span. *)
Lemma read_bytes_sub (buf : buffer) (off n : Z) (bs : list byte) (o k : Z) :
  read_bytes buf off n = Some bs -> 0 <= o -> 0 <= k -> o + k <= n ->
  read_bytes buf (off + o) k = read_bytes bs o k.
Proof.
  intros Hr Ho Hk Hok.
  destruct (read_bytes_inv _ _ _ _ Hr) as (? & ? & ? & Hl & Hi).
  destruct (read_bytes_ok bs o k) as [c Hc]; [lia | lia | lia |].
  rewrite Hc. destruct (read_bytes_inv _ _ _ _ Hc) as (_ & _ & _ & Hlc & Hic).
  apply read_bytes_eq; [lia | lia | lia |].
  intros i Hlt. rewrite Hic by lia. rewrite Hi by lia. f_equal. lia.
Qed.

(** ** Floats and vectors in memory *)

Lemma float_of_bytes_bytes (x : float32) : float_of_bytes (float_bytes x) = Some x.
Proof. by destruct x. Qed.

Lemma float_of_bytes_Some (bs : list byte) :
  length bs = 4%nat -> exists x, float_of_bytes bs = Some x /\ float_bytes x = bs.
Proof.
  intros Hl. do 5 (destruct bs as [| ? bs]; try done).
  eexists. split; reflexivity.
Qed.

Lemma vec3_bytes_length (v : Vector3f) : length (vec3_bytes v) = 12%nat.
Proof. by destruct v as [[x y] z]. Qed.

Lemma vec3_of_bytes_bytes (v : Vector3f) : vec3_of_bytes (vec3_bytes v) = Some v.
Proof. by destruct v as [[[] []] []]. Qed.

Lemma vec3_of_bytes_Some (bs : list byte) :
  length bs = 12%nat -> exists v, vec3_of_bytes bs = Some v /\ vec3_bytes v = bs.
Proof.
  intros Hl. do 13 (destruct bs as [| ? bs]; try done).
  eexists. split; [reflexivity |]. reflexivity.
Qed.

Lemma on_float_length (g : float32 -> float32) (bs : list byte) :
  length (on_float g bs) = length bs.
Proof.
  unfold on_float. destruct (float_of_bytes bs) as [x |] eqn:Hx; [| done].
  do 5 (destruct bs as [| ? bs]; try done).
Qed.

Lemma on_vec3_length (g : Vector3f -> Vector3f) (bs : list byte) :
  length (on_vec3 g bs) = length bs.
Proof.
  unfold on_vec3. destruct (vec3_of_bytes bs) as [v |] eqn:Hv; [| done].
  rewrite vec3_bytes_length.
  do 13 (destruct bs as [| ? bs]; try done).
Qed.

(** A vector read is a read of twelve bytes. *)
Lemma read_vec3_bytes (buf : buffer) (off : Z) :
  read_vec3 buf off = read_bytes buf off 12 ≫= vec3_of_bytes.
Proof.
  unfold read_vec3, read_float.
  destruct (read_bytes buf off 12) as [bs |] eqn:Hr.
  - destruct (read_bytes_inv _ _ _ _ Hr) as (? & _ & ? & Hl & _).
    pose proof (read_bytes_sub buf off 12 bs 0 4 Hr) as Hx.
    pose proof (read_bytes_sub buf off 12 bs 4 4 Hr) as Hy.
    pose proof (read_bytes_sub buf off 12 bs 8 4 Hr) as Hz.
    rewrite Z.add_0_r in Hx.
    rewrite Hx by lia. rewrite Hy by lia. rewrite Hz by lia.
    do 13 (destruct bs as [| ? bs]; try done). simpl in Hl. lia.
  - unfold read_bytes in *.
    destruct (Z.leb_spec 0 off); [| done]. simpl in *.
    destruct (Z.leb_spec (off + 12) (Z.of_nat (length buf))); [done |].
    destruct (Z.leb_spec 0 (off + 4)); [| lia].
    destruct (Z.leb_spec 0 (off + 8)); [| lia].
    destruct (Z.leb_spec (off + 8 + 4) (Z.of_nat (length buf))); [lia |].
    simpl.
    destruct (if off + 4 <=? _ then _ else _) as [b1 |]; simpl; [| done].
    destruct (float_of_bytes b1); simpl; [| done].
    destruct (if off + 4 + 4 <=? _ then _ else _) as [b2 |]; simpl; [| done].
    by destruct (float_of_bytes b2).
Qed.

Lemma read_vec3_of_bytes (buf : buffer) (off : Z) (v : Vector3f) :
  read_bytes buf off 12 = Some (vec3_bytes v) -> read_vec3 buf off = Some v.
Proof. intros Hr. rewrite read_vec3_bytes, Hr. simpl. apply vec3_of_bytes_bytes. Qed.

Lemma read_float_of_bytes (buf : buffer) (off : Z) (x : float32) :
  read_bytes buf off 4 = Some (float_bytes x) -> read_float buf off = Some x.
Proof. intros Hr. unfold read_float. rewrite Hr. simpl. apply float_of_bytes_bytes. Qed.

(** ** The loop over one field of every record *)

Lemma field_loop_spec (f : list byte -> list byte) (stride_ len : Z) (n : nat) :
  (forall bs, length (f bs) = length bs) ->
  0 <= len <= stride_ ->
  forall (buf : buffer) (vdata : Z),
    0 <= vdata ->
    vdata + Z.of_nat n * stride_ <= Z.of_nat (length buf) + (stride_ - len) ->
    exists buf',
      field_loop n buf vdata stride_ len f = Some buf'
      /\ length buf' = length buf
      /\ (forall k, 0 <= k < Z.of_nat n ->
            exists bs, read_bytes buf (vdata + k * stride_) len = Some bs
                       /\ read_bytes buf' (vdata + k * stride_) len = Some (f bs))
      /\ (forall p : nat,
            (forall k, 0 <= k < Z.of_nat n ->
               ~ (vdata + k * stride_ <= Z.of_nat p < vdata + k * stride_ + len)) ->
            buf' !! p = buf !! p).
Proof.
  intros Hf Hlen. induction n as [| n IH]; intros buf vdata Hv Hfit.
  - exists buf. split; [done |]. split; [done |].
    split; [intros k Hk; lia | done].
  - simpl.
    destruct (read_bytes_ok buf vdata len) as [bs Hr]; [lia | lia | nia |].
    rewrite Hr. simpl.
    destruct (read_bytes_inv _ _ _ _ Hr) as (_ & _ & _ & Hl & _).
    destruct (write_bytes_ok buf vdata (f bs)) as [buf1 Hw];
      [lia | rewrite Hf; nia |].
    rewrite Hw. simpl.
    destruct (write_bytes_inv _ _ _ _ Hw) as (_ & _ & Hl1 & _ & Hout).
    destruct (IH buf1 (vdata + stride_)) as (buf' & Hloop & Hl' & Hfield & Hframe);
      [lia | rewrite Hl1; nia |].
    exists buf'. split; [exact Hloop |]. split; [congruence |]. split.
    + intros k Hk. destruct (Z.eq_dec k 0) as [-> | Hk0].
      * exists bs. rewrite Z.mul_0_l, Z.add_0_r. split; [exact Hr |].
        rewrite <- (read_write_same _ _ _ _ Hw), Hf, Hl.
        apply read_bytes_ext; [exact Hl' |].
        intros p Hp. apply Hframe. intros j Hj. nia.
      * destruct (Hfield (k - 1)) as (bs' & Hr' & Hr''); [lia |].
        replace (vdata + stride_ + (k - 1) * stride_) with (vdata + k * stride_)
          in Hr', Hr'' by lia.
        exists bs'. split; [| exact Hr''].
        rewrite <- Hr'. symmetry.
        apply (read_write_other _ _ _ _ _ _ Hw). rewrite Hf. right. nia.
    + intros p Hp. rewrite Hframe.
      * apply Hout. specialize (Hp 0). rewrite Hf. lia.
      * intros j Hj. specialize (Hp (j + 1)). nia.
Qed.

Lemma read_vec3_ok (buf : buffer) (off : Z) :
  0 <= off -> off + 12 <= Z.of_nat (length buf) -> exists v, read_vec3 buf off = Some v.
Proof.
  intros H0 H1. rewrite read_vec3_bytes.
  destruct (read_bytes_ok buf off 12) as [bs Hr]; [lia | lia | lia |].
  rewrite Hr. simpl.
  destruct (read_bytes_inv _ _ _ _ Hr) as (_ & _ & _ & Hl & _).
  destruct (vec3_of_bytes_Some bs) as (v & Hv & _); [lia |]. eauto.
Qed.

Lemma read_vec3_ext (buf buf' : buffer) (off : Z) :
  length buf' = length buf ->
  (forall p : nat, off <= Z.of_nat p < off + 12 -> buf' !! p = buf !! p) ->
  read_vec3 buf' off = read_vec3 buf off.
Proof.
  intros Hl Hp. rewrite !read_vec3_bytes.
  destruct (Z.leb_spec 0 off) as [Ho | Ho].
  - rewrite (read_bytes_ext buf buf'); [done | done |]. intros p Hlt. apply Hp. lia.
  - unfold read_bytes. destruct (Z.leb_spec 0 off); [lia | done].
Qed.

Lemma write_vec3_inv (buf : buffer) (off : Z) (v : Vector3f) (buf' : buffer) :
  write_vec3 buf off v = Some buf' ->
  length buf' = length buf
  /\ read_vec3 buf' off = Some v
  /\ (forall p : nat, ~ (off <= Z.of_nat p < off + 12) -> buf' !! p = buf !! p).
Proof.
  unfold write_vec3. intros Hw.
  destruct (write_bytes_inv _ _ _ _ Hw) as (H0 & H1 & Hl & _ & Hout).
  rewrite vec3_bytes_length in *.
  split; [exact Hl |]. split.
  - apply read_vec3_of_bytes. pose proof (read_write_same _ _ _ _ Hw) as Hr.
    by rewrite vec3_bytes_length in Hr.
  - intros p Hp. apply Hout. lia.
Qed.

Lemma write_vec3_ok (buf : buffer) (off : Z) (v : Vector3f) :
  0 <= off -> off + 12 <= Z.of_nat (length buf) ->
  exists buf', write_vec3 buf off v = Some buf'.
Proof.
  intros. apply write_bytes_ok; [lia |]. rewrite vec3_bytes_length. lia.
Qed.

(** ** [transform] *)

Section Transform.
Context `{FloatArith}.

Lemma transform_positions_field_loop (translation : Vector3f) (scale : float32)
    (stride_ : Z) (n : nat) (buf : buffer) (vdata : Z) :
  transform_positions n buf vdata stride_ translation scale
  = field_loop n buf vdata stride_ 12 (on_vec3 (transform_point translation scale)).
Proof.
  revert buf vdata. induction n as [| n IH]; intros buf vdata; [done |].
  simpl. rewrite read_vec3_bytes.
  destruct (read_bytes buf vdata 12) as [bs |] eqn:Hr; [| done]. simpl.
  destruct (read_bytes_inv _ _ _ _ Hr) as (_ & _ & _ & Hl & _).
  destruct (vec3_of_bytes_Some bs) as (v & Hv & _); [lia |].
  unfold on_vec3. rewrite Hv. simpl. unfold write_vec3.
  destruct (write_bytes buf vdata _) as [buf1 |]; [| done]. simpl. apply IH.
Qed.

Lemma transform_pointsizes_field_loop (scale : float32)
    (stride_ : Z) (n : nat) (buf : buffer) (vdata : Z) :
  transform_pointsizes n buf vdata stride_ scale
  = field_loop n buf vdata stride_ 4 (on_float (fun x => fmul x scale)).
Proof.
  revert buf vdata. induction n as [| n IH]; intros buf vdata; [done |].
  simpl. unfold read_float.
  destruct (read_bytes buf vdata 4) as [bs |] eqn:Hr; [| done]. simpl.
  destruct (read_bytes_inv _ _ _ _ Hr) as (_ & _ & _ & Hl & _).
  destruct (float_of_bytes_Some bs) as (v & Hv & _); [lia |].
  unfold on_float. rewrite Hv. simpl. unfold write_float.
  destruct (write_bytes buf vdata _) as [buf1 |]; [| done]. simpl. apply IH.
Qed.

(** The loop over the vertices of an override buffer: both fields of
    every record are transformed, and no byte outside them changes. *)
Lemma transform_override_spec (translation : Vector3f) (scale : float32)
    (stride_ po npo : Z) (n : nat) :
  0 <= po -> po + 12 <= stride_ -> 0 <= npo -> npo + 12 <= stride_ ->
  po + 12 <= npo \/ npo + 12 <= po ->
  forall (buf : buffer) (vdata : Z),
    0 <= vdata -> vdata + Z.of_nat n * stride_ <= Z.of_nat (length buf) ->
    exists buf',
      transform_override n buf vdata stride_ po npo translation scale = Some buf'
      /\ length buf' = length buf
      /\ (forall k, 0 <= k < Z.of_nat n ->
            exists v w,
              read_vec3 buf (vdata + k * stride_ + po) = Some v
              /\ read_vec3 buf (vdata + k * stride_ + npo) = Some w
              /\ read_vec3 buf' (vdata + k * stride_ + po)
                 = Some (transform_point translation scale v)
              /\ read_vec3 buf' (vdata + k * stride_ + npo)
                 = Some (transform_point translation scale w))
      /\ (forall p : nat,
            Z.of_nat p < vdata \/ vdata + Z.of_nat n * stride_ <= Z.of_nat p ->
            buf' !! p = buf !! p).
Proof.
  intros Hpo Hpo' Hnpo Hnpo' Hdis. induction n as [| n IH]; intros buf vdata Hv Hfit.
  - exists buf. split; [done |]. split; [done |].
    split; [intros k Hk; lia | done].
  - simpl.
    destruct (read_vec3_ok buf (vdata + po)) as [v Hrv]; [lia | nia |].
    destruct (read_vec3_ok buf (vdata + npo)) as [w Hrw]; [lia | nia |].
    rewrite Hrv. simpl.
    destruct (write_vec3_ok buf (vdata + po) (transform_point translation scale v))
      as [buf1 Hw1]; [lia | nia |].
    rewrite Hw1. simpl.
    destruct (write_vec3_inv _ _ _ _ Hw1) as (Hl1 & Hs1 & Ho1).
    assert (Hrw1 : read_vec3 buf1 (vdata + npo) = Some w).
    { rewrite <- Hrw. apply read_vec3_ext; [done |]. intros p Hp. apply Ho1. lia. }
    rewrite Hrw1. simpl.
    destruct (write_vec3_ok buf1 (vdata + npo) (transform_point translation scale w))
      as [buf2 Hw2]; [lia | rewrite Hl1; nia |].
    rewrite Hw2. simpl.
    destruct (write_vec3_inv _ _ _ _ Hw2) as (Hl2 & Hs2 & Ho2).
    destruct (IH buf2 (vdata + stride_)) as (buf' & Hloop & Hl' & Hfield & Hframe);
      [lia | rewrite Hl2, Hl1; nia |].
    exists buf'. split; [exact Hloop |]. split; [congruence |]. split.
    + intros k Hk. destruct (Z.eq_dec k 0) as [-> | Hk0].
      * exists v, w. rewrite Z.mul_0_l, Z.add_0_r.
        split; [exact Hrv |]. split; [exact Hrw |]. split.
        -- rewrite <- Hs1.
           transitivity (read_vec3 buf2 (vdata + po)).
           ++ apply read_vec3_ext; [done |]. intros p Hp. apply Hframe. lia.
           ++ apply read_vec3_ext; [done |]. intros p Hp. apply Ho2. lia.
        -- rewrite <- Hs2.
           apply read_vec3_ext; [done |]. intros p Hp. apply Hframe. lia.
      * destruct (Hfield (k - 1)) as (v' & w' & Hv' & Hw' & Hv'' & Hw''); [lia |].
        replace (vdata + stride_ + (k - 1) * stride_) with (vdata + k * stride_)
          in Hv', Hw', Hv'', Hw'' by lia.
        exists v', w'. split; [| split; [| split; [exact Hv'' | exact Hw'']]].
        -- rewrite <- Hv'. symmetry.
           transitivity (read_vec3 buf1 (vdata + k * stride_ + po)).
           ++ apply read_vec3_ext; [done |]. intros p Hp. apply Ho2. nia.
           ++ apply read_vec3_ext; [done |]. intros p Hp. apply Ho1. nia.
        -- rewrite <- Hw'. symmetry.
           transitivity (read_vec3 buf1 (vdata + k * stride_ + npo)).
           ++ apply read_vec3_ext; [done |]. intros p Hp. apply Ho2. nia.
           ++ apply read_vec3_ext; [done |]. intros p Hp. apply Ho1. nia.
    + intros p Hp. rewrite Hframe by nia. rewrite Ho2 by nia. apply Ho1. nia.
Qed.

End Transform.

(** Two fields that lie inside the record clear of each other share no
    byte, whichever records they are taken from. *)
Lemma fields_apart (S a la b lb i k p : Z) :
  0 <= a -> a + la <= S -> 0 <= b -> b + lb <= S ->
  a + la <= b \/ b + lb <= a ->
  i * S + a <= p < i * S + a + la ->
  ~ (b + k * S <= p < b + k * S + lb).
Proof.
  intros Ha Ha' Hb Hb' Hdis Hp Hq.
  destruct (Z.lt_trichotomy i k) as [Hlt | [-> | Hgt]].
  - assert (i * S + S <= k * S) by nia. lia.
  - lia.
  - assert (k * S + S <= i * S) by nia. lia.
Qed.

Section TransformSpec.
Context `{FloatArith}.

(** The loop over the positions, in terms of the vectors read. *)
Lemma transform_positions_spec (translation : Vector3f) (scale : float32)
    (stride_ : Z) (n : nat) (buf : buffer) (vdata : Z) :
  12 <= stride_ -> 0 <= vdata ->
  vdata + Z.of_nat n * stride_ <= Z.of_nat (length buf) + (stride_ - 12) ->
  exists buf',
    transform_positions n buf vdata stride_ translation scale = Some buf'
    /\ length buf' = length buf
    /\ (forall k, 0 <= k < Z.of_nat n ->
          exists v, read_vec3 buf (vdata + k * stride_) = Some v
                    /\ read_vec3 buf' (vdata + k * stride_)
                       = Some (transform_point translation scale v))
    /\ (forall p : nat,
          (forall k, 0 <= k < Z.of_nat n ->
             ~ (vdata + k * stride_ <= Z.of_nat p < vdata + k * stride_ + 12)) ->
          buf' !! p = buf !! p).
Proof.
  intros Hs Hv Hfit. rewrite transform_positions_field_loop.
  destruct (field_loop_spec (on_vec3 (transform_point translation scale)) stride_ 12 n
              (on_vec3_length _) ltac:(lia) buf vdata Hv Hfit)
    as (buf' & Hloop & Hl & Hfield & Hframe).
  exists buf'. split; [exact Hloop |]. split; [exact Hl |]. split; [| exact Hframe].
  intros k Hk. destruct (Hfield k Hk) as (bs & Hr & Hr').
  destruct (read_bytes_inv _ _ _ _ Hr) as (_ & _ & _ & Hlen & _).
  destruct (vec3_of_bytes_Some bs) as (v & Hvb & Hbv); [lia |].
  exists v. split.
  - apply read_vec3_of_bytes. by rewrite Hbv.
  - apply read_vec3_of_bytes. rewrite Hr'. unfold on_vec3. by rewrite Hvb.
Qed.

(** The loop over the point sizes, in terms of the floats read. *)
Lemma transform_pointsizes_spec (scale : float32)
    (stride_ : Z) (n : nat) (buf : buffer) (vdata : Z) :
  4 <= stride_ -> 0 <= vdata ->
  vdata + Z.of_nat n * stride_ <= Z.of_nat (length buf) + (stride_ - 4) ->
  exists buf',
    transform_pointsizes n buf vdata stride_ scale = Some buf'
    /\ length buf' = length buf
    /\ (forall k, 0 <= k < Z.of_nat n ->
          exists x, read_float buf (vdata + k * stride_) = Some x
                    /\ read_float buf' (vdata + k * stride_) = Some (fmul x scale))
    /\ (forall p : nat,
          (forall k, 0 <= k < Z.of_nat n ->
             ~ (vdata + k * stride_ <= Z.of_nat p < vdata + k * stride_ + 4)) ->
          buf' !! p = buf !! p).
Proof.
  intros Hs Hv Hfit. rewrite transform_pointsizes_field_loop.
  destruct (field_loop_spec (on_float (fun x => fmul x scale)) stride_ 4 n
              (on_float_length _) ltac:(lia) buf vdata Hv Hfit)
    as (buf' & Hloop & Hl & Hfield & Hframe).
  exists buf'. split; [exact Hloop |]. split; [exact Hl |]. split; [| exact Hframe].
  intros k Hk. destruct (Hfield k Hk) as (bs & Hr & Hr').
  destruct (read_bytes_inv _ _ _ _ Hr) as (_ & _ & _ & Hlen & _).
  destruct (float_of_bytes_Some bs) as (x & Hxb & Hbx); [lia |].
  exists x. split.
  - apply read_float_of_bytes. by rewrite Hbx.
  - apply read_float_of_bytes. rewrite Hr'. unfold on_float. by rewrite Hxb.
Qed.

Lemma transform_group_spec (translation : Vector3f) (scale : float32)
    (g : PrimitiveGroup) :
  override_wf g ->
  exists g', transform_group translation scale g = Some g'
             /\ transformed_group translation scale g g'.
Proof.
  unfold override_wf, transform_group, transformed_group.
  destruct (vertexOverride g) as [buf |] eqn:Hov.
  - intros (Hc & Hlen & Hst & Hpo & Hpo' & Hnpo & Hnpo' & Hdis).
    rewrite !to_int_small by lia.
    destruct (transform_override_spec translation scale
                (stride (vertexDescriptionOverride g))
                (offset (getAttribute (vertexDescriptionOverride g) Position))
                (offset (getAttribute (vertexDescriptionOverride g) NextPosition))
                (Z.to_nat (vertexCountOverride g)) Hpo Hpo' Hnpo Hnpo' Hdis buf 0)
      as (buf' & Hloop & Hl & Hfield & _); [lia | lia |].
    rewrite Hloop. simpl. eexists. split; [reflexivity |]. simpl.
    repeat split. exists buf'. split; [done |]. split; [done |].
    intros j Hj. destruct (Hfield j) as (v & w & Hv & Hw & Hv' & Hw'); [lia |].
    rewrite !Z.add_0_l in *. by exists v, w.
  - intros _. exists g. rewrite Hov. by repeat split.
Qed.

Lemma transform_groups_spec (translation : Vector3f) (scale : float32)
    (gs : list PrimitiveGroup) :
  Forall override_wf gs ->
  exists gs', mapM (transform_group translation scale) gs = Some gs'
              /\ Forall2 (transformed_group translation scale) gs gs'.
Proof.
  induction 1 as [| g gs Hg _ IH].
  - exists []. split; [done | constructor].
  - destruct IH as (gs' & Hm & Hf).
    destruct (transform_group_spec translation scale g Hg) as (g' & Hg' & Ht).
    exists (g' :: gs'). simpl. rewrite Hg'. simpl. rewrite Hm. simpl.
    split; [done | by constructor].
Qed.


End TransformSpec.


(** ** Line expansion *)

Section LineExpansion.
Context `{FloatArith}.

Lemma float_bytes_length (x : float32) : length (float_bytes x) = 4%nat.
Proof. reflexivity. Qed.

(** One output vertex: three adjacent writes that fill its record. *)
Lemma emit_line_vertex_spec (vs : buffer) (os po psz origLoc otherLoc : Z)
    (scale : float32) (ptr : Z) (data : buffer) (rec pos : list byte) :
  read_bytes vs origLoc os = Some rec ->
  read_bytes vs (otherLoc + po) psz = Some pos ->
  os + psz < 2 ^ 31 ->
  0 <= ptr -> ptr + (os + psz + 4) <= Z.of_nat (length data) ->
  exists data',
    emit_line_vertex vs os po psz origLoc otherLoc scale ptr data = Some data'
    /\ length data' = length data
    /\ read_bytes data' ptr (os + psz + 4) = Some (rec ++ pos ++ float_bytes scale)
    /\ (forall p : nat,
          Z.of_nat p < ptr \/ ptr + (os + psz + 4) <= Z.of_nat p ->
          data' !! p = data !! p).
Proof.
  intros Hrec Hpos Hint Hptr Hfit. unfold emit_line_vertex.
  destruct (read_bytes_inv _ _ _ _ Hrec) as (_ & Hos & _ & Hlrec & _).
  destruct (read_bytes_inv _ _ _ _ Hpos) as (_ & Hpsz & _ & Hlpos & _).
  rewrite Hrec. simpl.
  destruct (write_bytes_ok data ptr rec) as [d1 Hw1]; [lia | lia |].
  rewrite Hw1. simpl. rewrite Hpos. simpl.
  destruct (write_bytes_inv _ _ _ _ Hw1) as (_ & _ & Hl1 & _ & Ho1).
  destruct (write_bytes_ok d1 (ptr + os) pos) as [d2 Hw2]; [lia | lia |].
  rewrite Hw2. simpl.
  destruct (write_bytes_inv _ _ _ _ Hw2) as (_ & _ & Hl2 & _ & Ho2).
  rewrite to_int_small by lia. unfold write_float.
  destruct (write_bytes_ok d2 (ptr + (os + psz)) (float_bytes scale)) as [d3 Hw3];
    [lia | rewrite float_bytes_length; lia |].
  rewrite Hw3.
  destruct (write_bytes_inv _ _ _ _ Hw3) as (_ & _ & Hl3 & _ & Ho3).
  exists d3. split; [done |]. split; [congruence |]. split.
  - replace (os + psz + 4) with (os + (psz + 4)) by lia.
    apply read_bytes_app; [| apply read_bytes_app].
    + rewrite (read_write_other _ _ _ _ ptr os Hw3) by lia.
      rewrite (read_write_other _ _ _ _ ptr os Hw2) by lia.
      rewrite <- Hlrec. apply (read_write_same _ _ _ _ Hw1).
    + rewrite (read_write_other _ _ _ _ (ptr + os) psz Hw3) by lia.
      rewrite <- Hlpos. apply (read_write_same _ _ _ _ Hw2).
    + replace (ptr + os + psz) with (ptr + (os + psz)) by lia.
      apply (read_write_same _ _ _ _ Hw3).
  - intros p Hp. rewrite float_bytes_length in Ho3.
    rewrite Ho3 by lia. rewrite Ho2 by lia. apply Ho1. lia.
Qed.

End LineExpansion.

Section LineLoop.
Context `{FloatArith}.

(** A read survives the changes of a buffer that leave its span alone. *)
Lemma read_bytes_kept (buf buf' : buffer) (off n : Z) (bs : list byte)
    (lo hi : Z) :
  read_bytes buf off n = Some bs ->
  length buf' = length buf ->
  (forall p : nat, Z.of_nat p < lo \/ hi <= Z.of_nat p -> buf' !! p = buf !! p) ->
  off + n <= lo \/ hi <= off ->
  read_bytes buf' off n = Some bs.
Proof.
  intros Hr Hl Hframe Hdis. rewrite <- Hr.
  destruct (read_bytes_inv _ _ _ _ Hr) as (? & ? & _).
  apply read_bytes_ext; [done |]. intros p Hp. apply Hframe. lia.
Qed.

(** The bounds segment [i] needs, drawn from the input conditions. *)
Lemma segment_ends_ok (m : Mesh) (lineStrip : bool) (inds : list Z) (i : Z) :
  line_input_wf m lineStrip inds ->
  0 <= i < (if lineStrip then Z.of_nat (length inds) - 1
            else Z.of_nat (length inds) / 2) ->
  exists this other,
    segment_ends lineStrip inds i = Some (this, other)
    /\ 0 <= this < nVertices m /\ 0 <= other < nVertices m.
Proof.
  intros (_ & _ & _ & _ & _ & _ & Hall & _) Hi.
  rewrite Forall_forall in Hall.
  pose proof (Z.mul_div_le (Z.of_nat (length inds)) 2 ltac:(lia)) as Hdiv.
  assert (Hab : 0 <= (if lineStrip then i else 2 * i)
                /\ (if lineStrip then i + 1 else 2 * i + 1) < Z.of_nat (length inds)).
  { destruct lineStrip; lia. }
  destruct (vector_at_Some inds (if lineStrip then i else 2 * i))
    as (a & Ha & Hla); [destruct lineStrip; lia |].
  destruct (vector_at_Some inds (if lineStrip then i + 1 else 2 * i + 1))
    as (b & Hb & Hlb); [destruct lineStrip; lia |].
  exists a, b. unfold segment_ends. rewrite Ha, Hb. simpl.
  split; [done |]. split; apply Hall; by eapply list_elem_of_lookup_2.
Qed.

Lemma line_vertex_ok (m : Mesh) (lineStrip : bool) (inds : list Z)
    (this other : Z) (scale : float32) :
  line_input_wf m lineStrip inds ->
  0 <= this < nVertices m -> 0 <= other < nVertices m ->
  exists rec pos,
    read_bytes (vertices m) (this * stride (vertexDesc m)) (stride (vertexDesc m))
    = Some rec
    /\ read_bytes (vertices m)
         (other * stride (vertexDesc m) + offset (getAttribute (vertexDesc m) Position))
         (getFormatSize (format (getAttribute (vertexDesc m) Position)))
       = Some pos
    /\ line_vertex m this other scale = Some (rec ++ pos ++ float_bytes scale).
Proof.
  intros (Hos & Hpo & Hpo' & Hnv & Hlen & _) Ha Hb.
  pose proof (getFormatSize_range (format (getAttribute (vertexDesc m) Position))).
  destruct (read_bytes_ok (vertices m) (this * stride (vertexDesc m))
              (stride (vertexDesc m))) as [rec Hrec]; [nia | lia | nia |].
  destruct (read_bytes_ok (vertices m)
              (other * stride (vertexDesc m)
               + offset (getAttribute (vertexDesc m) Position))
              (getFormatSize (format (getAttribute (vertexDesc m) Position))))
    as [pos Hpos]; [nia | lia | nia |].
  exists rec, pos. split; [done |]. split; [done |].
  unfold line_vertex. rewrite Hrec. simpl. rewrite Hpos. done.
Qed.

(** One turn of the loop: the four vertices of segment [i] are stored
    from [ptr] on, thisEnd twice and otherEnd twice, each with the other
    end's position and the scale factors -0.5 and 0.5; six indices are
    pushed; nothing else in the array changes. *)
Lemma line_segment_spec (m : Mesh) (lineStrip : bool) (inds : list Z)
    (i ptr : Z) (data : buffer) (newIndices : list Z) :
  let desc := vertexDesc m in
  let pa := getAttribute desc Position in
  let S := stride desc + getFormatSize (format pa) + 4 in
  line_input_wf m lineStrip inds ->
  0 <= i < (if lineStrip then Z.of_nat (length inds) - 1
            else Z.of_nat (length inds) / 2) ->
  0 <= ptr -> ptr + 4 * S <= Z.of_nat (length data) ->
  exists this other v0 v1 v2 v3 data',
    segment_ends lineStrip inds i = Some (this, other)
    /\ line_vertex m this other float_neg_half = Some v0
    /\ line_vertex m this other float_half = Some v1
    /\ line_vertex m other this float_neg_half = Some v2
    /\ line_vertex m other this float_half = Some v3
    /\ line_segment (vertices m) lineStrip inds (stride desc) (offset pa)
         (getFormatSize (format pa)) S i ptr data newIndices
       = Some (ptr + 4 * S, data', newIndices ++ quad_indices i)
    /\ length data' = length data
    /\ read_bytes data' ptr S = Some v0
    /\ read_bytes data' (ptr + S) S = Some v1
    /\ read_bytes data' (ptr + 2 * S) S = Some v2
    /\ read_bytes data' (ptr + 3 * S) S = Some v3
    /\ (forall p : nat,
          Z.of_nat p < ptr \/ ptr + 4 * S <= Z.of_nat p -> data' !! p = data !! p).
Proof.
  intros desc pa S Hwf Hi Hptr Hfit.
  destruct (segment_ends_ok m lineStrip inds i Hwf Hi) as (a & b & Hends & Ha & Hb).
  destruct (line_vertex_ok m lineStrip inds a b float_neg_half Hwf Ha Hb)
    as (ra & pb & Hra & Hpb & Hv0).
  destruct (line_vertex_ok m lineStrip inds a b float_half Hwf Ha Hb)
    as (ra' & pb' & Hra' & Hpb' & Hv1).
  destruct (line_vertex_ok m lineStrip inds b a float_neg_half Hwf Hb Ha)
    as (rb & pa_ & Hrb & Hpa & Hv2).
  destruct (line_vertex_ok m lineStrip inds b a float_half Hwf Hb Ha)
    as (rb' & pa' & Hrb' & Hpa' & Hv3).
  rewrite Hra in Hra'. injection Hra' as <-. rewrite Hpb in Hpb'. injection Hpb' as <-.
  rewrite Hrb in Hrb'. injection Hrb' as <-. rewrite Hpa in Hpa'. injection Hpa' as <-.
  destruct Hwf as (Hos & Hpo & Hpo' & Hnv & Hlen & Hsz & Hall & Hstrip & HS31 & Hout).
  fold desc in Hos, Hpo, Hpo', Hlen, Hsz, Hout, Hra, Hpb, Hrb, Hpa.
  fold desc in HS31. fold pa in Hpo, Hpo', Hout, Hpb, Hpa, HS31. fold S in Hout, HS31.
  pose proof (getFormatSize_range (format pa)) as Hpsz.
  assert (HS : 4 <= S) by (unfold S; lia).
  pose proof (Z.mul_div_le (Z.of_nat (length inds)) 2 ltac:(lia)) as Hdiv.
  assert (Hlc : 0 <= i < 2 ^ 27).
  { assert (4 * (i + 1) * 4 <= 4 * (i + 1) * S) by nia.
    assert (4 * (i + 1) * S
            <= 4 * (if lineStrip then Z.of_nat (length inds) - 1
                    else Z.of_nat (length inds) / 2) * S) by nia.
    lia. }
  exists a, b, (ra ++ pb ++ float_bytes float_neg_half),
    (ra ++ pb ++ float_bytes float_half),
    (rb ++ pa_ ++ float_bytes float_neg_half),
    (rb ++ pa_ ++ float_bytes float_half).
  unfold line_segment.
  assert (Hia : vector_at inds (if lineStrip then i else to_int (i * 2)) = Some a
                /\ vector_at inds (if lineStrip then to_int (i + 1)
                                   else to_int (to_int (i * 2) + 1)) = Some b).
  { unfold segment_ends in Hends. rewrite !to_int_small by lia.
    replace (i * 2) with (2 * i) by lia.
    destruct (vector_at inds (if lineStrip then i else 2 * i)) as [a' |]; [| done].
    destruct (vector_at inds (if lineStrip then i + 1 else 2 * i + 1)) as [b' |];
      [| done].
    simpl in Hends. by injection Hends as -> ->. }
  destruct Hia as [-> ->]. simpl.
  rewrite (to_int_small a), (to_int_small b) by lia.
  rewrite (to_int_small (a * stride desc)), (to_int_small (b * stride desc)) by nia.
  destruct (emit_line_vertex_spec (vertices m) (stride desc) (offset pa)
              (getFormatSize (format pa)) (a * stride desc) (b * stride desc)
              float_neg_half ptr data ra pb Hra Hpb)
    as (d1 & -> & Hl1 & Hr1 & Hf1); [nia | lia | fold S; lia |].
  simpl.
  destruct (emit_line_vertex_spec (vertices m) (stride desc) (offset pa)
              (getFormatSize (format pa)) (a * stride desc) (b * stride desc)
              float_half (ptr + S) d1 ra pb Hra Hpb)
    as (d2 & -> & Hl2 & Hr2 & Hf2); [nia | lia | fold S; lia |].
  simpl.
  destruct (emit_line_vertex_spec (vertices m) (stride desc) (offset pa)
              (getFormatSize (format pa)) (b * stride desc) (a * stride desc)
              float_neg_half (ptr + S + S) d2 rb pa_ Hrb Hpa)
    as (d3 & -> & Hl3 & Hr3 & Hf3); [nia | lia | fold S; lia |].
  simpl.
  destruct (emit_line_vertex_spec (vertices m) (stride desc) (offset pa)
              (getFormatSize (format pa)) (b * stride desc) (a * stride desc)
              float_half (ptr + S + S + S) d3 rb pa_ Hrb Hpa)
    as (d4 & -> & Hl4 & Hr4 & Hf4); [nia | lia | fold S; lia |].
  simpl. fold S in Hr1, Hr2, Hr3, Hr4, Hf1, Hf2, Hf3, Hf4.
  rewrite (to_int_small (4 * i)) by lia.
  rewrite !wrap32_small by lia.
  exists d4.
  split; [exact Hends |].
  split; [exact Hv0 |]. split; [exact Hv1 |]. split; [exact Hv2 |].
  split; [exact Hv3 |].
  split; [by replace (ptr + S + S + S + S) with (ptr + 4 * S) by lia |].
  split; [congruence |].
  split; [| split; [| split; [| split]]].
  - eapply read_bytes_kept; [| exact Hl4 | exact Hf4 | lia].
    eapply read_bytes_kept; [| exact Hl3 | exact Hf3 | lia].
    eapply read_bytes_kept; [| exact Hl2 | exact Hf2 | lia]. exact Hr1.
  - eapply read_bytes_kept; [| exact Hl4 | exact Hf4 | lia].
    eapply read_bytes_kept; [| exact Hl3 | exact Hf3 | lia]. exact Hr2.
  - replace (ptr + 2 * S) with (ptr + S + S) by lia.
    eapply read_bytes_kept; [| exact Hl4 | exact Hf4 | lia]. exact Hr3.
  - replace (ptr + 3 * S) with (ptr + S + S + S) by lia. exact Hr4.
  - intros p Hp. rewrite Hf4 by lia. rewrite Hf3 by lia. rewrite Hf2 by lia.
    apply Hf1. lia.
Qed.

(** The whole loop, from segment [i] and write offset [ptr] on. *)
Lemma line_loop_spec (m : Mesh) (lineStrip : bool) (inds : list Z) :
  let desc := vertexDesc m in
  let pa := getAttribute desc Position in
  let S := stride desc + getFormatSize (format pa) + 4 in
  let lineCount := if lineStrip then Z.of_nat (length inds) - 1
                   else Z.of_nat (length inds) / 2 in
  line_input_wf m lineStrip inds ->
  forall (n : nat) (i ptr : Z) (data : buffer) (newIndices : list Z),
    0 <= i -> i + Z.of_nat n <= lineCount ->
    0 <= ptr -> ptr + 4 * Z.of_nat n * S <= Z.of_nat (length data) ->
    exists data',
      line_loop n (vertices m) lineStrip inds (stride desc) (offset pa)
        (getFormatSize (format pa)) S i ptr data newIndices
      = Some (data', newIndices ++ flat_map quad_indices (seqZ i (Z.of_nat n)))
      /\ length data' = length data
      /\ (forall d, 0 <= d < Z.of_nat n ->
            exists this other v0 v1 v2 v3,
              segment_ends lineStrip inds (i + d) = Some (this, other)
              /\ line_vertex m this other float_neg_half = Some v0
              /\ line_vertex m this other float_half = Some v1
              /\ line_vertex m other this float_neg_half = Some v2
              /\ line_vertex m other this float_half = Some v3
              /\ read_bytes data' (ptr + (4 * d) * S) S = Some v0
              /\ read_bytes data' (ptr + (4 * d + 1) * S) S = Some v1
              /\ read_bytes data' (ptr + (4 * d + 2) * S) S = Some v2
              /\ read_bytes data' (ptr + (4 * d + 3) * S) S = Some v3)
      /\ (forall p : nat,
            Z.of_nat p < ptr \/ ptr + 4 * Z.of_nat n * S <= Z.of_nat p ->
            data' !! p = data !! p).
Proof.
  intros desc pa S lineCount Hwf.
  assert (HS : 4 <= S).
  { pose proof (getFormatSize_range (format pa)).
    destruct Hwf as (Hos & _). fold desc in Hos. unfold S. lia. }
  assert (Hlc : lineCount < 2 ^ 27).
  { destruct Hwf as (_ & _ & _ & _ & _ & _ & _ & _ & _ & Hout).
    fold desc pa S lineCount in Hout. nia. }
  induction n as [| n IH]; intros i ptr data newIndices Hi Hin Hptr Hfit.
  - exists data. simpl. rewrite app_nil_r.
    split; [done |]. split; [done |]. split; [intros d Hd; lia | done].
  - simpl line_loop.
    destruct (line_segment_spec m lineStrip inds i ptr data newIndices Hwf)
      as (a & b & v0 & v1 & v2 & v3 & d1 & Hends & Hv0 & Hv1 & Hv2 & Hv3
          & Hseg & Hl1 & Hr0 & Hr1 & Hr2 & Hr3 & Hf1);
      [fold lineCount; lia | lia | fold desc pa S; nia |].
    fold desc pa S in Hseg, Hr0, Hr1, Hr2, Hr3, Hf1.
    rewrite Hseg. simpl. rewrite to_int_small by lia.
    destruct (IH (i + 1) (ptr + 4 * S) d1 (newIndices ++ quad_indices i))
      as (data' & Hloop & Hl' & Hsegs & Hframe); [lia | lia | lia | rewrite Hl1; nia |].
    exists data'. split; [| split; [congruence | split]].
    + rewrite Hloop. f_equal. f_equal. rewrite <- app_assoc. f_equal.
      rewrite (seqZ_cons i (Z.of_nat (Datatypes.S n))) by lia.
      replace (Z.succ i) with (i + 1) by lia.
      replace (Z.pred (Z.of_nat (Datatypes.S n))) with (Z.of_nat n) by lia.
      reflexivity.
    + intros d Hd. destruct (Z.eq_dec d 0) as [-> | Hd0].
      * exists a, b, v0, v1, v2, v3. rewrite Z.add_0_r.
        split; [done |]. split; [done |]. split; [done |]. split; [done |].
        split; [done |].
        replace (ptr + 4 * 0 * S) with ptr by lia.
        replace (ptr + (4 * 0 + 1) * S) with (ptr + S) by lia.
        replace (ptr + (4 * 0 + 2) * S) with (ptr + 2 * S) by lia.
        replace (ptr + (4 * 0 + 3) * S) with (ptr + 3 * S) by lia.
        repeat split;
          (eapply read_bytes_kept; [eassumption | exact Hl' | exact Hframe | lia]).
      * destruct (Hsegs (d - 1)) as (a' & b' & w0 & w1 & w2 & w3 & He & Hw0 & Hw1
                                      & Hw2 & Hw3 & Hq0 & Hq1 & Hq2 & Hq3); [lia |].
        exists a', b', w0, w1, w2, w3.
        replace (i + 1 + (d - 1)) with (i + d) in He by lia.
        replace (ptr + 4 * S + 4 * (d - 1) * S) with (ptr + 4 * d * S) in Hq0 by lia.
        replace (ptr + 4 * S + (4 * (d - 1) + 1) * S) with (ptr + (4 * d + 1) * S)
          in Hq1 by lia.
        replace (ptr + 4 * S + (4 * (d - 1) + 2) * S) with (ptr + (4 * d + 2) * S)
          in Hq2 by lia.
        replace (ptr + 4 * S + (4 * (d - 1) + 3) * S) with (ptr + (4 * d + 3) * S)
          in Hq3 by lia.
        done.
    + intros p Hp. rewrite Hframe by nia. apply Hf1. nia.
Qed.

End LineLoop.

Lemma newAttributes_plain (desc : VertexDescription) :
  0 <= stride desc ->
  stride desc + getFormatSize (format (getAttribute desc Position)) < 2 ^ 31 ->
  newAttributes desc
  = [mkVertexAttribute NextPosition (format (getAttribute desc Position)) (stride desc);
     mkVertexAttribute ScaleFactor Float1
       (stride desc + getFormatSize (format (getAttribute desc Position)))].
Proof.
  intros Hs Hs'. unfold newAttributes.
  pose proof (getFormatSize_range (format (getAttribute desc Position))) as Hpsz.
  rewrite (to_int_small (getFormatSize (format (getAttribute desc Position)))) by lia.
  rewrite (to_int_small (stride desc)) by lia.
  rewrite (to_int_small (stride desc + getFormatSize (format (getAttribute desc Position))))
    by lia.
  by rewrite !wrap32_small by lia.
Qed.

(** The layout line expansion gives its group, field by field: the
    attributes of the original layout followed by NextPosition, of the
    format of the position and at the original stride, and ScaleFactor,
    one float behind it; the stride grown by both; the lookups of the two
    new semantics answering with the new fields, and every other lookup
    as in the original layout. *)
Lemma expanded_layout (desc : VertexDescription) :
  let pa := getAttribute desc Position in
  let np := mkVertexAttribute NextPosition (format pa) (stride desc) in
  let sf := mkVertexAttribute ScaleFactor Float1
              (stride desc + getFormatSize (format pa)) in
  let desc' := appendingAttributes desc (newAttributes desc) in
  0 <= stride desc -> stride desc + getFormatSize (format pa) + 4 < 2 ^ 31 ->
  attributes desc' = attributes desc ++ [np; sf]
  /\ stride desc' = stride desc + getFormatSize (format pa) + 4
  /\ getAttribute desc' NextPosition = np
  /\ getAttribute desc' ScaleFactor = sf
  /\ (map_built desc ->
      forall s, s <> InvalidSemantic -> s <> NextPosition -> s <> ScaleFactor ->
        getAttribute desc' s = getAttribute desc s).
Proof.
  intros pa np sf desc' Hs Hfit.
  pose proof (getFormatSize_range (format pa)) as Hpsz.
  assert (Hb' : map_built desc') by apply mkVertexDescription_map_built.
  assert (Hattrs : attributes desc' = attributes desc ++ [np; sf]).
  { unfold desc', appendingAttributes.
    rewrite (newAttributes_plain desc) by (fold pa; lia). reflexivity. }
  split; [exact Hattrs |]. split; [| split; [| split]].
  - unfold desc', appendingAttributes.
    rewrite (newAttributes_plain desc) by (fold pa; lia). fold pa.
    cbn [stride mkVertexDescription].
    etransitivity;
      [exact (appended_stride
                [mkVertexAttribute NextPosition (format pa) (stride desc);
                 mkVertexAttribute ScaleFactor Float1
                   (stride desc + getFormatSize (format pa))]
                (stride desc) ltac:(lia) ltac:(simpl; lia)) |].
    simpl. lia.
  - rewrite (getAttribute_current desc' NextPosition Hb') by done.
    unfold current_field. rewrite Hattrs, filter_app.
    rewrite filter_cons_True by done. rewrite filter_cons_False by done.
    rewrite filter_nil. by rewrite last_snoc.
  - rewrite (getAttribute_current desc' ScaleFactor Hb') by done.
    unfold current_field. rewrite Hattrs, filter_app.
    rewrite filter_cons_False by done. rewrite filter_cons_True by done.
    rewrite filter_nil.
    change [sf] with ([] ++ [sf]). rewrite app_assoc. by rewrite last_snoc.
  - intros Hb s Hv Hnp Hsf.
    rewrite (getAttribute_current desc' s Hb' Hv), (getAttribute_current desc s Hb Hv).
    unfold current_field. rewrite Hattrs, filter_app.
    rewrite filter_cons_False by (simpl; congruence).
    rewrite filter_cons_False by (simpl; congruence).
    by rewrite filter_nil, app_nil_r.
Qed.

Section LineTheorem.
Context `{FloatArith}.

(** A strip without indices has no segment count: [indices.size() - 1]
    wraps, [lineCount] becomes -1, and the array of negative size is not
    allocated. *)
Lemma createLinePrimitiveGroup_empty_strip (m : Mesh) :
  0 <= stride (vertexDesc m) < 2 ^ 28 ->
  createLinePrimitiveGroup m true [] = None.
Proof.
  intros Hs. unfold createLinePrimitiveGroup.
  pose proof (getFormatSize_range
                (format (getAttribute (vertexDesc m) Position))) as Hp.
  change (to_int (wrap64 (size_of [] - 1))) with (-1).
  change (to_int (4 * -1)) with (-4).
  rewrite (to_int_small (getFormatSize _)) by lia.
  rewrite (to_int_small (stride _)) by lia.
  rewrite (to_int_small (stride _ + _)) by lia.
  rewrite (to_int_small (stride _ + _ + 4)) by lia.
  rewrite to_int_small by lia.
  destruct (Z.ltb_spec
              ((stride (vertexDesc m)
                + getFormatSize (format (getAttribute (vertexDesc m) Position)) + 4)
               * -4) 0); [done | lia].
Qed.

(** C4.  Line expansion of [N] indices (a strip of at least one index,
    or a list) makes [N - 1], respectively [N / 2], segments; for segment
    [j] it stores four vertices [4 j .. 4 j + 3]: thisEnd with scale -0.5,
    thisEnd with 0.5, otherEnd with -0.5, otherEnd with 0.5, each the
    whole original record of its end, then the position of the other end,
    then the scale; it pushes the six indices of the triangles (0, 1, 2)
    and (2, 3, 0) over these four vertices; the group has the override
    topology TriList and [4 * lineCount] override vertices.  Its layout
    is the original plus NextPosition and ScaleFactor: the attribute
    list is the original one followed by NextPosition, of the format of
    the position and at the original stride, and by the one-float
    ScaleFactor behind it; the stride has grown by both; lookups of the
    two semantics find these fields, and lookups of the other semantics
    answer as in the original layout. *)
Theorem createLinePrimitiveGroup_expands (m : Mesh) (lineStrip : bool)
    (inds : list Z) :
  line_input_wf m lineStrip inds ->
  let desc := vertexDesc m in
  let pa := getAttribute desc Position in
  let St := stride desc + getFormatSize (format pa) + 4 in
  let lineCount := if lineStrip then Z.of_nat (length inds) - 1
                   else Z.of_nat (length inds) / 2 in
  exists g data,
    createLinePrimitiveGroup m lineStrip inds = Some g
    /\ primOverride g = TriList
    /\ vertexOverride g = Some data
    /\ vertexCountOverride g = 4 * lineCount
    /\ Z.of_nat (length data) = 4 * lineCount * St
    /\ indicesOverride g = flat_map quad_indices (seqZ 0 lineCount)
    /\ attributes (vertexDescriptionOverride g)
       = attributes desc
         ++ [mkVertexAttribute NextPosition (format pa) (stride desc);
             mkVertexAttribute ScaleFactor Float1
               (stride desc + getFormatSize (format pa))]
    /\ stride (vertexDescriptionOverride g) = St
    /\ getAttribute (vertexDescriptionOverride g) NextPosition
       = mkVertexAttribute NextPosition (format pa) (stride desc)
    /\ getAttribute (vertexDescriptionOverride g) ScaleFactor
       = mkVertexAttribute ScaleFactor Float1
           (stride desc + getFormatSize (format pa))
    /\ (map_built desc ->
        forall s, s <> InvalidSemantic -> s <> NextPosition -> s <> ScaleFactor ->
          getAttribute (vertexDescriptionOverride g) s = getAttribute desc s)
    /\ (forall j, 0 <= j < lineCount ->
          exists this other v0 v1 v2 v3,
            segment_ends lineStrip inds j = Some (this, other)
            /\ line_vertex m this other float_neg_half = Some v0
            /\ line_vertex m this other float_half = Some v1
            /\ line_vertex m other this float_neg_half = Some v2
            /\ line_vertex m other this float_half = Some v3
            /\ read_bytes data ((4 * j) * St) St = Some v0
            /\ read_bytes data ((4 * j + 1) * St) St = Some v1
            /\ read_bytes data ((4 * j + 2) * St) St = Some v2
            /\ read_bytes data ((4 * j + 3) * St) St = Some v3).
Proof.
  intros Hwf desc pa St lineCount.
  pose proof (line_loop_spec m lineStrip inds Hwf) as Hloop.
  destruct Hwf as (Hos & Hpo & Hpo' & Hnv & Hlen & Hsz & Hall & Hstrip & HS31 & Hout).
  cbv zeta in Hloop.
  fold desc in Hos, Hpo, Hpo', Hlen, Hsz, HS31, Hout, Hloop.
  fold pa in Hpo, Hpo', HS31, Hout, Hloop.
  fold St in HS31, Hout, Hloop. fold lineCount in Hout, Hloop.
  pose proof (getFormatSize_range (format pa)) as Hpsz.
  pose proof (Z.mul_div_le (Z.of_nat (length inds)) 2 ltac:(lia)) as Hdiv.
  assert (Hdiv0 : 0 <= Z.of_nat (length inds) / 2) by (apply Z.div_pos; lia).
  assert (Hlc0 : 0 <= lineCount).
  { unfold lineCount. destruct lineStrip; [specialize (Hstrip eq_refl) |]; lia. }
  assert (Hlc : lineCount < 2 ^ 27) by nia.
  assert (Hcount : to_int (if lineStrip then wrap64 (size_of inds - 1)
                           else size_of inds / 2) = lineCount).
  { unfold size_of, lineCount. destruct lineStrip.
    - specialize (Hstrip eq_refl). rewrite wrap64_small by lia.
      apply to_int_small. lia.
    - apply to_int_small. lia. }
  unfold createLinePrimitiveGroup. fold desc. fold pa.
  rewrite Hcount.
  rewrite (to_int_small (getFormatSize (format pa))) by lia.
  rewrite (to_int_small (offset pa)) by lia.
  rewrite (to_int_small (stride desc)) by lia.
  rewrite (to_int_small (stride desc + getFormatSize (format pa))) by lia.
  rewrite (to_int_small (stride desc + getFormatSize (format pa) + 4)) by lia.
  fold St.
  rewrite (to_int_small (4 * lineCount)) by lia.
  rewrite (to_int_small (St * (4 * lineCount))) by nia.
  destruct (Z.ltb_spec (St * (4 * lineCount)) 0) as [Hneg | _]; [nia |].
  destruct (Hloop (Z.to_nat lineCount) 0 0
              (replicate (Z.to_nat (St * (4 * lineCount))) "000"%byte) [])
    as (data & Hrun & Hl & Hsegs & _);
    [lia | lia | lia | rewrite length_replicate; nia |].
  destruct (expanded_layout desc) as (Hattrs & Hstr & Hnp & Hsf & Hoth);
    [lia | fold pa; lia |].
  fold pa in Hattrs, Hstr, Hnp, Hsf.
  rewrite Hrun. cbn [mbind option_bind].
  rewrite length_replicate in Hl.
  eexists. exists data. split; [reflexivity |].
  cbn [primOverride vertexOverride vertexCountOverride indicesOverride
       vertexDescriptionOverride].
  split; [done |]. split; [done |].
  split; [by apply wrap32_small; lia |].
  split; [nia |].
  split; [by rewrite Z2Nat.id by lia |].
  split; [exact Hattrs |]. split; [exact Hstr |].
  split; [exact Hnp |]. split; [exact Hsf |]. split; [exact Hoth |].
  intros j Hj. destruct (Hsegs j) as (a & b & v0 & v1 & v2 & v3 & Hx); [lia |].
  exists a, b, v0, v1, v2, v3. rewrite !Z.add_0_l in Hx. exact Hx.
Qed.

End LineTheorem.

Lemma createLinePrimitiveGroup_expands_witness :
  let m := mkMesh (mkVertexDescription 12 [mkVertexAttribute Position Float3 0]) 2
             (vec3_bytes (float_of_Z 0, float_of_Z 0, float_of_Z 0)
              ++ vec3_bytes (float_of_Z 1, float_of_Z 0, float_of_Z 0)) [] "" in
  exists g data,
    @createLinePrimitiveGroup int_arith m false [0; 1] = Some g
    /\ vertexOverride g = Some data
    /\ vertexCountOverride g = 4
    /\ indicesOverride g = [0; 1; 2; 2; 3; 0]
    /\ attributes (vertexDescriptionOverride g)
       = [mkVertexAttribute Position Float3 0;
          mkVertexAttribute NextPosition Float3 12;
          mkVertexAttribute ScaleFactor Float1 24]
    /\ stride (vertexDescriptionOverride g) = 28
    /\ getAttribute (vertexDescriptionOverride g) NextPosition
       = mkVertexAttribute NextPosition Float3 12
    /\ getAttribute (vertexDescriptionOverride g) ScaleFactor
       = mkVertexAttribute ScaleFactor Float1 24
    /\ read_float data 24 = Some (@float_neg_half int_arith)
    /\ read_float data 52 = Some (@float_half int_arith)
    /\ read_float data 80 = Some (@float_neg_half int_arith)
    /\ read_float data 108 = Some (@float_half int_arith).
Proof.
  intros m.
  destruct (@createLinePrimitiveGroup_expands int_arith m false [0; 1])
    as (g & data & Hg & _ & Hdata & Hcount & _ & Hinds & Hattrs & Hstr & Hnp & Hsf & _).
  - unfold line_input_wf. cbv zeta. simpl.
    repeat split; try lia; try done.
    repeat constructor; lia.
  - exists g, data. split; [exact Hg |]. split; [exact Hdata |].
    split; [exact Hcount |]. split; [exact Hinds |].
    split; [exact Hattrs |]. split; [exact Hstr |].
    split; [exact Hnp |]. split; [exact Hsf |].
    vm_compute in Hg. injection Hg as <-. simpl in Hdata. injection Hdata as <-.
    repeat split; vm_compute; reflexivity.
Defined.

(** * Further properties of the code *)

(** ** Remapping materials *)

Lemma vector_at_is_Some {A} (v : list A) (i : Z) :
  is_Some (vector_at v i) <-> 0 <= i < Z.of_nat (length v).
Proof.
  split.
  - intros [x Hx]. unfold vector_at, size_of in Hx.
    destruct (Z.leb_spec 0 i); [| done].
    destruct (Z.ltb_spec i (Z.of_nat (length v))); [lia | done].
  - intros Hi. destruct (vector_at_Some v i Hi) as (x & Hx & _). by exists x.
Qed.

Lemma vector_at_lookup {A} (v : list A) (i : Z) (x : A) :
  vector_at v i = Some x -> 0 <= i < Z.of_nat (length v) /\ v !! Z.to_nat i = Some x.
Proof.
  intros Hx. assert (Hi : 0 <= i < Z.of_nat (length v))
    by (apply vector_at_is_Some; by exists x).
  split; [done |]. destruct (vector_at_Some v i Hi) as (y & Hy & Hl). congruence.
Qed.

(** X1.  [remapMaterials] has a result exactly when the material of
    every group is a position of the map; the result replaces each
    material index [k] by [materialMap[k]] and changes nothing else of any
    group or of the mesh. *)
Theorem remapMaterials_only_material (m : Mesh) (materialMap : list Z) :
  (is_Some (remapMaterials m materialMap)
   <-> Forall (material_covered materialMap) (groups m))
  /\ (forall m', remapMaterials m materialMap = Some m' ->
        Forall2 (rematerialed_group materialMap) (groups m) (groups m')
        /\ vertexDesc m' = vertexDesc m
        /\ nVertices m' = nVertices m
        /\ vertices m' = vertices m
        /\ name m' = name m).
Proof.
  unfold remapMaterials. split.
  - split.
    + intros Hs.
      assert (Hm : is_Some (mapM (fun g =>
                      mat ← vector_at materialMap (materialIndex g);
                      Some (set_materialIndex g mat)) (groups m))).
      { destruct (mapM _ (groups m)); [eauto | by destruct Hs]. }
      apply mapM_is_Some_1 in Hm. eapply Forall_impl; [exact Hm |].
      intros g [x Hx]. simpl in Hx. apply vector_at_is_Some.
      destruct (vector_at materialMap (materialIndex g)); [eauto | done].
    + intros Hc.
      destruct (mapM_is_Some_2 (fun g =>
                  mat ← vector_at materialMap (materialIndex g);
                  Some (set_materialIndex g mat)) (groups m)) as [gs Hgs].
      * eapply Forall_impl; [exact Hc |]. intros g Hg.
        apply vector_at_is_Some in Hg as [x Hx]. simpl. rewrite Hx. simpl. eauto.
      * rewrite Hgs. simpl. eauto.
  - intros m' Hm.
    destruct (mapM _ (groups m)) as [gs |] eqn:Hgs; [| done].
    simpl in Hm. injection Hm as <-. simpl. split; [| done].
    apply mapM_Some_1 in Hgs.
    eapply Forall2_impl; [exact Hgs |]. intros g g' Hg. simpl in Hg.
    destruct (vector_at materialMap (materialIndex g)) as [mat |] eqn:Hmat; [| done].
    simpl in Hg. injection Hg as <-. apply vector_at_lookup in Hmat as [_ Hl].
    by repeat split.
Qed.

(** ** Primitive counts of a mesh *)

Lemma wrap32_add_l (a b : Z) : wrap32 (wrap32 a + b) = wrap32 (a + b).
Proof. unfold wrap32. apply Zplus_mod_idemp_l. Qed.

Lemma Mesh_getPrimitiveCount_sum (m : Mesh) :
  Mesh_getPrimitiveCount m = wrap32 (count_sum (groups m)).
Proof.
  unfold Mesh_getPrimitiveCount. change 0 with (wrap32 0) at 1.
  rewrite <- (Z.add_0_l (count_sum (groups m))). generalize 0.
  induction (groups m) as [| g gs IH]; intros c; simpl.
  - by rewrite Z.add_0_r.
  - rewrite wrap32_add_l, IH. f_equal. lia.
Qed.

Lemma count_sum_Permutation (l l' : list PrimitiveGroup) :
  l ≡ₚ l' -> count_sum l = count_sum l'.
Proof. induction 1; simpl; lia. Qed.

Lemma count_sum_Forall2 (l l' : list PrimitiveGroup) :
  Forall2 (fun g g' => getPrimitiveCount g' = getPrimitiveCount g) l l' ->
  count_sum l' = count_sum l.
Proof. induction 1 as [| g g' l l' Hg _ IH]; simpl; [done | lia]. Qed.

(** X2.  The primitive count of a mesh is the same after
    [aggregateByMaterial], after [remapIndices] and after
    [remapMaterials]: sorting and renumbering do not change how many
    primitives there are. *)
Theorem Mesh_getPrimitiveCount_kept (m : Mesh) :
  (forall m', aggregateByMaterial m m' ->
     Mesh_getPrimitiveCount m' = Mesh_getPrimitiveCount m)
  /\ (forall indexMap m', remapIndices m indexMap = Some m' ->
        Mesh_getPrimitiveCount m' = Mesh_getPrimitiveCount m)
  /\ (forall materialMap m', remapMaterials m materialMap = Some m' ->
        Mesh_getPrimitiveCount m' = Mesh_getPrimitiveCount m).
Proof.
  rewrite !Mesh_getPrimitiveCount_sum. split; [| split].
  - intros m' [[Hperm _] _]. rewrite Mesh_getPrimitiveCount_sum.
    f_equal. by apply count_sum_Permutation.
  - intros indexMap m' Hm. rewrite Mesh_getPrimitiveCount_sum. f_equal.
    unfold remapIndices in Hm.
    destruct (mapM _ (groups m)) as [gs |] eqn:Hgs; [| done].
    simpl in Hm. injection Hm as <-. simpl.
    apply count_sum_Forall2. apply mapM_Some_1 in Hgs.
    eapply Forall2_impl; [exact Hgs |]. intros g g' Hg.
    unfold remapIndices_group in Hg.
    destruct (mapM _ (indices g)) as [inds |] eqn:Hinds; [| done].
    simpl in Hg. injection Hg as <-. apply length_mapM in Hinds.
    unfold getPrimitiveCount, size_of. simpl. by rewrite Hinds.
  - intros materialMap m' Hm. rewrite Mesh_getPrimitiveCount_sum. f_equal.
    unfold remapMaterials in Hm.
    destruct (mapM _ (groups m)) as [gs |] eqn:Hgs; [| done].
    simpl in Hm. injection Hm as <-. simpl.
    apply count_sum_Forall2. apply mapM_Some_1 in Hgs.
    eapply Forall2_impl; [exact Hgs |]. intros g g' Hg. simpl in Hg.
    destruct (vector_at materialMap (materialIndex g)) as [mat |]; [| done].
    simpl in Hg. by injection Hg as <-.
Qed.

(** ** Counting and clearing groups *)

(** X3.  As long as the groups can be counted in an [unsigned int],
    [getGroup] answers with a group exactly below [getGroupCount];
    [addGroup] returns the new count, one more than before; after
    [clearGroups] the count is 0 and no index has a group. *)
Theorem getGroupCount_getGroup (m : Mesh) (index : Z) :
  Z.of_nat (length (groups m)) < 2 ^ 32 - 1 -> 0 <= index ->
  (is_Some (getGroup m index) <-> index < getGroupCount m)
  /\ (forall g, (addGroup m g).1 = getGroupCount (addGroup m g).2
                /\ (addGroup m g).1 = getGroupCount m + 1)
  /\ getGroupCount (clearGroups m) = 0
  /\ getGroup (clearGroups m) index = None.
Proof.
  intros Hlen Hi. unfold getGroupCount, getGroup, addGroup, clearGroups, size_of.
  simpl. rewrite (wrap32_small (Z.of_nat (length (groups m)))) by lia.
  split; [| split; [| split]].
  - destruct (Z.geb_spec index (Z.of_nat (length (groups m)))) as [Hge | Hlt].
    + split; [intros [x Hx]; done | lia].
    + split; [done |]. intros _. apply lookup_lt_is_Some_2. lia.
  - intros g. split; [done |]. rewrite length_app. simpl.
    rewrite wrap32_small; lia.
  - done.
  - destruct (Z.geb_spec index (Z.of_nat 0)); [done | lia].
Qed.

Lemma getGroupCount_getGroup_witness :
  is_Some (getGroup (addGroup (mkMesh VertexDescription_default 0 [] [] "")
                       (plain_group TriList [0; 1; 2])).2 0).
Proof.
  apply (getGroupCount_getGroup
           (addGroup (mkMesh VertexDescription_default 0 [] [] "")
              (plain_group TriList [0; 1; 2])).2 0); [simpl; lia | lia |].
  vm_compute. reflexivity.
Defined.

(** ** Composing index maps *)

Lemma mapM_vector_at_compose (f g h : list Z) (l l1 l2 : list Z) :
  (forall i x y, vector_at f i = Some x -> vector_at g x = Some y ->
                 vector_at h i = Some y) ->
  mapM (vector_at f) l = Some l1 -> mapM (vector_at g) l1 = Some l2 ->
  mapM (vector_at h) l = Some l2.
Proof.
  intros Hh H1 H2. apply mapM_Some_1 in H1, H2. apply mapM_Some_2.
  revert l2 H2. induction H1 as [| i x l l1 Hi _ IH]; intros l2 H2.
  - inversion H2. constructor.
  - inversion H2 as [| ? y ? l2' Hx H2']; subst. constructor; [| by apply IH].
    by eapply Hh.
Qed.

(** X4.  Two [remapIndices] in a row are one [remapIndices] with the
    composed map: if [h[i] = g[f[i]]] wherever the right-hand side is
    defined, remapping by [f] and then by [g] gives what remapping by [h]
    gives. *)
Theorem remapIndices_compose (m m1 m2 : Mesh) (f g h : list Z) :
  (forall i x y, vector_at f i = Some x -> vector_at g x = Some y ->
                 vector_at h i = Some y) ->
  remapIndices m f = Some m1 -> remapIndices m1 g = Some m2 ->
  remapIndices m h = Some m2.
Proof.
  intros Hh H1 H2. unfold remapIndices in *.
  destruct (mapM _ (groups m)) as [gs1 |] eqn:Hg1; [| done].
  simpl in H1. injection H1 as <-. simpl in H2.
  destruct (mapM _ gs1) as [gs2 |] eqn:Hg2; [| done].
  simpl in H2. injection H2 as <-.
  assert (Hg : mapM (remapIndices_group h) (groups m) = Some gs2).
  { apply mapM_Some_1 in Hg1, Hg2. apply mapM_Some_2.
    revert gs2 Hg2. induction Hg1 as [| a a1 l l1 Ha _ IH]; intros gs2 Hg2.
    - inversion Hg2. constructor.
    - inversion Hg2 as [| ? a2 ? l2 Ha1 Hg2']; subst.
      constructor; [| by apply IH].
      unfold remapIndices_group in *.
      destruct (mapM _ (indices a)) as [i1 |] eqn:Hi1; [| done].
      simpl in Ha. injection Ha as <-. simpl in Ha1.
      destruct (mapM _ i1) as [i2 |] eqn:Hi2; [| done].
      simpl in Ha1. injection Ha1 as <-.
      by rewrite (mapM_vector_at_compose f g h (indices a) i1 i2 Hh Hi1 Hi2). }
  rewrite Hg. done.
Qed.

Lemma remapIndices_compose_witness :
  let m := mkMesh VertexDescription_default 0 [] [plain_group TriList [0; 1; 2]] "" in
  remapIndices m [12; 10; 11]
  = Some (mkMesh VertexDescription_default 0 [] [plain_group TriList [12; 10; 11]] "").
Proof.
  intros m.
  apply (remapIndices_compose m
           (mkMesh VertexDescription_default 0 [] [plain_group TriList [2; 0; 1]] "")
           _ [2; 0; 1] [10; 11; 12] [12; 10; 11]); [| reflexivity | reflexivity].
  intros i x y Hf Hg.
  apply vector_at_lookup in Hf as [Hi Hf]. simpl in Hi.
  assert (Hc : i = 0 \/ i = 1 \/ i = 2) by lia.
  destruct Hc as [-> | [-> | ->]]; simpl in Hf; injection Hf as <-;
    vm_compute in Hg; injection Hg as <-; reflexivity.
Defined.

(** X5.  A map that sends every index in use to itself changes
    nothing: [remapIndices] gives back the mesh. *)
Theorem remapIndices_identity (m : Mesh) (indexMap : list Z) :
  Forall (fun g => Forall (fun i => vector_at indexMap i = Some i) (indices g))
         (groups m) ->
  remapIndices m indexMap = Some m.
Proof.
  intros Hid. unfold remapIndices.
  assert (Hg : mapM (remapIndices_group indexMap) (groups m) = Some (groups m)).
  { apply mapM_Some_2. induction Hid as [| g gs Hg _ IH]; constructor; [| done].
    unfold remapIndices_group.
    assert (Hi : mapM (vector_at indexMap) (indices g) = Some (indices g)).
    { apply mapM_Some_2. induction Hg; by constructor. }
    rewrite Hi. simpl. by destruct g. }
  rewrite Hg. simpl. by destruct m.
Qed.

Lemma remapIndices_identity_witness :
  let m := mkMesh VertexDescription_default 0 [] [plain_group TriList [0; 1; 2]] "" in
  remapIndices m [0; 1; 2; 7] = Some m.
Proof.
  intros m. apply remapIndices_identity. repeat constructor.
Defined.

(** ** The comparison operators *)

Section ComparisonProps.
Variable sv : VertexAttributeSemantic -> Z.
Variable fv : VertexAttributeFormat -> Z.
Hypothesis sv_inj : forall s t, sv s = sv t -> s = t.
Hypothesis fv_inj : forall f g, fv f = fv g -> f = g.

Lemma VertexAttribute_ltb_spec (a b : VertexAttribute) :
  VertexAttribute_ltb sv fv a b = true <->
  sv (semantic a) < sv (semantic b)
  \/ (sv (semantic a) = sv (semantic b)
      /\ (fv (format a) < fv (format b)
          \/ (fv (format a) = fv (format b) /\ offset a < offset b))).
Proof.
  unfold VertexAttribute_ltb.
  destruct (Z.ltb_spec (sv (semantic a)) (sv (semantic b)));
    destruct (Z.ltb_spec (sv (semantic b)) (sv (semantic a)));
    destruct (Z.ltb_spec (fv (format a)) (fv (format b)));
    destruct (Z.ltb_spec (fv (format b)) (fv (format a)));
    destruct (Z.ltb_spec (offset a) (offset b));
    split; intros Hx; (done || lia).
Qed.

Lemma VertexAttribute_eqb_eq (a b : VertexAttribute) :
  VertexAttribute_eqb sv fv a b = true <-> a = b.
Proof.
  unfold VertexAttribute_eqb. rewrite !andb_true_iff, !Z.eqb_eq. split.
  - intros [[Hs Hf] Ho]. apply sv_inj in Hs. apply fv_inj in Hf.
    destruct a, b. simpl in *. congruence.
  - by intros ->.
Qed.

Lemma VertexAttribute_ltb_total (a b : VertexAttribute) :
  VertexAttribute_ltb sv fv a b = false -> VertexAttribute_ltb sv fv b a = false ->
  a = b.
Proof.
  intros Hab Hba. apply VertexAttribute_eqb_eq.
  apply not_true_iff_false in Hab, Hba.
  rewrite VertexAttribute_ltb_spec in Hab, Hba.
  unfold VertexAttribute_eqb. rewrite !andb_true_iff, !Z.eqb_eq. lia.
Qed.

(** X6.  On vertex attributes [operator==] holds exactly for equal
    attributes, and [operator<] is a strict total order: never [a < a],
    transitive, and of two different attributes one is less than the
    other. *)
Theorem VertexAttribute_operators (a b c : VertexAttribute) :
  (VertexAttribute_eqb sv fv a b = true <-> a = b)
  /\ VertexAttribute_ltb sv fv a a = false
  /\ (VertexAttribute_ltb sv fv a b = true -> VertexAttribute_ltb sv fv b c = true ->
      VertexAttribute_ltb sv fv a c = true)
  /\ (VertexAttribute_ltb sv fv a b = true -> VertexAttribute_ltb sv fv b a = false)
  /\ (a <> b ->
      VertexAttribute_ltb sv fv a b = true \/ VertexAttribute_ltb sv fv b a = true).
Proof.
  split; [apply VertexAttribute_eqb_eq |]. split; [| split; [| split]].
  - apply not_true_iff_false. rewrite VertexAttribute_ltb_spec. lia.
  - rewrite !VertexAttribute_ltb_spec. lia.
  - intros Hab. apply not_true_iff_false. rewrite VertexAttribute_ltb_spec in *. lia.
  - intros Hne.
    destruct (VertexAttribute_ltb sv fv a b) eqn:Hab; [by left |].
    destruct (VertexAttribute_ltb sv fv b a) eqn:Hba; [by right |].
    by destruct Hne; apply VertexAttribute_ltb_total.
Qed.

Lemma vector_eqb_eq (l1 l2 : list VertexAttribute) :
  vector_eqb (VertexAttribute_eqb sv fv) l1 l2 = true <-> l1 = l2.
Proof.
  revert l2. induction l1 as [| x l1 IH]; intros [| y l2]; simpl; try done.
  rewrite andb_true_iff, VertexAttribute_eqb_eq, IH. split.
  - by intros [-> ->].
  - by intros [= -> ->].
Qed.

Lemma lexicographical_compare_irrefl (l : list VertexAttribute) :
  lexicographical_compare (VertexAttribute_ltb sv fv) l l = false.
Proof.
  induction l as [| x l IH]; simpl; [done |].
  assert (Hx : VertexAttribute_ltb sv fv x x = false)
    by (apply not_true_iff_false; rewrite VertexAttribute_ltb_spec; lia).
  by rewrite Hx.
Qed.

Lemma VertexAttribute_ltb_trans (x y z : VertexAttribute) :
  VertexAttribute_ltb sv fv x y = true -> VertexAttribute_ltb sv fv y z = true ->
  VertexAttribute_ltb sv fv x z = true.
Proof. rewrite !VertexAttribute_ltb_spec. lia. Qed.

Lemma lexicographical_compare_trans (l1 l2 l3 : list VertexAttribute) :
  lexicographical_compare (VertexAttribute_ltb sv fv) l1 l2 = true ->
  lexicographical_compare (VertexAttribute_ltb sv fv) l2 l3 = true ->
  lexicographical_compare (VertexAttribute_ltb sv fv) l1 l3 = true.
Proof.
  revert l2 l3. induction l1 as [| x l1 IH]; intros [| y l2] [| z l3]; simpl;
    try done.
  destruct (VertexAttribute_ltb sv fv x y) eqn:Hxy.
  - intros _. destruct (VertexAttribute_ltb sv fv y z) eqn:Hyz.
    + by rewrite (VertexAttribute_ltb_trans x y z Hxy Hyz).
    + destruct (VertexAttribute_ltb sv fv z y) eqn:Hzy; [done |].
      rewrite <- (VertexAttribute_ltb_total y z Hyz Hzy). by rewrite Hxy.
  - destruct (VertexAttribute_ltb sv fv y x) eqn:Hyx; [done |].
    rewrite (VertexAttribute_ltb_total x y Hxy Hyx).
    destruct (VertexAttribute_ltb sv fv y z); [done |].
    destruct (VertexAttribute_ltb sv fv z y); [done |]. apply IH.
Qed.

Lemma lexicographical_compare_total (l1 l2 : list VertexAttribute) :
  lexicographical_compare (VertexAttribute_ltb sv fv) l1 l2 = false ->
  lexicographical_compare (VertexAttribute_ltb sv fv) l2 l1 = false ->
  l1 = l2.
Proof.
  revert l2. induction l1 as [| x l1 IH]; intros [| y l2]; simpl; try done.
  destruct (VertexAttribute_ltb sv fv x y) eqn:Hxy; [done |].
  destruct (VertexAttribute_ltb sv fv y x) eqn:Hyx; [done |].
  intros H12 H21. rewrite (VertexAttribute_ltb_total x y Hxy Hyx).
  f_equal. by apply IH.
Qed.

(** X7.  On vertex descriptions [operator==] holds exactly when the
    strides and the attribute sequences are equal (the lookup table is
    not compared), and [operator<] is a strict total order on these
    pairs. *)
Theorem VertexDescription_operators (a b c : VertexDescription) :
  (VertexDescription_eqb sv fv a b = true
   <-> stride a = stride b /\ attributes a = attributes b)
  /\ VertexDescription_ltb sv fv a a = false
  /\ (VertexDescription_ltb sv fv a b = true ->
      VertexDescription_ltb sv fv b c = true ->
      VertexDescription_ltb sv fv a c = true)
  /\ (VertexDescription_ltb sv fv a b = true ->
      VertexDescription_ltb sv fv b a = false)
  /\ (VertexDescription_ltb sv fv a b = false ->
      VertexDescription_ltb sv fv b a = false ->
      VertexDescription_eqb sv fv a b = true).
Proof.
  assert (Heq : forall x y, VertexDescription_eqb sv fv x y = true
                            <-> stride x = stride y /\ attributes x = attributes y).
  { intros x y. unfold VertexDescription_eqb.
    by rewrite andb_true_iff, Z.eqb_eq, vector_eqb_eq. }
  assert (Htrans : forall x y z,
            VertexDescription_ltb sv fv x y = true ->
            VertexDescription_ltb sv fv y z = true ->
            VertexDescription_ltb sv fv x z = true).
  { intros x y z. unfold VertexDescription_ltb.
    destruct (Z.ltb_spec (stride x) (stride y));
      destruct (Z.ltb_spec (stride y) (stride x));
      destruct (Z.ltb_spec (stride y) (stride z));
      destruct (Z.ltb_spec (stride z) (stride y));
      destruct (Z.ltb_spec (stride x) (stride z));
      destruct (Z.ltb_spec (stride z) (stride x));
      try done; try lia.
    apply lexicographical_compare_trans. }
  assert (Hirr : forall x, VertexDescription_ltb sv fv x x = false).
  { intros x. unfold VertexDescription_ltb. rewrite Z.ltb_irrefl.
    apply lexicographical_compare_irrefl. }
  split; [apply Heq |]. split; [apply Hirr |]. split; [apply Htrans |]. split.
  - intros Hab. destruct (VertexDescription_ltb sv fv b a) eqn:Hba; [| done].
    by rewrite <- (Hirr a), (Htrans a b a Hab Hba).
  - unfold VertexDescription_ltb. rewrite Heq.
    destruct (Z.ltb_spec (stride a) (stride b)); [done |].
    destruct (Z.ltb_spec (stride b) (stride a)); [done |].
    intros H12 H21. split; [lia |]. by apply lexicographical_compare_total.
Qed.

End ComparisonProps.

Lemma sv_example_inj (s t : VertexAttributeSemantic) :
  sv_example s = sv_example t -> s = t.
Proof. destruct s, t; simpl; intros Hx; (done || discriminate Hx). Qed.

Lemma fv_example_inj (f g : VertexAttributeFormat) :
  fv_example f = fv_example g -> f = g.
Proof. destruct f, g; simpl; intros Hx; (done || discriminate Hx). Qed.

Lemma VertexAttribute_operators_witness :
  VertexAttribute_ltb sv_example fv_example
    (mkVertexAttribute Position Float3 0) (mkVertexAttribute Position Float3 12) = true
  \/ VertexAttribute_ltb sv_example fv_example
       (mkVertexAttribute Position Float3 12) (mkVertexAttribute Position Float3 0) = true.
Proof.
  apply (VertexAttribute_operators sv_example fv_example sv_example_inj fv_example_inj
           (mkVertexAttribute Position Float3 0) (mkVertexAttribute Position Float3 12)
           (mkVertexAttribute Position Float3 0)).
  discriminate.
Defined.

Lemma VertexDescription_operators_witness :
  VertexDescription_ltb sv_example fv_example
    (mkVertexDescription 12 [mkVertexAttribute Position Float3 0])
    (mkVertexDescription 12 []) = false.
Proof.
  apply (VertexDescription_operators sv_example fv_example sv_example_inj fv_example_inj
           (mkVertexDescription 12 [])
           (mkVertexDescription 12 [mkVertexAttribute Position Float3 0])
           (mkVertexDescription 12 [])).
  reflexivity.
Defined.

(** ** Lookups in a constructed layout *)

Lemma clearSemanticMap_empty (map : list VertexAttribute) :
  length map = SemanticMax -> clearSemanticMap map = semanticMap_empty.
Proof.
  intros Hl. unfold clearSemanticMap, semanticMap_empty. rewrite <- Hl. clear Hl.
  induction map as [| x map IH]; simpl; [done |]. f_equal. exact IH.
Qed.

(** X8.  In a layout made by the constructor the lookup of a semantic
    answers with the last attribute of that semantic in the attribute
    sequence, and with the default attribute when there is none; an
    attribute pushed at the end becomes the answer for its semantic and
    leaves the other answers alone; and clearing a table and building it
    again gives the table of the constructor. *)
Theorem semantic_lookup_last_wins (st : Z) (attrs : list VertexAttribute)
    (s : VertexAttributeSemantic) :
  s <> InvalidSemantic ->
  getAttribute (mkVertexDescription st attrs) s
  = default VertexAttribute_default (last (filter (fun a => semantic a = s) attrs))
  /\ (forall a, semantic a = s ->
        getAttribute (mkVertexDescription st (attrs ++ [a])) s = a)
  /\ (forall a, semantic a <> s ->
        getAttribute (mkVertexDescription st (attrs ++ [a])) s
        = getAttribute (mkVertexDescription st attrs) s)
  /\ (forall map, length map = SemanticMax ->
        buildSemanticMap attrs (clearSemanticMap map)
        = semanticMap (mkVertexDescription st attrs)).
Proof.
  intros Hs.
  assert (Hcur : forall l, getAttribute (mkVertexDescription st l) s
                           = default VertexAttribute_default (current_field l s)).
  { intros l. apply (getAttribute_current (mkVertexDescription st l) s); [| done].
    apply mkVertexDescription_map_built. }
  split; [apply Hcur |]. split; [| split].
  - intros a Ha. rewrite Hcur. unfold current_field.
    rewrite filter_app, filter_cons_True, filter_nil by done.
    by rewrite last_snoc.
  - intros a Ha. rewrite !Hcur. unfold current_field.
    rewrite filter_app, filter_cons_False, filter_nil by done.
    by rewrite app_nil_r.
  - intros map Hl. rewrite clearSemanticMap_empty by done.
    symmetry. apply mkVertexDescription_map_built.
Qed.

Lemma semantic_lookup_last_wins_witness :
  getAttribute
    (mkVertexDescription 24 [mkVertexAttribute Position Float2 0;
                             mkVertexAttribute Normal Float3 8;
                             mkVertexAttribute Position Float3 0]) Position
  = mkVertexAttribute Position Float3 0.
Proof.
  destruct (semantic_lookup_last_wins 24
              [mkVertexAttribute Position Float2 0;
               mkVertexAttribute Normal Float3 8;
               mkVertexAttribute Position Float3 0] Position) as (Hl & _);
    [discriminate |].
  rewrite Hl. reflexivity.
Defined.

(** ** Validated layouts *)

Lemma validate_true (desc : VertexDescription) :
  validate desc = true <->
  Forall (fun a => offset a mod 4 = 0
                   /\ wrap32 (offset a + getFormatSize (format a)) <= stride desc)
         (attributes desc).
Proof.
  unfold validate. induction (attributes desc) as [| a l IH]; simpl.
  - split; [constructor | done].
  - rewrite andb_true_iff, Forall_cons, IH.
    assert (Ha : attribute_ok (stride desc) a = true
                 <-> offset a mod 4 = 0
                     /\ wrap32 (offset a + getFormatSize (format a)) <= stride desc).
    { unfold attribute_ok.
      destruct (Z.eqb_spec (offset a mod 4) 0);
        destruct (Z.gtb_spec (wrap32 (offset a + getFormatSize (format a)))
                    (stride desc));
        simpl; split; intros Hx; (done || lia). }
    by rewrite Ha.
Qed.

(** X9.  In a layout that [validate] accepts, whatever a lookup answers
    with is either the default attribute or a field on the 4-byte grid
    that ends inside the record; a field found by a lookup whose end does
    not overflow 32 bits lies wholly inside the stride. *)
Theorem validated_lookup_fits (desc : VertexDescription) (s : VertexAttributeSemantic) :
  map_built desc -> validate desc = true -> s <> InvalidSemantic ->
  let a := getAttribute desc s in
  a = VertexAttribute_default
  \/ (semantic a = s
      /\ offset a mod 4 = 0
      /\ wrap32 (offset a + getFormatSize (format a)) <= stride desc
      /\ (0 <= offset a -> offset a + getFormatSize (format a) < 2 ^ 32 ->
          offset a + getFormatSize (format a) <= stride desc)).
Proof.
  intros Hb Hv Hs a.
  destruct (getAttribute_semantic desc s Hb Hs) as [Hd | [Hin Hsem]]; [by left |].
  right. apply validate_true in Hv. rewrite Forall_forall in Hv.
  destruct (Hv _ Hin) as [Hal Hfit]. fold a in Hal, Hfit, Hsem.
  split; [done |]. split; [done |]. split; [done |].
  intros H0 Hlt. rewrite wrap32_small in Hfit; [done |].
  pose proof (getFormatSize_range (format a)). lia.
Qed.

Lemma validated_lookup_fits_witness :
  let desc := mkVertexDescription 16 [mkVertexAttribute Position Float3 0;
                                      mkVertexAttribute PointSize Float1 12] in
  offset (getAttribute desc PointSize) + 4 <= stride desc.
Proof.
  intros desc.
  destruct (validated_lookup_fits desc PointSize) as [Hd | (_ & _ & _ & Hfit)].
  - reflexivity.
  - reflexivity.
  - discriminate.
  - discriminate Hd.
  - apply Hfit; vm_compute; congruence.
Defined.

(** ** The layout of line expansion under [validate] *)

Lemma getFormatSize_mod4 (f : VertexAttributeFormat) : getFormatSize f mod 4 = 0.
Proof. by destruct f. Qed.

(** X10.  For a layout that [validate] accepts, the layout line
    expansion derives from it (the original fields, NextPosition at the
    original stride, ScaleFactor behind it) is accepted by [validate]
    exactly when the original stride is a multiple of 4. *)
Theorem line_layout_validate (desc : VertexDescription) :
  validate desc = true -> 0 <= stride desc < 2 ^ 31 - 16 ->
  (validate (appendingAttributes desc (newAttributes desc)) = true
   <-> stride desc mod 4 = 0).
Proof.
  intros Hv Hs.
  pose proof (getFormatSize_range (format (getAttribute desc Position))) as Hp.
  pose proof (getFormatSize_mod4 (format (getAttribute desc Position))) as Hp4.
  destruct (newAttributes_packed desc Hs) as (_ & _ & Hsz).
  assert (Hst : stride (appendingAttributes desc (newAttributes desc))
                = stride desc + getFormatSize (format (getAttribute desc Position)) + 4).
  { etransitivity;
      [apply (appended_stride (newAttributes desc) (stride desc)); lia | lia]. }
  rewrite validate_true in *. rewrite Hst.
  change (attributes (appendingAttributes desc (newAttributes desc)))
    with (attributes desc ++ newAttributes desc).
  rewrite Forall_app. unfold newAttributes.
  rewrite (to_int_small (stride desc)) by lia.
  rewrite (to_int_small (getFormatSize _)) by lia.
  rewrite to_int_small by lia.
  rewrite (wrap32_small (stride desc)) by lia.
  rewrite (wrap32_small (stride desc + _)) by lia.
  rewrite !Forall_cons. simpl.
  rewrite !wrap32_small by lia.
  split.
  - intros (_ & (Hn & _) & _). exact Hn.
  - intros H4. split; [| split; [| split]]; try done.
    + eapply Forall_impl; [exact Hv |]. intros a [Ha Hfit]. split; [done | lia].
    + split; [done | lia].
    + split; [| lia]. rewrite Z.add_mod, H4, Hp4 by lia. reflexivity.
Qed.

Lemma line_layout_validate_witness :
  validate (appendingAttributes
              (mkVertexDescription 13 [mkVertexAttribute Position Float3 0])
              (newAttributes
                 (mkVertexDescription 13 [mkVertexAttribute Position Float3 0])))
  = false.
Proof.
  apply not_true_iff_false. intros Hx.
  apply (line_layout_validate
           (mkVertexDescription 13 [mkVertexAttribute Position Float3 0]))
    in Hx; [discriminate Hx | reflexivity | simpl; lia].
Defined.

(** ** The walk over a triangle list *)

Lemma triples_length (l : list Z) (k : Z) :
  Z.of_nat (length l) mod 3 = 0 ->
  Z.of_nat (length (triples k l)) = Z.of_nat (length l) / 3.
Proof.
  revert k. induction l as [l IH] using (induction_ltof1 _ (@length Z)).
  unfold ltof in IH. intros k Hm.
  destruct l as [| a [| b [| c l]]]; simpl in *; [done | done | done |].
  rewrite Nat2Z.inj_succ, (IH l); [| lia |].
  - replace (Z.of_nat (S (S (S (length l))))) with (Z.of_nat (length l) + 1 * 3) by lia.
    rewrite Z.div_add by lia. lia.
  - replace (Z.of_nat (S (S (S (length l))))) with (Z.of_nat (length l) + 1 * 3)
      in Hm by lia.
    by rewrite Z.mod_add in Hm by lia.
Qed.

Lemma vector_at_app_r {A} (pre l : list A) (i : Z) :
  0 <= i ->
  vector_at (pre ++ l) (Z.of_nat (length pre) + i) = vector_at l i.
Proof.
  intros Hi. unfold vector_at, size_of. rewrite length_app.
  destruct (Z.leb_spec 0 i); [| lia].
  destruct (Z.leb_spec 0 (Z.of_nat (length pre) + i)); [| lia].
  destruct (Z.ltb_spec i (Z.of_nat (length l)));
    destruct (Z.ltb_spec (Z.of_nat (length pre) + i)
                (Z.of_nat (length pre + length l))); try lia; simpl; [| done].
  rewrite lookup_app_r by lia. f_equal. lia.
Qed.

Lemma vector_at_head3 {A} (a b c : A) (rest : list A) :
  vector_at (a :: b :: c :: rest) 0 = Some a
  /\ vector_at (a :: b :: c :: rest) 1 = Some b
  /\ vector_at (a :: b :: c :: rest) 2 = Some c.
Proof.
  unfold vector_at, size_of. simpl length.
  destruct (Z.ltb_spec 0 (Z.of_nat (S (S (S (length rest)))))); [| lia].
  destruct (Z.ltb_spec 1 (Z.of_nat (S (S (S (length rest)))))); [| lia].
  destruct (Z.ltb_spec 2 (Z.of_nat (S (S (S (length rest)))))); [| lia].
  done.
Qed.

(** From a position that is a multiple of 3 the loop examines the
    remaining triples, one by one. *)
Lemma walk_loop_list (fuel : nat) (pre rest : list Z) (a b c k : Z)
    (acc : list (Z * (Z * Z * Z))) :
  let inds := pre ++ a :: b :: c :: rest in
  Z.of_nat (length inds) < 2 ^ 32 ->
  Z.of_nat (length rest) mod 3 = 0 ->
  0 <= k -> k + Z.of_nat (length rest) < 2 ^ 32 ->
  (length rest < 3 * fuel)%nat ->
  walk_loop fuel record_triangle TriList inds (Z.of_nat (length inds))
    (Z.of_nat (length pre)) a b c k acc
  = Done (acc ++ triples k (a :: b :: c :: rest)).
Proof.
  revert pre rest a b c k acc.
  induction fuel as [| fuel IH]; intros pre rest a b c k acc inds Hn Hm Hk Hk' Hf;
    [lia |].
  assert (Hlen : Z.of_nat (length inds)
                 = Z.of_nat (length pre) + 3 + Z.of_nat (length rest)).
  { unfold inds. rewrite length_app. simpl. lia. }
  simpl walk_loop. unfold record_triangle at 1. simpl.
  rewrite (wrap32_small (Z.of_nat (length pre) + 3)) by lia.
  destruct rest as [| a' [| b' [| c' rest]]].
  - destruct (Z.ltb_spec (Z.of_nat (length pre) + 3) (Z.of_nat (length inds)));
      [simpl in Hlen; lia |].
    simpl. destruct (Z.ltb_spec (Z.of_nat (length pre) + 3) (Z.of_nat (length inds)));
      [simpl in Hlen; lia | done].
  - simpl in Hm. discriminate Hm.
  - simpl in Hm. discriminate Hm.
  - destruct (Z.ltb_spec (Z.of_nat (length pre) + 3) (Z.of_nat (length inds)));
      [| simpl in Hlen; lia].
    rewrite !wrap32_small by (simpl length in *; lia).
    assert (Hinds : inds = (pre ++ [a; b; c]) ++ a' :: b' :: c' :: rest)
      by (unfold inds; by rewrite <- app_assoc).
    assert (Hpre : Z.of_nat (length (pre ++ [a; b; c])) = Z.of_nat (length pre) + 3)
      by (rewrite length_app; simpl; lia).
    destruct (vector_at_head3 a' b' c' rest) as (E0 & E1 & E2).
    assert (F0 : vector_at inds (Z.of_nat (length pre) + 3 + 0) = Some a')
      by (rewrite Hinds, <- Hpre, vector_at_app_r by lia; exact E0).
    assert (F1 : vector_at inds (Z.of_nat (length pre) + 3 + 1) = Some b')
      by (rewrite Hinds, <- Hpre, vector_at_app_r by lia; exact E1).
    assert (F2 : vector_at inds (Z.of_nat (length pre) + 3 + 2) = Some c')
      by (rewrite Hinds, <- Hpre, vector_at_app_r by lia; exact E2).
    fold inds. rewrite F0, F1, F2. simpl of_option. simpl mbind.
    destruct (Z.ltb_spec (Z.of_nat (length pre) + 3) (Z.of_nat (length inds)));
      [| lia].
    rewrite <- Hpre.
    pose proof (IH (pre ++ [a; b; c]) rest a' b' c' (k + 1)
                  (acc ++ [(k, (a, b, c))])) as IH'.
    simpl in IH'. rewrite <- Hinds in IH'.
    etransitivity; [apply IH' | rewrite <- app_assoc; reflexivity].
    + done.
    + simpl length in Hm.
      replace (Z.of_nat (S (S (S (length rest)))))
        with (Z.of_nat (length rest) + 1 * 3) in Hm by lia.
      by rewrite Z.mod_add in Hm by lia.
    + lia.
    + simpl length in Hk'. lia.
    + simpl length in Hf. lia.
Qed.

(** X11.  On a triangle list of [n >= 3] indices, [n] a multiple of 3,
    the walk of [pick] examines the consecutive triples of indices,
    triangle [k] being ([indices[3k]], [indices[3k+1]], [indices[3k+2]])
    with primitive index [k], never reads outside the index vector, and
    examines as many triangles as [getPrimitiveCount] reports. *)
Theorem walk_trace_list (g : PrimitiveGroup) :
  let n := Z.of_nat (length (indices g)) in
  prim g = TriList -> 3 <= n < 2 ^ 32 -> n mod 3 = 0 ->
  walk_trace g = Done (triples 0 (indices g))
  /\ Z.of_nat (length (triples 0 (indices g))) = getPrimitiveCount g.
Proof.
  intros n Hp Hn Hm. subst n. split.
  - unfold walk_trace, walk, walk_fuel. rewrite Hp. unfold size_of.
    rewrite (wrap32_small (Z.of_nat (length (indices g)))) by lia.
    replace (walked TriList (Z.of_nat (length (indices g)))) with true
      by (symmetry; apply walked_spec; left; repeat split; (done || lia)).
    revert Hn Hm.
    destruct (indices g) as [| a [| b [| c rest]]]; intros Hn Hm;
      try (simpl length in Hn; lia).
    destruct (vector_at_head3 a b c rest) as (-> & -> & ->).
    simpl of_option. simpl mbind.
    assert (Hrest : Z.of_nat (length rest) mod 3 = 0).
    { simpl length in Hm.
      replace (Z.of_nat (S (S (S (length rest)))))
        with (Z.of_nat (length rest) + 1 * 3) in Hm by lia.
      by rewrite Z.mod_add in Hm by lia. }
    apply (walk_loop_list (S (length (a :: b :: c :: rest))) [] rest a b c 0 []).
    + exact (proj2 Hn).
    + exact Hrest.
    + lia.
    + simpl length in Hn. lia.
    + simpl length. lia.
  - rewrite triples_length by exact Hm.
    unfold getPrimitiveCount, size_of. rewrite Hp.
    rewrite wrap32_small; [done |].
    split; [apply Z.div_pos; lia |].
    apply Z.le_lt_trans with (Z.of_nat (length (indices g)));
      [apply Z.div_le_upper_bound; lia | lia].
Qed.

Lemma walk_trace_list_witness :
  walk_trace (plain_group TriList [10; 11; 12; 13; 14; 15])
  = Done [(0, (10, 11, 12)); (1, (13, 14, 15))].
Proof.
  apply (walk_trace_list (plain_group TriList [10; 11; 12; 13; 14; 15]));
    [reflexivity | simpl; lia | reflexivity].
Defined.

(** ** What [pick] leaves in the result *)

Lemma walk_loop_invariant {A} (P : A -> Prop)
    (visit : A -> Z -> Z * Z * Z -> outcome A)
    (p : PrimitiveGroupType) (inds : list Z) (n : Z) :
  (forall acc k tri acc', P acc -> visit acc k tri = Done acc' -> P acc') ->
  forall (fuel : nat) (index i0 i1 i2 k : Z) (acc acc' : A),
    P acc ->
    walk_loop fuel visit p inds n index i0 i1 i2 k acc = Done acc' -> P acc'.
Proof.
  intros Hv. induction fuel as [| fuel IH]; intros index i0 i1 i2 k acc acc' HP Hw;
    [done |].
  simpl in Hw.
  destruct (visit acc k (i0, i1, i2)) as [acc1 | |] eqn:Hvis; simpl in Hw; try done.
  destruct (next_triangle p inds n index i0 i1 i2) as [[[[index' a] b] c] | |];
    simpl in Hw; try done.
  destruct (index' <? n).
  - eapply IH; [| exact Hw]. eauto.
  - injection Hw as <-. eauto.
Qed.

Lemma walk_invariant {A} (P : A -> Prop)
    (visit : A -> Z -> Z * Z * Z -> outcome A) (g : PrimitiveGroup)
    (fuel : nat) (acc acc' : A) :
  (walked (prim g) (wrap32 (size_of (indices g))) = true ->
   forall acc k tri acc', P acc -> visit acc k tri = Done acc' -> P acc') ->
  P acc -> walk fuel visit g acc = Done acc' -> P acc'.
Proof.
  intros Hv HP Hw. unfold walk in Hw.
  destruct (walked (prim g) (wrap32 (size_of (indices g)))); [| congruence].
  destruct (vector_at (indices g) 0); simpl in Hw; try done.
  destruct (vector_at (indices g) 1); simpl in Hw; try done.
  destruct (vector_at (indices g) 2); simpl in Hw; try done.
  eapply walk_loop_invariant; [apply Hv; reflexivity | exact HP | exact Hw].
Qed.

Lemma vector_at_Forall {A} (Q : A -> Prop) (v : list A) (i : Z) :
  Forall Q v -> 0 <= i < Z.of_nat (length v) ->
  exists x, vector_at v i = Some x /\ Q x.
Proof.
  intros HQ Hi. destruct (vector_at_Some v i Hi) as (x & Hx & Hl).
  exists x. split; [done |]. eapply Forall_lookup_1; eauto.
Qed.

(** The loop of the walk reads inside the index vector when a list has
    a multiple of 3 indices and a fan an odd number. *)
Lemma walk_loop_safe {A} (Q : Z -> Prop)
    (visit : A -> Z -> Z * Z * Z -> outcome A)
    (p : PrimitiveGroupType) (inds : list Z) :
  let n := Z.of_nat (length inds) in
  n < 2 ^ 32 -> Forall Q inds ->
  (forall acc k a b c, Q a -> Q b -> Q c -> exists acc', visit acc k (a, b, c) = Done acc') ->
  (p = TriList -> n mod 3 = 0) ->
  (p <> TriList -> p <> TriStrip -> n mod 2 = 1) ->
  forall (fuel : nat) (index i0 i1 i2 k : Z) (acc : A),
    Q i0 -> Q i1 -> Q i2 -> 0 <= index < n ->
    (p = TriList -> index mod 3 = 0) ->
    (p <> TriList -> p <> TriStrip -> index mod 2 = 0) ->
    n - index <= Z.of_nat fuel ->
    exists acc', walk_loop fuel visit p inds n index i0 i1 i2 k acc = Done acc'.
Proof.
  intros n Hn HQ Hv Hl Hf.
  induction fuel as [| fuel IH]; intros index i0 i1 i2 k acc H0 H1 H2 Hi Hil Hif Hfuel;
    [lia |].
  simpl walk_loop.
  destruct (Hv acc k i0 i1 i2 H0 H1 H2) as [acc1 ->]. simpl.
  destruct (decide (p = TriList)) as [-> | Hnl].
  - specialize (Hl eq_refl). specialize (Hil eq_refl).
    assert (Hstep : index + 3 <= n) by (Z.div_mod_to_equations; lia).
    unfold next_triangle. rewrite (wrap32_small (index + 3)) by lia.
    destruct (Z.ltb_spec (index + 3) n) as [Hlt | Hge].
    + assert (Hstep' : index + 6 <= n) by (Z.div_mod_to_equations; lia).
      rewrite (wrap32_small (index + 3 + 0)), (wrap32_small (index + 3 + 1)),
        (wrap32_small (index + 3 + 2)) by lia.
      destruct (vector_at_Forall Q inds (index + 3 + 0) HQ) as (a & -> & Ha); [lia |].
      destruct (vector_at_Forall Q inds (index + 3 + 1) HQ) as (b & -> & Hb); [lia |].
      destruct (vector_at_Forall Q inds (index + 3 + 2) HQ) as (c & -> & Hc); [lia |].
      simpl. destruct (Z.ltb_spec (index + 3) n); [| lia].
      apply IH; try done; try lia.
      intros _. Z.div_mod_to_equations; lia.
    + simpl. destruct (Z.ltb_spec (index + 3) n); [lia |]. eauto.
  - destruct (decide (p = TriStrip)) as [-> | Hns].
    + unfold next_triangle. rewrite (wrap32_small (index + 1)) by lia.
      destruct (Z.ltb_spec (index + 1) n) as [Hlt | Hge].
      * destruct (vector_at_Forall Q inds (index + 1) HQ) as (c & -> & Hc); [lia |].
        simpl. destruct (Z.ltb_spec (index + 1) n); [| lia].
        apply IH; try done; lia.
      * simpl. destruct (Z.ltb_spec (index + 1) n); [lia |]. eauto.
    + specialize (Hf Hnl Hns). specialize (Hif Hnl Hns).
      assert (Hnext : next_triangle p inds n index i0 i1 i2
               = (let index := wrap32 (index + 1) in
                  if index <? n then
                    let index := wrap32 (index + 1) in
                    c ← of_option (vector_at inds index);
                    Done (index, i0, i2, c)
                  else Done (index, i0, i1, i2)))
        by (by destruct p).
      rewrite Hnext. cbv zeta. rewrite (wrap32_small (index + 1)) by lia.
      destruct (Z.ltb_spec (index + 1) n) as [Hlt | Hge].
      * assert (Hstep : index + 2 < n) by (Z.div_mod_to_equations; lia).
        rewrite (wrap32_small (index + 1 + 1)) by lia.
        destruct (vector_at_Forall Q inds (index + 1 + 1) HQ) as (c & -> & Hc); [lia |].
        simpl. destruct (Z.ltb_spec (index + 1 + 1) n); [| lia].
        apply IH; try done; try lia.
        intros _ _. Z.div_mod_to_equations; lia.
      * simpl. destruct (Z.ltb_spec (index + 1) n); [lia |]. eauto.
Qed.

Lemma walk_safe {A} (Q : Z -> Prop)
    (visit : A -> Z -> Z * Z * Z -> outcome A) (g : PrimitiveGroup) (acc : A) :
  Z.of_nat (length (indices g)) < 2 ^ 32 -> Forall Q (indices g) ->
  (prim g = TriFan -> Z.of_nat (length (indices g)) mod 2 = 1) ->
  (forall acc k a b c, Q a -> Q b -> Q c -> exists acc', visit acc k (a, b, c) = Done acc') ->
  exists acc', walk (walk_fuel g) visit g acc = Done acc'.
Proof.
  intros Hn HQ Hfan Hv. unfold walk, walk_fuel, size_of.
  rewrite (wrap32_small (Z.of_nat (length (indices g)))) by lia.
  destruct (walked (prim g) (Z.of_nat (length (indices g)))) eqn:Hw; [| eauto].
  apply walked_spec in Hw.
  assert (H3 : 3 <= Z.of_nat (length (indices g))) by (destruct Hw as [(_ & ? & _) | [_ ?]]; lia).
  destruct (vector_at_Forall Q (indices g) 0 HQ) as (a & -> & Ha); [lia |].
  destruct (vector_at_Forall Q (indices g) 1 HQ) as (b & -> & Hb); [lia |].
  destruct (vector_at_Forall Q (indices g) 2 HQ) as (c & -> & Hc); [lia |].
  assert (Hl : prim g = TriList -> Z.of_nat (length (indices g)) mod 3 = 0).
  { intros Hp. destruct Hw as [(_ & _ & ?) | [[Hp' | Hp'] _]]; [done | congruence ..]. }
  assert (Hf : prim g <> TriList -> prim g <> TriStrip ->
               Z.of_nat (length (indices g)) mod 2 = 1).
  { intros Hnl Hns. apply Hfan.
    destruct Hw as [(? & _) | [[? | ?] _]]; congruence. }
  apply (walk_loop_safe Q visit (prim g) (indices g) Hn HQ Hv Hl Hf
           (S (length (indices g))) 0 a b c 0 acc Ha Hb Hc); try done; lia.
Qed.

Section PickProps.
Context `{FloatArith}.

Lemma pick_groups_skipped (m : Mesh) (posOffset : Z) (o d : Vector3d)
    (gs : list PrimitiveGroup) (acc : double * option PickResult) :
  Forall (fun g => walked (prim g) (wrap32 (size_of (indices g))) = false) gs ->
  pick_groups m posOffset o d gs acc = Done acc.
Proof.
  induction 1 as [| g gs Hg _ IH]; simpl; [done |].
  by rewrite walk_skipped.
Qed.

(** X12.  On a mesh none of whose groups passes the guard of the walk
    (lines, points, sprites, groups of fewer than 3 indices, triangle
    lists whose index count is no multiple of 3), [pick] reads no vertex,
    reports no hit and leaves the result object alone, whatever the
    vertex buffer holds; the "no hit" rests on [1e30 == 1e30]. *)
Theorem pick_no_triangles (m : Mesh) (rayOrigin rayDirection : Vector3d)
    (result : option PickResult) :
  Forall (fun g => walked (prim g) (wrap32 (size_of (indices g))) = false) (groups m) ->
  deq double_1e30 double_1e30 = true ->
  pick m rayOrigin rayDirection result = Done (false, result).
Proof.
  intros Hs He. unfold pick. destruct (_ || _); [done |].
  rewrite pick_groups_skipped by done. simpl. by rewrite He.
Qed.

Lemma pick_triangle_step (m : Mesh) (posOffset : Z) (o d : Vector3d)
    (g : PrimitiveGroup) (c : double) (r : option PickResult) (k : Z)
    (tri : Z * Z * Z) (acc' : double * option PickResult) :
  pick_triangle m posOffset o d g (c, r) k tri = Done acc' ->
  acc' = (c, r)
  \/ exists t, dlt double_zero t = true
               /\ acc' = (t, (fun _ => mkPickResult (Some g) k t) <$> r).
Proof.
  intros Hp. unfold pick_triangle in Hp. destruct tri as [[i0 i1] i2].
  destruct (pick_vertex m posOffset i0) as [v0 | |]; simpl in Hp; try done.
  destruct (pick_vertex m posOffset i1) as [v1 | |]; simpl in Hp; try done.
  destruct (pick_vertex m posOffset i2) as [v2 | |]; simpl in Hp; try done.
  repeat match type of Hp with
         | context [if ?b then _ else _] =>
             let E := fresh "E" in destruct b eqn:E
         end;
    try (left; congruence).
  right. eexists. split; [| symmetry; injection Hp as <-; reflexivity].
  match goal with
  | E : _ && _ = true |- dlt _ _ = true => apply andb_prop in E; apply E
  end.
Qed.

Lemma pick_groups_state (m : Mesh) (posOffset : Z) (o d : Vector3d)
    (all : list PrimitiveGroup) (c0 : double) (r0 : option PickResult)
    (gs : list PrimitiveGroup) (acc acc' : double * option PickResult) :
  gs ⊆ all -> pick_state all c0 r0 acc ->
  pick_groups m posOffset o d gs acc = Done acc' ->
  pick_state all c0 r0 acc'.
Proof.
  revert acc. induction gs as [| g gs IH]; intros acc Hsub Hacc Hp; simpl in Hp.
  - by injection Hp as <-.
  - destruct (walk (walk_fuel g) _ g acc) as [acc1 | |] eqn:Hw; simpl in Hp; try done.
    apply (IH acc1); [| | exact Hp].
    + intros x Hx. apply Hsub. by right.
    + eapply (walk_invariant (pick_state all c0 r0)); [| exact Hacc | exact Hw].
      intros Hwalked [c r] k tri acc2 Hst Hstep.
      apply pick_triangle_step in Hstep as [-> | (t & Ht & ->)]; [done |].
      right. exists g, k, t. split; [apply Hsub; by left |].
      split; [done |]. split; [done |]. f_equal.
      destruct Hst as [Hst | (g' & k' & t' & _ & _ & _ & Hst)];
        injection Hst as _ ->; [done | by destruct r0].
Qed.

(** X13.  Whatever [pick] leaves behind the result pointer is either
    what was there (and then no hit is reported), or the record of one
    triangle of a group of this mesh that passed the guard of the walk,
    at a distance [t > 0]; the flag is then [t != 1e30], and a null
    pointer stays null. *)
Theorem pick_result_provenance (m : Mesh) (rayOrigin rayDirection : Vector3d)
    (result : option PickResult) (hit : bool) (result' : option PickResult) :
  deq double_1e30 double_1e30 = true ->
  pick m rayOrigin rayDirection result = Done (hit, result') ->
  (hit = false /\ result' = result)
  \/ exists g k t,
       g ∈ groups m
       /\ walked (prim g) (wrap32 (size_of (indices g))) = true
       /\ dlt double_zero t = true
       /\ hit = negb (deq t double_1e30)
       /\ result' = (fun _ => mkPickResult (Some g) k t) <$> result.
Proof.
  intros He Hp. unfold pick in Hp.
  destruct (_ || _); [left; by injection Hp as <- <- |].
  destruct (pick_groups m _ rayOrigin rayDirection (groups m) (double_1e30, result))
    as [[c r] | |] eqn:Hg; simpl in Hp; try done.
  injection Hp as <- <-.
  apply (pick_groups_state m _ rayOrigin rayDirection (groups m) double_1e30 result)
    in Hg; [| done | by left].
  destruct Hg as [Hg | (g & k & t & Hin & Hw & Ht & Hg)]; injection Hg as -> ->.
  - left. by rewrite He.
  - right. exists g, k, t. done.
Qed.

(** ** [pick] stays inside its buffers *)

Lemma pick_vertex_ok (m : Mesh) (i : Z) :
  vertices_wf m -> nVertices m * stride (vertexDesc m) < 2 ^ 32 ->
  0 <= i < nVertices m ->
  exists v, pick_vertex m (offset (getAttribute (vertexDesc m) Position)) i = Done v.
Proof.
  intros (Hn & Hlen & Hp0 & Hp1 & _) Hs Hi. unfold pick_vertex.
  assert (Hmul : 0 <= i * stride (vertexDesc m)
                 /\ (i + 1) * stride (vertexDesc m) <= nVertices m * stride (vertexDesc m))
    by nia.
  rewrite wrap32_small by lia.
  destruct (read_vec3_ok (vertices m)
              (i * stride (vertexDesc m) + offset (getAttribute (vertexDesc m) Position)))
    as [v ->]; [lia | lia |].
  simpl. eauto.
Qed.

Lemma pick_triangle_ok (m : Mesh) (o d : Vector3d) (g : PrimitiveGroup)
    (acc : double * option PickResult) (k a b c : Z) :
  vertices_wf m -> nVertices m * stride (vertexDesc m) < 2 ^ 32 ->
  0 <= a < nVertices m -> 0 <= b < nVertices m -> 0 <= c < nVertices m ->
  exists acc',
    pick_triangle m (offset (getAttribute (vertexDesc m) Position)) o d g acc k (a, b, c)
    = Done acc'.
Proof.
  intros Hwf Hs Ha Hb Hc. unfold pick_triangle. destruct acc as [closest r].
  destruct (pick_vertex_ok m a Hwf Hs Ha) as [v0 ->].
  destruct (pick_vertex_ok m b Hwf Hs Hb) as [v1 ->].
  destruct (pick_vertex_ok m c Hwf Hs Hc) as [v2 ->].
  simpl.
  repeat match goal with
         | |- context [if ?b then _ else _] => destruct b
         end; eauto.
Qed.

(** X14.  On a mesh whose buffer holds its vertices, whose indices name
    vertices of the mesh, and whose triangle fans have an odd number of
    indices, [pick] runs to its end for every ray: no read leaves the
    index vector of a group or the vertex buffer. *)
Theorem pick_safe (m : Mesh) (rayOrigin rayDirection : Vector3d)
    (result : option PickResult) :
  vertices_wf m -> nVertices m * stride (vertexDesc m) < 2 ^ 32 ->
  Forall (pick_group_wf m) (groups m) ->
  exists hit result', pick m rayOrigin rayDirection result = Done (hit, result').
Proof.
  intros Hwf Hs Hgs. unfold pick. destruct (_ || _); [eauto |].
  assert (Hall : forall acc, exists acc',
             pick_groups m (offset (getAttribute (vertexDesc m) Position))
               rayOrigin rayDirection (groups m) acc = Done acc').
  { induction Hgs as [| g gs (Hn & Hi & Hfan) _ IH]; intros acc; simpl; [eauto |].
    destruct (walk_safe (fun i => 0 <= i < nVertices m)
                (pick_triangle m (offset (getAttribute (vertexDesc m) Position))
                   rayOrigin rayDirection g) g acc Hn Hi Hfan) as [acc1 ->].
    - intros acc0 k a b c Ha Hb Hc. by apply pick_triangle_ok.
    - simpl. apply IH. }
  destruct (Hall (double_1e30, result)) as [[c r] ->]. simpl. eauto.
Qed.

End PickProps.

Lemma pick_no_triangles_witness :
  let m := set_groups colour_mesh
             [plain_group LineList [0; 1]; plain_group PointList [0; 1; 1];
              plain_group TriFan [0; 1]; plain_group TriList [0; 1; 1; 0]] in
  let r0 := Some (@mkPickResult int_arith None 0 0) in
  format (getAttribute (vertexDesc m) Position) = Float3
  /\ @pick int_arith m (0, 0, -5) (0, 0, 1) r0 = Done (false, r0).
Proof.
  intros m r0. split; [reflexivity |].
  apply (@pick_no_triangles int_arith m); [| reflexivity].
  repeat constructor.
Defined.

Lemma pick_result_provenance_witness :
  (true = false
   /\ Some (@mkPickResult int_arith (Some (plain_group TriList [0; 1; 2])) 0 5)
      = Some (@mkPickResult int_arith None 0 0))
  \/ exists g k t,
       g ∈ groups triangle_mesh
       /\ walked (prim g) (wrap32 (size_of (indices g))) = true
       /\ @dlt int_arith (@double_zero int_arith) t = true
       /\ true = negb (@deq int_arith t (@double_1e30 int_arith))
       /\ Some (@mkPickResult int_arith (Some (plain_group TriList [0; 1; 2])) 0 5)
          = (fun _ => @mkPickResult int_arith (Some g) k t)
              <$> Some (@mkPickResult int_arith None 0 0).
Proof.
  assert (Hp : @pick int_arith triangle_mesh (0, 0, -5) (0, 0, 1)
                 (Some (@mkPickResult int_arith None 0 0))
               = Done (true, Some (@mkPickResult int_arith
                                     (Some (plain_group TriList [0; 1; 2])) 0 5)))
    by reflexivity.
  exact (@pick_result_provenance int_arith triangle_mesh (0, 0, -5) (0, 0, 1)
           _ _ _ eq_refl Hp).
Defined.

Lemma pick_safe_witness :
  exists hit r,
    @pick int_arith (triangle_mesh) (0, 0, -5) (0, 0, 1) None = Done (hit, r).
Proof.
  apply (@pick_safe int_arith (triangle_mesh)).
  - unfold vertices_wf. vm_compute. repeat split; try discriminate; try done.
  - vm_compute. reflexivity.
  - repeat constructor; try (vm_compute; done); try discriminate.
Defined.


(** ** The bounding box contains the vertices *)

Lemma read_float_ok (buf : buffer) (off : Z) :
  0 <= off -> off + 4 <= Z.of_nat (length buf) -> exists x, read_float buf off = Some x.
Proof.
  intros H0 H1. destruct (read_bytes_ok buf off 4) as [bs Hbs]; [lia .. |].
  destruct (read_bytes_inv _ _ _ _ Hbs) as (_ & _ & _ & Hl & _).
  destruct (float_of_bytes_Some bs) as (x & Hx & _); [lia |].
  exists x. unfold read_float. rewrite Hbs. exact Hx.
Qed.

Section BoundingBox.
Context `{FloatArith}.
Variable number : float32 -> Prop.
Variable fle : float32 -> float32 -> Prop.
Hypothesis Hord : min_max_order number fle.

Lemma vf_le_trans (a b c : Vector3f) :
  vf_number number a -> vf_number number b -> vf_number number c ->
  vf_le fle a b -> vf_le fle b c -> vf_le fle a c.
Proof.
  destruct Hord as (Ht & _).
  destruct a as [[? ?] ?], b as [[? ?] ?], c as [[? ?] ?]; simpl.
  intros (? & ? & ?) (? & ? & ?) (? & ? & ?) (? & ? & ?) (? & ? & ?).
  repeat split; (eapply Ht; [| | | eassumption | eassumption]; assumption).
Qed.

Lemma vf_min_spec (a b : Vector3f) :
  vf_number number a -> vf_number number b ->
  vf_number number (vf_map2 fmin a b)
  /\ vf_le fle (vf_map2 fmin a b) a /\ vf_le fle (vf_map2 fmin a b) b.
Proof.
  destruct Hord as (_ & Hmin & _).
  destruct a as [[a0 a1] a2], b as [[b0 b1] b2]; simpl.
  intros (Ha0 & Ha1 & Ha2) (Hb0 & Hb1 & Hb2).
  destruct (Hmin a0 b0 Ha0 Hb0) as (? & ? & ?).
  destruct (Hmin a1 b1 Ha1 Hb1) as (? & ? & ?).
  destruct (Hmin a2 b2 Ha2 Hb2) as (? & ? & ?).
  repeat split; assumption.
Qed.

Lemma vf_max_spec (a b : Vector3f) :
  vf_number number a -> vf_number number b ->
  vf_number number (vf_map2 fmax a b)
  /\ vf_le fle a (vf_map2 fmax a b) /\ vf_le fle b (vf_map2 fmax a b).
Proof.
  destruct Hord as (_ & _ & Hmax & _).
  destruct a as [[a0 a1] a2], b as [[b0 b1] b2]; simpl.
  intros (Ha0 & Ha1 & Ha2) (Hb0 & Hb1 & Hb2).
  destruct (Hmax a0 b0 Ha0 Hb0) as (? & ? & ?).
  destruct (Hmax a1 b1 Ha1 Hb1) as (? & ? & ?).
  destruct (Hmax a2 b2 Ha2 Hb2) as (? & ? & ?).
  repeat split; assumption.
Qed.

Lemma AlignedBox_empty_number : box_number number AlignedBox_empty.
Proof. destruct Hord as (_ & _ & _ & Hh & Hl). repeat split; assumption. Qed.

(** Extending a box of numbers by a box of numbers gives a box of
    numbers that keeps what was inside and takes in the new box. *)
Lemma box_extend_number (b e : AlignedBox) :
  box_number number b -> box_number number e -> box_number number (box_extend b e).
Proof.
  intros [Hb0 Hb1] [He0 He1]. split; simpl.
  - apply (vf_min_spec _ _ Hb0 He0).
  - apply (vf_max_spec _ _ Hb1 He1).
Qed.

Lemma box_in_extend_l (c b e : AlignedBox) :
  box_number number c -> box_number number b -> box_number number e ->
  box_in fle c b -> box_in fle c (box_extend b e).
Proof.
  intros [Hc0 Hc1] [Hb0 Hb1] [He0 He1] [Hmin Hmax]. split; simpl.
  - destruct (vf_min_spec _ _ Hb0 He0) as (Hn & Hl & _).
    exact (vf_le_trans _ _ _ Hn Hb0 Hc0 Hl Hmin).
  - destruct (vf_max_spec _ _ Hb1 He1) as (Hn & Hl & _).
    exact (vf_le_trans _ _ _ Hc1 Hb1 Hn Hmax Hl).
Qed.

Lemma box_in_extend_r (b e : AlignedBox) :
  box_number number b -> box_number number e -> box_in fle e (box_extend b e).
Proof.
  intros [Hb0 Hb1] [He0 He1]. split; simpl.
  - apply (vf_min_spec _ _ Hb0 He0).
  - apply (vf_max_spec _ _ Hb1 He1).
Qed.

Lemma bbox_points_spec (stride_ : Z) (buf : buffer) (n : nat) :
  forall (vdata : Z) (bbox : AlignedBox),
    box_number number bbox ->
    (forall k, 0 <= k < Z.of_nat n ->
       0 <= vdata + k * stride_ /\ vdata + k * stride_ + 12 <= Z.of_nat (length buf)) ->
    (forall k p, 0 <= k < Z.of_nat n ->
       read_vec3 buf (vdata + k * stride_) = Some p -> vf_number number p) ->
    exists box,
      bbox_points n buf vdata stride_ bbox = Some box
      /\ box_number number box
      /\ (forall c, box_number number c -> box_in fle c bbox -> box_in fle c box)
      /\ (forall k, 0 <= k < Z.of_nat n ->
            exists p, read_vec3 buf (vdata + k * stride_) = Some p
                      /\ box_in fle (point_box p) box).
Proof.
  induction n as [| n IH]; intros vdata bbox Hbn Hfit Hnum.
  - exists bbox. split; [done |]. split; [done |]. split; [done | intros k Hk; lia].
  - simpl bbox_points.
    destruct (read_vec3_ok buf vdata) as [p Hp];
      [specialize (Hfit 0); lia | specialize (Hfit 0); lia |].
    rewrite Hp. simpl.
    assert (Hpn : box_number number (point_box p)).
    { assert (vf_number number p)
        by (apply (Hnum 0 p); [lia | by rewrite Z.mul_0_l, Z.add_0_r]).
      by split. }
    destruct (IH (vdata + stride_) (box_extend bbox (point_box p)))
      as (box & Hbox & Hboxn & Hkeep & Hall).
    { by apply box_extend_number. }
    { intros k Hk. specialize (Hfit (k + 1)). lia. }
    { intros k q Hk Hq. apply (Hnum (k + 1) q); [lia |].
      rewrite <- Hq. f_equal. lia. }
    exists box. split; [exact Hbox |]. split; [exact Hboxn |]. split.
    + intros c Hcn Hc. apply Hkeep; [done |]. by apply box_in_extend_l.
    + intros k Hk. destruct (Z.eq_dec k 0) as [-> | Hk0].
      * exists p. rewrite Z.mul_0_l, Z.add_0_r. split; [exact Hp |].
        apply Hkeep; [done |]. by apply box_in_extend_r.
      * destruct (Hall (k - 1)) as (q & Hq & Hin); [lia |].
        exists q. split; [| exact Hin].
        rewrite <- Hq. f_equal. lia.
Qed.

Lemma bbox_sprites_spec (stride_ pso : Z) (buf : buffer) (n : nat) :
  forall (vdata : Z) (bbox : AlignedBox),
    box_number number bbox ->
    (forall k, 0 <= k < Z.of_nat n ->
       0 <= vdata + k * stride_ /\ vdata + k * stride_ + 12 <= Z.of_nat (length buf)
       /\ 0 <= vdata + pso + k * stride_
       /\ vdata + pso + k * stride_ + 4 <= Z.of_nat (length buf)) ->
    (forall k p x, 0 <= k < Z.of_nat n ->
       read_vec3 buf (vdata + k * stride_) = Some p ->
       read_float buf (vdata + pso + k * stride_) = Some x ->
       box_number number (sprite_box p x)) ->
    exists box,
      bbox_sprites n buf vdata stride_ pso bbox = Some box
      /\ box_number number box
      /\ (forall c, box_number number c -> box_in fle c bbox -> box_in fle c box)
      /\ (forall k, 0 <= k < Z.of_nat n ->
            exists p x, read_vec3 buf (vdata + k * stride_) = Some p
                        /\ read_float buf (vdata + pso + k * stride_) = Some x
                        /\ box_in fle (sprite_box p x) box).
Proof.
  induction n as [| n IH]; intros vdata bbox Hbn Hfit Hnum.
  - exists bbox. split; [done |]. split; [done |]. split; [done | intros k Hk; lia].
  - simpl bbox_sprites.
    destruct (read_vec3_ok buf vdata) as [p Hp];
      [specialize (Hfit 0); lia | specialize (Hfit 0); lia |].
    destruct (read_float_ok buf (vdata + pso)) as [x Hx];
      [specialize (Hfit 0); lia | specialize (Hfit 0); lia |].
    rewrite Hp. simpl. rewrite Hx. simpl.
    assert (Hpn : box_number number (sprite_box p x)).
    { apply (Hnum 0 p x); [lia | by rewrite Z.mul_0_l, Z.add_0_r
                          | by rewrite Z.mul_0_l, Z.add_0_r]. }
    destruct (IH (vdata + stride_) (box_extend bbox (sprite_box p x)))
      as (box & Hbox & Hboxn & Hkeep & Hall).
    { by apply box_extend_number. }
    { intros k Hk. specialize (Hfit (k + 1)). lia. }
    { intros k q y Hk Hq Hy. apply (Hnum (k + 1) q y); [lia | |].
      - rewrite <- Hq. f_equal. lia.
      - rewrite <- Hy. f_equal. lia. }
    exists box. split; [exact Hbox |]. split; [exact Hboxn |]. split.
    + intros c Hcn Hc. apply Hkeep; [done |]. by apply box_in_extend_l.
    + intros k Hk. destruct (Z.eq_dec k 0) as [-> | Hk0].
      * exists p, x. rewrite Z.mul_0_l, !Z.add_0_r. split; [exact Hp |].
        split; [exact Hx |]. apply Hkeep; [done |]. by apply box_in_extend_r.
      * destruct (Hall (k - 1)) as (q & y & Hq & Hy & Hin); [lia |].
        exists q, y. split; [| split; [| exact Hin]].
        -- rewrite <- Hq. f_equal. lia.
        -- rewrite <- Hy. f_equal. lia.
Qed.

(** The box of a buffer of [n] records laid out as the layout [desc]
    says, as [getBoundingBox] computes it. *)
Lemma bounding_box_spec (desc : VertexDescription) (n : Z) (vs : buffer) (nm : string)
    (gs : list PrimitiveGroup) :
  let m := mkMesh desc n vs gs nm in
  let pos := offset (getAttribute desc Position) in
  let ps := offset (getAttribute desc PointSize) in
  format (getAttribute desc Position) = Float3 ->
  vertices_wf m -> stride desc < 2 ^ 31 ->
  vertex_numbers number m ->
  exists box,
    getBoundingBox m = Some box
    /\ forall i, 0 <= i < n ->
         exists p,
           read_vec3 vs (i * stride desc + pos) = Some p
           /\ (format (getAttribute desc PointSize) <> Float1 ->
               box_in fle (point_box p) box)
           /\ (format (getAttribute desc PointSize) = Float1 ->
               exists x, read_float vs (i * stride desc + ps) = Some x
                         /\ box_in fle (sprite_box p x) box).
Proof.
  intros m pos ps Hfmt Hwf Hs Hnum. unfold getBoundingBox.
  unfold vertices_wf in Hwf. unfold vertex_numbers in Hnum.
  cbv zeta in Hwf, Hnum. simpl in Hwf, Hnum. fold pos ps in Hwf, Hnum.
  destruct Hwf as (Hn & Hlen & Hpos & Hpos' & Hps).
  cbn [vertexDesc nVertices vertices m].
  rewrite (bool_decide_eq_true_2 _ Hfmt). cbn [negb]. fold pos ps.
  assert (Hnn : Z.of_nat (Z.to_nat n) = n) by lia.
  assert (Hrec : forall k, 0 <= k < n ->
             0 <= k * stride desc /\ (k + 1) * stride desc <= n * stride desc)
    by (intros; nia).
  destruct (decide (format (getAttribute desc PointSize) = Float1)) as [Hf1 | Hf1].
  - rewrite (bool_decide_eq_true_2 _ Hf1).
    destruct (Hps Hf1) as (Hps0 & Hps1 & _).
    rewrite (to_int_small ps), (to_int_small pos), (to_int_small (ps - pos)) by lia.
    destruct (bbox_sprites_spec (stride desc) (ps - pos) vs
                (Z.to_nat n) pos AlignedBox_empty)
      as (box & Hbox & _ & _ & Hall).
    { apply AlignedBox_empty_number. }
    { intros k Hk. specialize (Hrec k). lia. }
    { intros k p x Hk Hp Hx.
      replace (pos + k * stride desc) with (k * stride desc + pos) in Hp by lia.
      replace (pos + (ps - pos) + k * stride desc) with (k * stride desc + ps)
        in Hx by lia.
      destruct (Hnum k p) as [_ Hsp]; [lia | exact Hp |].
      exact (Hsp Hf1 x Hx). }
    exists box. split; [exact Hbox |]. intros i Hi.
    destruct (Hall i) as (p & x & Hp & Hx & Hin); [lia |].
    exists p. split; [rewrite <- Hp; f_equal; lia |]. split; [done |].
    intros _. exists x. split; [rewrite <- Hx; f_equal; lia | exact Hin].
  - rewrite (bool_decide_eq_false_2 _ Hf1).
    destruct (bbox_points_spec (stride desc) vs
                (Z.to_nat n) pos AlignedBox_empty)
      as (box & Hbox & _ & _ & Hall).
    { apply AlignedBox_empty_number. }
    { intros k Hk. specialize (Hrec k). lia. }
    { intros k p Hk Hp.
      replace (pos + k * stride desc) with (k * stride desc + pos) in Hp by lia.
      destruct (Hnum k p) as [Hv _]; [lia | exact Hp | exact Hv]. }
    exists box. split; [exact Hbox |]. intros i Hi.
    destruct (Hall i) as (p & Hp & Hin); [lia |].
    exists p. split; [rewrite <- Hp; f_equal; lia |]. split; [done | done].
Qed.

(** X15.  On a mesh with a Float3 Position whose buffer holds its
    vertices, none of whose coordinates is a NaN, [getBoundingBox]
    returns a box that contains every vertex position; with a Float1
    PointSize it contains the box of every sprite, the position minus
    and plus the point size.  Of the machine this asks that minimum and
    maximum of two numbers are numbers bounding both, and that the
    corners of the empty box are numbers; nothing is asked of NaNs. *)
Theorem getBoundingBox_contains (m : Mesh) :
  let desc := vertexDesc m in
  let pos := offset (getAttribute desc Position) in
  let ps := offset (getAttribute desc PointSize) in
  format (getAttribute desc Position) = Float3 ->
  vertices_wf m -> stride desc < 2 ^ 31 ->
  vertex_numbers number m ->
  exists box,
    getBoundingBox m = Some box
    /\ forall i, 0 <= i < nVertices m ->
         exists p,
           read_vec3 (vertices m) (i * stride desc + pos) = Some p
           /\ (format (getAttribute desc PointSize) <> Float1 ->
               box_in fle (point_box p) box)
           /\ (format (getAttribute desc PointSize) = Float1 ->
               exists x, read_float (vertices m) (i * stride desc + ps) = Some x
                         /\ box_in fle (sprite_box p x) box).
Proof.
  destruct m as [desc n vs gs nm]. cbn [vertexDesc nVertices vertices].
  apply bounding_box_spec.
Qed.

End BoundingBox.

(** The order of floats on their bit patterns meets the requirement on
    minimum and maximum. *)
Lemma float_min_spec (a b : float32) :
  float_number a -> float_number b ->
  float_number (float_min a b)
  /\ float_le (float_min a b) a /\ float_le (float_min a b) b.
Proof.
  unfold float_number, float_le, float_min, float_ltb. intros Ha Hb.
  rewrite Ha, Hb. simpl.
  destruct (Z.ltb_spec (float_key b) (float_key a)); repeat split; (done || lia).
Qed.

Lemma float_max_spec (a b : float32) :
  float_number a -> float_number b ->
  float_number (float_max a b)
  /\ float_le a (float_max a b) /\ float_le b (float_max a b).
Proof.
  unfold float_number, float_le, float_max, float_ltb. intros Ha Hb.
  rewrite Ha, Hb. simpl.
  destruct (Z.ltb_spec (float_key a) (float_key b)); repeat split; (done || lia).
Qed.

Lemma ieee_order_min_max : @min_max_order ieee_order_arith float_number float_le.
Proof.
  split; [unfold float_le; intros; lia |].
  split; [exact float_min_spec |]. split; [exact float_max_spec |].
  split; reflexivity.
Qed.

(** With the machine's minimum a NaN does spoil the box: it stays in
    the corner it reaches first. *)
Lemma float_min_nan (a b : float32) :
  float_is_nan a = true -> float_min a b = a.
Proof. intros Ha. unfold float_min, float_ltb. by rewrite Ha, andb_false_r. Qed.

Lemma triangle_mesh_numbers (H : FloatArith) : @vertex_numbers H float_number triangle_mesh.
Proof.
  intros i p Hi Hp.
  change (nVertices triangle_mesh) with 3 in Hi.
  split; [| intros Hf; vm_compute in Hf; discriminate Hf].
  assert (Hcase : i = 0 \/ i = 1 \/ i = 2) by lia.
  destruct Hcase as [-> | [-> | ->]]; vm_compute in Hp; injection Hp as <-;
    repeat split.
Qed.

Lemma getBoundingBox_contains_witness :
  exists box,
    @getBoundingBox ieee_order_arith triangle_mesh = Some box
    /\ box_in float_le (point_box (float_of_Z 1, float_of_Z 0, float_of_Z 0)) box.
Proof.
  destruct (@getBoundingBox_contains ieee_order_arith float_number float_le
              ieee_order_min_max triangle_mesh)
    as (box & Hbox & Hall).
  - reflexivity.
  - unfold vertices_wf. vm_compute. repeat split; try discriminate; try done.
  - vm_compute. reflexivity.
  - apply triangle_mesh_numbers.
  - exists box. split; [exact Hbox |].
    destruct (Hall 1) as (p & Hp & Hin & _); [vm_compute; split; [discriminate | reflexivity] |].
    vm_compute in Hp. injection Hp as <-.
    apply Hin. vm_compute. discriminate.
Defined.

(** ** What [transform] leaves alone, and the box afterwards *)

Section TransformFrame.
Context `{FloatArith}.

(** The two passes of [transform] over the buffer of the mesh, taken
    together. *)
Lemma transform_buffer_spec (m : Mesh) (translation : Vector3f) (scale : float32) :
  let desc := vertexDesc m in
  let pos := offset (getAttribute desc Position) in
  let ps := offset (getAttribute desc PointSize) in
  format (getAttribute desc Position) = Float3 ->
  vertices_wf m ->
  exists vs,
    transform m translation scale
    = (gs ← mapM (transform_group translation scale) (groups m);
       Some (mkMesh desc (nVertices m) vs gs (name m)))
    /\ length vs = length (vertices m)
    /\ (forall i, 0 <= i < nVertices m ->
          exists v, read_vec3 (vertices m) (i * stride desc + pos) = Some v
                    /\ read_vec3 vs (i * stride desc + pos)
                       = Some (transform_point translation scale v))
    /\ (format (getAttribute desc PointSize) = Float1 ->
        forall i, 0 <= i < nVertices m ->
          exists x, read_float (vertices m) (i * stride desc + ps) = Some x
                    /\ read_float vs (i * stride desc + ps) = Some (fmul x scale))
    /\ (forall p : nat,
          (forall k, 0 <= k < nVertices m ->
             ~ (k * stride desc + pos <= Z.of_nat p < k * stride desc + pos + 12)
             /\ (format (getAttribute desc PointSize) = Float1 ->
                 ~ (k * stride desc + ps <= Z.of_nat p < k * stride desc + ps + 4))) ->
          vs !! p = vertices m !! p).
Proof.
  intros desc pos ps Hfmt Hwf. unfold transform.
  unfold vertices_wf in Hwf. cbv zeta in Hwf. fold desc pos ps in Hwf.
  destruct Hwf as (Hn & Hlen & Hpos & Hpos' & Hps).
  fold desc. rewrite (bool_decide_eq_true_2 _ Hfmt). simpl. fold pos ps.
  assert (Hnn : Z.of_nat (Z.to_nat (nVertices m)) = nVertices m) by lia.
  destruct (transform_positions_spec translation scale (stride desc)
              (Z.to_nat (nVertices m)) (vertices m) pos)
    as (vs1 & Hloop1 & Hl1 & Hfield1 & Hframe1); [lia | lia | rewrite Hnn; nia |].
  rewrite Hloop1. simpl.
  destruct (decide (format (getAttribute desc PointSize) = Float1)) as [Hf1 | Hf1].
  - rewrite (bool_decide_eq_true_2 _ Hf1).
    destruct (Hps Hf1) as (Hps0 & Hps1 & Hdis).
    destruct (transform_pointsizes_spec scale (stride desc)
                (Z.to_nat (nVertices m)) vs1 ps)
      as (vs2 & Hloop2 & Hl2 & Hfield2 & Hframe2);
      [lia | lia | rewrite Hl1, Hnn; nia |].
    rewrite Hloop2. exists vs2.
    split; [by destruct (mapM _ _) |]. split; [congruence |].
    split; [| split].
    + intros i Hi. destruct (Hfield1 i) as (v & Hv & Hv'); [lia |].
      replace (pos + i * stride desc) with (i * stride desc + pos) in Hv, Hv' by lia.
      exists v. split; [exact Hv |]. rewrite <- Hv'.
      apply read_vec3_ext; [done |]. intros p Hp. apply Hframe2.
      intros k Hk.
      apply (fields_apart (stride desc) pos 12 ps 4 i k (Z.of_nat p)); lia.
    + intros _ i Hi. destruct (Hfield2 i) as (x & Hx & Hx'); [lia |].
      replace (ps + i * stride desc) with (i * stride desc + ps) in Hx, Hx' by lia.
      exists x. split; [| exact Hx']. rewrite <- Hx. unfold read_float.
      f_equal. symmetry. apply read_bytes_ext; [done |].
      assert (0 <= i * stride desc) by nia.
      intros p Hp. apply Hframe1. intros k Hk.
      apply (fields_apart (stride desc) ps 4 pos 12 i k (Z.of_nat p)); lia.
    + intros p Hp. rewrite Hframe2, Hframe1; [done | |].
      * intros k Hk. destruct (Hp k) as [Hp1 _]; lia.
      * intros k Hk. destruct (Hp k) as [_ Hp2]; [lia |]. specialize (Hp2 Hf1). lia.
  - rewrite (bool_decide_eq_false_2 _ Hf1). exists vs1.
    split; [by destruct (mapM _ _) |]. split; [done |].
    split; [| split; [done |]].
    + intros i Hi. destruct (Hfield1 i) as (v & Hv & Hv'); [lia |].
      replace (pos + i * stride desc) with (i * stride desc + pos) in Hv, Hv' by lia.
      by exists v.
    + intros p Hp. apply Hframe1.
      intros k Hk. destruct (Hp k) as [Hp1 _]; lia.
Qed.

(** X16.  [transform] changes nothing in the buffer of the mesh but the
    Position field, and the Float1 PointSize field, of its records:
    every other byte (normals, colours, texture coordinates, padding) is
    as before. *)
Theorem transform_frame (m m' : Mesh) (translation : Vector3f) (scale : float32) :
  let desc := vertexDesc m in
  let pos := offset (getAttribute desc Position) in
  let ps := offset (getAttribute desc PointSize) in
  format (getAttribute desc Position) = Float3 ->
  vertices_wf m ->
  transform m translation scale = Some m' ->
  forall p : nat,
    (forall k, 0 <= k < nVertices m ->
       ~ (k * stride desc + pos <= Z.of_nat p < k * stride desc + pos + 12)
       /\ (format (getAttribute desc PointSize) = Float1 ->
           ~ (k * stride desc + ps <= Z.of_nat p < k * stride desc + ps + 4))) ->
    vertices m' !! p = vertices m !! p.
Proof.
  intros desc pos ps Hfmt Hwf Ht p Hp.
  destruct (transform_buffer_spec m translation scale Hfmt Hwf)
    as (vs & Heq & _ & _ & _ & Hframe).
  rewrite Heq in Ht.
  destruct (mapM _ _) as [gs |]; simpl in Ht; [| done].
  injection Ht as <-. simpl. by apply Hframe.
Qed.

Variable number : float32 -> Prop.
Variable fle : float32 -> float32 -> Prop.
Hypothesis Hord : min_max_order number fle.


End TransformFrame.

Lemma transform_frame_witness :
  exists m',
    @transform int_arith colour_mesh (float_of_Z 1, float_of_Z 0, float_of_Z 0)
      (float_of_Z 2) = Some m'
    /\ vertices m' !! 12%nat = vertices colour_mesh !! 12%nat.
Proof.
  eexists. split; [vm_compute; reflexivity |].
  apply (@transform_frame int_arith colour_mesh _
           (float_of_Z 1, float_of_Z 0, float_of_Z 0) (float_of_Z 2)).
  - reflexivity.
  - unfold vertices_wf. vm_compute. repeat split; try discriminate; try done.
  - vm_compute. reflexivity.
  - intros k Hk. split; [| intros Hf; vm_compute in Hf; discriminate Hf].
    change (nVertices colour_mesh) with 2 in Hk.
    change (stride (vertexDesc colour_mesh)) with 16.
    change (offset (getAttribute (vertexDesc colour_mesh) Position)) with 0.
    lia.
Defined.


(** ** Adding a group by topology *)

Section AddGroup.
Context `{FloatArith}.

(** Lookups in the layout line expansion gives its group. *)
Lemma line_layout_lookups (desc : VertexDescription) :
  let pa := getAttribute desc Position in
  let desc' := appendingAttributes desc (newAttributes desc) in
  map_built desc -> 0 <= stride desc < 2 ^ 31 - 16 ->
  getAttribute desc' Position = pa
  /\ getAttribute desc' NextPosition
     = mkVertexAttribute NextPosition (format pa) (stride desc)
  /\ stride desc' = stride desc + getFormatSize (format pa) + 4.
Proof.
  intros pa desc' Hb Hs.
  pose proof (getFormatSize_range (format pa)) as Hpsz.
  assert (Hb' : map_built desc') by apply mkVertexDescription_map_built.
  assert (Hattrs : attributes desc' = attributes desc ++ newAttributes desc)
    by reflexivity.
  split; [| split].
  - rewrite (getAttribute_current desc' Position Hb') by done.
    unfold pa. rewrite (getAttribute_current desc Position Hb) by done.
    unfold current_field. rewrite Hattrs, filter_app, (newAttributes_plain desc) by (fold pa; lia).
    rewrite filter_cons_False by done. rewrite filter_cons_False by done.
    by rewrite filter_nil, app_nil_r.
  - rewrite (getAttribute_current desc' NextPosition Hb') by done.
    unfold current_field. rewrite Hattrs, filter_app, (newAttributes_plain desc) by (fold pa; lia).
    rewrite filter_cons_True by done. rewrite filter_cons_False by done.
    rewrite filter_nil. by rewrite last_snoc.
  - unfold desc', appendingAttributes.
    rewrite (newAttributes_plain desc) by (fold pa; lia). fold pa.
    cbn [stride mkVertexDescription].
    etransitivity;
      [exact (appended_stride
                [mkVertexAttribute NextPosition (format pa) (stride desc);
                 mkVertexAttribute ScaleFactor Float1
                   (stride desc + getFormatSize (format pa))]
                (stride desc) ltac:(lia) ltac:(simpl; lia)) |].
    simpl. lia.
Qed.

(** The group line expansion returns, as far as [transform] and the
    adopting [addGroup] look at it. *)
Lemma createLinePrimitiveGroup_shape (m : Mesh) (lineStrip : bool) (inds : list Z) :
  let desc := vertexDesc m in
  let pa := getAttribute desc Position in
  let St := stride desc + getFormatSize (format pa) + 4 in
  let lineCount := if lineStrip then Z.of_nat (length inds) - 1
                   else Z.of_nat (length inds) / 2 in
  line_input_wf m lineStrip inds ->
  0 <= lineCount
  /\ exists data idx,
       createLinePrimitiveGroup m lineStrip inds
       = Some (mkPrimitiveGroup InvalidPrimitiveGroupType 0 [] TriList (Some data)
                 (4 * lineCount) idx
                 (appendingAttributes desc (newAttributes desc)))
       /\ Z.of_nat (length data) = 4 * lineCount * St.
Proof.
  intros desc pa St lineCount Hwf.
  pose proof (line_loop_spec m lineStrip inds Hwf) as Hloop.
  destruct Hwf as (Hos & Hpo & Hpo' & Hnv & Hlen & Hsz & Hall & Hstrip & HS31 & Hout).
  cbv zeta in Hloop.
  fold desc in Hos, Hpo, Hpo', Hlen, Hsz, HS31, Hout, Hloop.
  fold pa in Hpo, Hpo', HS31, Hout, Hloop.
  fold St in HS31, Hout, Hloop. fold lineCount in Hout, Hloop.
  pose proof (getFormatSize_range (format pa)) as Hpsz.
  pose proof (Z.mul_div_le (Z.of_nat (length inds)) 2 ltac:(lia)) as Hdiv.
  assert (Hdiv0 : 0 <= Z.of_nat (length inds) / 2) by (apply Z.div_pos; lia).
  assert (Hlc0 : 0 <= lineCount).
  { unfold lineCount. destruct lineStrip; [specialize (Hstrip eq_refl) |]; lia. }
  split; [exact Hlc0 |].
  assert (Hlc : lineCount < 2 ^ 27) by nia.
  assert (Hcount : to_int (if lineStrip then wrap64 (size_of inds - 1)
                           else size_of inds / 2) = lineCount).
  { unfold size_of, lineCount. destruct lineStrip.
    - specialize (Hstrip eq_refl). rewrite wrap64_small by lia.
      apply to_int_small. lia.
    - apply to_int_small. lia. }
  unfold createLinePrimitiveGroup. fold desc. fold pa.
  rewrite Hcount.
  rewrite (to_int_small (getFormatSize (format pa))) by lia.
  rewrite (to_int_small (offset pa)) by lia.
  rewrite (to_int_small (stride desc)) by lia.
  rewrite (to_int_small (stride desc + getFormatSize (format pa))) by lia.
  rewrite (to_int_small (stride desc + getFormatSize (format pa) + 4)) by lia.
  fold St.
  rewrite (to_int_small (4 * lineCount)) by lia.
  rewrite (to_int_small (St * (4 * lineCount))) by nia.
  destruct (Z.ltb_spec (St * (4 * lineCount)) 0) as [Hneg | _]; [nia |].
  destruct (Hloop (Z.to_nat lineCount) 0 0
              (replicate (Z.to_nat (St * (4 * lineCount))) "000"%byte) [])
    as (data & Hrun & Hl & _);
    [lia | lia | lia | rewrite length_replicate; nia |].
  rewrite Hrun. simpl.
  rewrite length_replicate in Hl.
  eexists data, _. split; [| nia].
  by rewrite (wrap32_small (4 * lineCount)) by lia.
Qed.

(** [addGroup(prim, materialIndex, indices)] appends one group that
    carries the caller's topology, material and indices; for lines the
    group has an override buffer and layout [transform] can work on. *)
Lemma addGroup_indices_spec (m : Mesh) (prim_ : PrimitiveGroupType)
    (materialIndex_ : Z) (inds : list Z) :
  line_group_ready m prim_ inds ->
  exists g,
    addGroup_indices m prim_ materialIndex_ inds
    = Some (wrap32 (Z.of_nat (length (groups m)) + 1), set_groups m (groups m ++ [g]))
    /\ prim g = prim_ /\ materialIndex g = materialIndex_ /\ indices g = inds
    /\ override_wf g
    /\ (prim_ <> LineStrip -> prim_ <> LineList ->
        primOverride g = prim_ /\ vertexOverride g = None)
    /\ (prim_ = LineStrip \/ prim_ = LineList ->
        primOverride g = TriList /\ is_Some (vertexOverride g)).
Proof.
  intros Hready. unfold addGroup_indices, addGroup.
  assert (Hsize : forall g : PrimitiveGroup,
             size_of (groups m ++ [g]) = Z.of_nat (length (groups m)) + 1).
  { intros g. unfold size_of. rewrite length_app. simpl. lia. }
  destruct (decide (prim_ = LineStrip \/ prim_ = LineList)) as [Hline | Hnl].
  - destruct (Hready Hline) as (Hb & Hfmt & Hwf).
    replace (bool_decide (prim_ = LineStrip) || bool_decide (prim_ = LineList))
      with true
      by (symmetry; destruct Hline as [-> | ->]; reflexivity).
    destruct (createLinePrimitiveGroup_shape m _ inds Hwf)
      as (Hlc0 & data & idx & -> & Hlen).
    simpl. eexists. rewrite Hsize. split; [reflexivity |]. simpl.
    split; [done |]. split; [done |]. split; [done |].
    split; [| split; [intros ? ?; tauto | intros _; split; [done | by eexists]]].
    destruct Hwf as (Hos & Hpo & Hpo' & _ & _ & _ & _ & _ & HS31 & _).
    rewrite Hfmt in Hpo', HS31, Hlen. simpl in Hpo', HS31, Hlen.
    destruct (line_layout_lookups (vertexDesc m) Hb) as (Hp & Hnp & Hst); [lia |].
    rewrite Hfmt in Hst, Hnp. simpl in Hst.
    unfold override_wf. simpl. rewrite Hp, Hnp, Hst. simpl.
    repeat split; lia.
  - replace (bool_decide (prim_ = LineStrip) || bool_decide (prim_ = LineList))
      with false
      by (symmetry; apply orb_false_intro; apply bool_decide_eq_false_2; tauto).
    simpl. eexists. rewrite Hsize. split; [reflexivity |]. simpl.
    split; [done |]. split; [done |]. split; [done |].
    split; [done |]. split; [done | intros ?; tauto].
Qed.

(** X18.  [addGroup(prim, materialIndex, indices)] returns the new
    group count and leaves the vertices, the layout and every group
    already there as they were; [getGroup] at the old count finds the new
    group, which carries the caller's topology, material and indices.
    For a topology other than lines the group has no override buffer;
    for a line strip or list it has the override topology TriList and an
    override buffer. *)
Theorem addGroup_indices_appends (m : Mesh) (prim_ : PrimitiveGroupType)
    (materialIndex_ : Z) (inds : list Z) :
  line_group_ready m prim_ inds ->
  Z.of_nat (length (groups m)) + 1 < 2 ^ 32 ->
  exists n m' g,
    addGroup_indices m prim_ materialIndex_ inds = Some (n, m')
    /\ n = getGroupCount m' /\ n = getGroupCount m + 1
    /\ vertexDesc m' = vertexDesc m /\ nVertices m' = nVertices m
    /\ vertices m' = vertices m
    /\ (forall i, 0 <= i < getGroupCount m -> getGroup m' i = getGroup m i)
    /\ getGroup m' (getGroupCount m) = Some g
    /\ prim g = prim_ /\ materialIndex g = materialIndex_ /\ indices g = inds
    /\ (prim_ <> LineStrip -> prim_ <> LineList ->
        primOverride g = prim_ /\ vertexOverride g = None)
    /\ (prim_ = LineStrip \/ prim_ = LineList ->
        primOverride g = TriList /\ is_Some (vertexOverride g)).
Proof.
  intros Hready Hn.
  destruct (addGroup_indices_spec m prim_ materialIndex_ inds Hready)
    as (g & Hadd & Hp & Hm & Hi & _ & Hplain & Hline).
  eexists _, _, g. split; [exact Hadd |].
  assert (Hlen : length (groups m ++ [g]) = S (length (groups m)))
    by (rewrite length_app; simpl; lia).
  unfold getGroupCount, getGroup, size_of. simpl. rewrite Hlen.
  rewrite !wrap32_small by lia.
  split; [f_equal; lia |]. split; [done |].
  split; [done |]. split; [done |]. split; [done |]. split; [| split].
  - intros i Hi'.
    destruct (Z.geb_spec i (Z.of_nat (S (length (groups m))))); [lia |].
    destruct (Z.geb_spec i (Z.of_nat (length (groups m)))); [lia |].
    apply lookup_app_l. lia.
  - destruct (Z.geb_spec (Z.of_nat (length (groups m)))
                (Z.of_nat (S (length (groups m))))); [lia |].
    rewrite Nat2Z.id. by rewrite list_lookup_middle.
  - done.
Qed.

(** X19.  A group added by [addGroup(prim, materialIndex, indices)] does
    not get in the way of [transform]: on a mesh with a Float3 position
    whose buffers hold their records, adding a group and then
    transforming succeeds, and every group, the new one included, is
    transformed. *)
Theorem addGroup_indices_transform (m : Mesh) (prim_ : PrimitiveGroupType)
    (materialIndex_ : Z) (inds : list Z) (translation : Vector3f) (scale : float32) :
  format (getAttribute (vertexDesc m) Position) = Float3 ->
  vertices_wf m -> Forall override_wf (groups m) ->
  line_group_ready m prim_ inds ->
  exists n m' m'',
    addGroup_indices m prim_ materialIndex_ inds = Some (n, m')
    /\ transform m' translation scale = Some m''
    /\ Forall2 (transformed_group translation scale) (groups m') (groups m'')
    /\ length (groups m'') = S (length (groups m)).
Proof.
  intros Hfmt Hwf Hgs Hready.
  destruct (addGroup_indices_spec m prim_ materialIndex_ inds Hready)
    as (g & Hadd & _ & _ & _ & Hg & _).
  eexists _, _. rewrite Hadd.
  set (m' := set_groups m (groups m ++ [g])).
  destruct (transform_buffer_spec m' translation scale Hfmt Hwf)
    as (vs & Heq & _).
  destruct (transform_groups_spec translation scale (groups m'))
    as (gs' & Hmap & Hall).
  { apply Forall_app. split; [exact Hgs | by constructor]. }
  rewrite Heq, Hmap. simpl.
  eexists. split; [reflexivity |]. split; [reflexivity |]. simpl.
  split; [exact Hall |].
  apply Forall2_length in Hall. rewrite <- Hall.
  unfold m'. simpl. rewrite length_app. simpl. lia.
Qed.

End AddGroup.

Lemma addGroup_indices_appends_witness :
  exists n m' g,
    @addGroup_indices int_arith colour_mesh LineList 3 [0; 1] = Some (n, m')
    /\ getGroup m' 1 = Some g
    /\ primOverride g = TriList /\ indices g = [0; 1] /\ materialIndex g = 3.
Proof.
  destruct (@addGroup_indices_appends int_arith colour_mesh LineList 3 [0; 1])
    as (n & m' & g & Hadd & _ & _ & _ & _ & _ & _ & Hget & _ & Hm & Hi & _ & Hline).
  - intros _. split; [apply mkVertexDescription_map_built |].
    split; [reflexivity |].
    unfold line_input_wf. cbn. repeat split; try lia; try done.
    repeat constructor; lia.
  - simpl. lia.
  - exists n, m', g. split; [exact Hadd |]. split; [exact Hget |].
    split; [apply Hline; by right |]. split; [exact Hi | exact Hm].
Defined.

Lemma addGroup_indices_transform_witness :
  exists n m' m'',
    @addGroup_indices int_arith colour_mesh LineList 3 [0; 1] = Some (n, m')
    /\ @transform int_arith m' (float_of_Z 1, float_of_Z 0, float_of_Z 0)
         (float_of_Z 2) = Some m''
    /\ length (groups m'') = 2%nat.
Proof.
  destruct (@addGroup_indices_transform int_arith colour_mesh LineList 3 [0; 1]
              (float_of_Z 1, float_of_Z 0, float_of_Z 0) (float_of_Z 2))
    as (n & m' & m'' & Hadd & Ht & _ & Hl).
  - reflexivity.
  - unfold vertices_wf. cbn. repeat split; try lia; try done.
  - repeat constructor.
  - intros _. split; [apply mkVertexDescription_map_built |].
    split; [reflexivity |].
    unfold line_input_wf. cbn. repeat split; try lia; try done.
    repeat constructor; lia.
  - exists n, m', m''. split; [exact Hadd |]. split; [exact Ht | exact Hl].
Defined.

(** ** The distance overload of [pick] *)

Section PickDistance.
Context `{FloatArith}.

(** X20.  [pick(rayOrigin, rayDirection, distance)] changes [distance]
    only when it reports a hit, and then to the distance [t > 0],
    [t != 1e30], of a triangle; this rests on [1e30 == 1e30]. *)
Theorem pick_distance_result (m : Mesh) (rayOrigin rayDirection : Vector3d)
    (distance_ : double) (hit : bool) (distance' : double) :
  deq double_1e30 double_1e30 = true ->
  pick_distance m rayOrigin rayDirection distance_ = Done (hit, distance') ->
  (hit = false /\ distance' = distance_)
  \/ (hit = true /\ dlt double_zero distance' = true
      /\ deq distance' double_1e30 = false).
Proof.
  intros He Hp. unfold pick_distance, pick in Hp.
  destruct (_ || _); [left; simpl in Hp; by injection Hp as <- <- |].
  destruct (pick_groups m _ rayOrigin rayDirection (groups m) _)
    as [[c r] | |] eqn:Hg; simpl in Hp; try done.
  injection Hp as <- <-.
  apply (pick_groups_state m _ rayOrigin rayDirection (groups m) double_1e30
           (Some (mkPickResult None 0 double_zero)))
    in Hg; [| done | by left].
  destruct Hg as [Hg | (g & k & t & _ & _ & Ht & Hg)]; injection Hg as -> ->.
  - left. by rewrite He.
  - simpl. destruct (deq t double_1e30) eqn:Hd; simpl; [by left |].
    right. done.
Qed.

End PickDistance.

Lemma pick_distance_result_witness :
  (true = false /\ (5 : @double int_arith) = 77)
  \/ (true = true /\ @dlt int_arith (@double_zero int_arith) 5 = true
      /\ @deq int_arith 5 (@double_1e30 int_arith) = false).
Proof.
  exact (@pick_distance_result int_arith triangle_mesh (0, 0, -5) (0, 0, 1) 77
           true 5 eq_refl eq_refl).
Defined.

(** ** The indices of an expanded line *)

Lemma quad_indices_range (lineCount j : Z) :
  0 <= j < lineCount ->
  Forall (fun i => 0 <= i < 4 * lineCount) (quad_indices j).
Proof. intros Hj. unfold quad_indices. repeat constructor; lia. Qed.

Lemma quads_range (lineCount : Z) (js : list Z) :
  Forall (fun j => 0 <= j < lineCount) js ->
  Forall (fun i => 0 <= i < 4 * lineCount) (flat_map quad_indices js)
  /\ Z.of_nat (length (flat_map quad_indices js)) = 6 * Z.of_nat (length js).
Proof.
  induction 1 as [| j js Hj _ [IH1 IH2]]; [by split |].
  split.
  - change (flat_map quad_indices (j :: js))
      with (quad_indices j ++ flat_map quad_indices js).
    apply Forall_app. split; [by apply quad_indices_range | exact IH1].
  - change (flat_map quad_indices (j :: js))
      with (quad_indices j ++ flat_map quad_indices js).
    rewrite length_app. simpl length. lia.
Qed.

Section LineIndices.
Context `{FloatArith}.

(** X21.  The group line expansion returns is fit for drawing as a
    triangle list: it has six override indices for every segment, and
    every one of them names one of its [4 * lineCount] override vertices;
    the byte size of its override buffer is that count times the stride
    of its override layout. *)
Theorem createLinePrimitiveGroup_indices_in_range (m : Mesh) (lineStrip : bool)
    (inds : list Z) :
  let lineCount := if lineStrip then Z.of_nat (length inds) - 1
                   else Z.of_nat (length inds) / 2 in
  line_input_wf m lineStrip inds ->
  exists g data,
    createLinePrimitiveGroup m lineStrip inds = Some g
    /\ vertexOverride g = Some data
    /\ Z.of_nat (length data)
       = vertexCountOverride g * stride (vertexDescriptionOverride g)
    /\ Z.of_nat (length (indicesOverride g)) = 6 * lineCount
    /\ Forall (fun i => 0 <= i < vertexCountOverride g) (indicesOverride g).
Proof.
  intros lineCount Hwf.
  pose proof (line_loop_spec m lineStrip inds Hwf) as Hloop.
  destruct Hwf as (Hos & Hpo & Hpo' & Hnv & Hlen & Hsz & Hall & Hstrip & HS31 & Hout).
  cbv zeta in Hloop.
  set (desc := vertexDesc m) in *.
  set (pa := getAttribute desc Position) in *.
  set (St := stride desc + getFormatSize (format pa) + 4) in *.
  fold lineCount in Hout, Hloop.
  pose proof (getFormatSize_range (format pa)) as Hpsz.
  pose proof (Z.mul_div_le (Z.of_nat (length inds)) 2 ltac:(lia)) as Hdiv.
  assert (Hdiv0 : 0 <= Z.of_nat (length inds) / 2) by (apply Z.div_pos; lia).
  assert (Hlc0 : 0 <= lineCount).
  { unfold lineCount. destruct lineStrip; [specialize (Hstrip eq_refl) |]; lia. }
  assert (Hlc : lineCount < 2 ^ 27) by nia.
  assert (Hcount : to_int (if lineStrip then wrap64 (size_of inds - 1)
                           else size_of inds / 2) = lineCount).
  { unfold size_of, lineCount. destruct lineStrip.
    - specialize (Hstrip eq_refl). rewrite wrap64_small by lia.
      apply to_int_small. lia.
    - apply to_int_small. lia. }
  unfold createLinePrimitiveGroup. fold desc. fold pa.
  rewrite Hcount.
  rewrite (to_int_small (getFormatSize (format pa))) by lia.
  rewrite (to_int_small (offset pa)) by lia.
  rewrite (to_int_small (stride desc)) by lia.
  rewrite (to_int_small (stride desc + getFormatSize (format pa))) by lia.
  rewrite (to_int_small (stride desc + getFormatSize (format pa) + 4)) by lia.
  fold St.
  rewrite (to_int_small (4 * lineCount)) by lia.
  rewrite (to_int_small (St * (4 * lineCount))) by nia.
  destruct (Z.ltb_spec (St * (4 * lineCount)) 0) as [Hneg | _]; [nia |].
  destruct (Hloop (Z.to_nat lineCount) 0 0
              (replicate (Z.to_nat (St * (4 * lineCount))) "000"%byte) [])
    as (data & Hrun & Hl & _);
    [lia | lia | lia | rewrite length_replicate; nia |].
  assert (Hstride : stride (appendingAttributes desc (newAttributes desc)) = St).
  { rewrite (newAttributes_plain desc) by (fold pa; lia). fold pa.
    unfold appendingAttributes. cbn [stride mkVertexDescription].
    rewrite (appended_stride
               [mkVertexAttribute NextPosition (format pa) (stride desc);
                mkVertexAttribute ScaleFactor Float1
                  (stride desc + getFormatSize (format pa))]
               (stride desc) ltac:(lia) ltac:(simpl; lia)).
    simpl format_sizes. unfold St. lia. }
  rewrite Hrun. cbn [mbind option_bind].
  rewrite length_replicate in Hl.
  eexists. exists data. split; [reflexivity |].
  cbn [vertexOverride vertexCountOverride indicesOverride vertexDescriptionOverride].
  split; [done |].
  rewrite Hstride, (wrap32_small (4 * lineCount)) by lia.
  rewrite Z2Nat.id by lia.
  destruct (quads_range lineCount (seqZ 0 lineCount)) as [Hr Hn].
  { apply Forall_forall. intros j Hj. apply elem_of_seqZ in Hj. lia. }
  rewrite length_seqZ in Hn.
  rewrite app_nil_l. split; [nia | split; [lia | exact Hr]].
Qed.

End LineIndices.

Lemma createLinePrimitiveGroup_indices_in_range_witness :
  exists g,
    @createLinePrimitiveGroup int_arith colour_mesh false [0; 1] = Some g
    /\ Z.of_nat (length (indicesOverride g)) = 6
    /\ Forall (fun i => 0 <= i < vertexCountOverride g) (indicesOverride g).
Proof.
  destruct (@createLinePrimitiveGroup_indices_in_range int_arith colour_mesh false [0; 1])
    as (g & data & Hg & _ & _ & Hn & Hr).
  - unfold line_input_wf. cbn. repeat split; try lia; try done.
    repeat constructor; lia.
  - exists g. split; [exact Hg |]. split; [exact Hn | exact Hr].
Defined.
